(** * baur: sandboxed task execution and the run registry

    A shallow embedding of
    - [internal/landlock] (the Landlock rule set driver),
    - [internal/exec] ([CmdSandboxed.Exec]),
    - [TaskRunner.RunSandboxed] with the gob transport of the sandboxed
      command, and
    - [pkg/storage/postgres/insert.go] (the write side of the registry),
    together with the properties the design document states about them;
    and of their surroundings:
    - [internal/command] (the commands [baur shell], [baur status] and
      [baur ls inputs]),
    - [RemoteDockerImg] (the docker images of the registry).

    Conventions.  Go strings are byte strings and are modelled by [string]
    (a list of 8-bit characters).  A Go slice is modelled by a [list]; a nil
    slice and an empty slice are both [[]] (the code below only ranges over
    slices and takes their length).  Go's [int], [uintptr] and [uint64] are
    [Z] with the constants written as in the kernel headers.  The operating
    system, the version control adapter and the database are interfaces with
    an abstract state; every call to them is recorded in a log, so that
    statements about the order of effects are statements about that log. *)

From Stdlib Require Import ZArith Lia Ascii String DecimalString.
From stdpp Require Import base tactics option list sorting strings gmap.

Local Open Scope Z_scope.

(** ** The parts of the Go library the sources rely on *)

Module Go.

(** [strings.Compare]: -1, 0 or +1 by byte-wise lexicographic order. *)
Definition strings_Compare (a b : string) : Z :=
  match String.compare a b with
  | Lt => -1
  | Eq => 0
  | Gt => 1
  end.

(** [cmp.Compare] at type [string] orders by [<] on strings, which is the
    same byte-wise order. *)
Definition cmp_Compare (a b : string) : Z := strings_Compare a b.

(** The operators [<] and [>] on strings. *)
Definition string_lt (a b : string) : bool := String.ltb a b.
Definition string_gt (a b : string) : bool := String.ltb b a.

(** [sort.Slice] and [slices.SortFunc].  The library promises a
    permutation that is ordered by the comparison function and nothing
    about the relative order of elements that compare equal.  The model
    is the insertion sort both functions run on slices of at most twelve
    elements; every lemma about the sorted result below only uses the
    promised contract ([not_after] and [Permutation]). *)
Section Sort.
Context {A : Type} (less : A -> A -> bool).

Fixpoint insert_sorted (x : A) (l : list A) : list A :=
  match l with
  | [] => [x]
  | y :: l' => if less x y then x :: y :: l' else y :: insert_sorted x l'
  end.

Definition sort_Slice (l : list A) : list A :=
  fold_left (fun acc x => insert_sorted x acc) l [].
End Sort.

(** [a] may stand before [b] in a slice ordered by [less]: [b] is not less
    than [a]. *)
Definition not_after {A : Type} (less : A -> A -> bool) (a b : A) : Prop :=
  less b a = false.

Definition slices_SortFunc {A : Type} (cmp : A -> A -> Z) (l : list A) : list A :=
  sort_Slice (fun a b => cmp a b <? 0) l.

(** [fmt.Sprintf("%d", n)] for a non-negative [n]. *)
Definition itoa (n : nat) : string := NilEmpty.string_of_uint (Nat.to_uint n).

End Go.

(** The records of package [storage] that [insert.go] reads.  Timestamps
    and enumerations are passed to the database as they are; only their
    identity matters here. *)
Module Storage.
Module InputFile.
Record t := Build { Path : string; Digest : string }.
End InputFile.
Module InputString.
Record t := Build { String : string; Digest : string }.
End InputString.
Module InputEnvVar.
Record t := Build { Name : string; Digest : string }.
End InputEnvVar.
Module InputTaskInfo.
Record t := Build { Name : string; Digest : string }.
End InputTaskInfo.

Module Upload.
Record t := Build {
  URI : string; Method : string;
  UploadStartTimestamp : Z; UploadStopTimestamp : Z }.
End Upload.

Module Output.
Record t := Build {
  Name : string; Type_ : string; Digest : string; SizeBytes : Z;
  Uploads : list Upload.t }.
End Output.

Module Inputs.
Record t := Build {
  Files : list InputFile.t;
  Strings : list InputString.t;
  EnvironmentVariables : list InputEnvVar.t;
  TaskInfo : list InputTaskInfo.t }.
End Inputs.

Module TaskRunFull.
Record t := Build {
  ApplicationName : string; TaskName : string;
  VCSRevision : string; VCSIsDirty : bool;
  TotalInputDigest : string;
  StartTimestamp : Z; StopTimestamp : Z;
  Result : string;
  Inputs : Inputs.t;
  Outputs : list Output.t }.
End TaskRunFull.
End Storage.

Module Postgres.
Import Go Storage.

(** A value passed as a statement argument (Go's [any]). *)
Inductive arg : Type :=
  | AString (s : string)
  | AInt (n : Z)
  | ABool (b : bool)
  | ATime (t : Z)
  | ABytes (data : option (list ascii)).

(** [*pgconn.PgError], reduced to the fields the code inspects. *)
Record PgError := { Code : string; ConstraintName : string }.

(** An error value produced by the driver or by an [io.Reader]:
    a [*pgconn.PgError], some other error, or an error wrapping another. *)
Inductive drvError : Type :=
  | DrvPg (e : PgError)
  | DrvOther (msg : string)
  | DrvWrap (msg : string) (cause : drvError).

(** [errors.As(err, &pgErr)] with [pgErr : *pgconn.PgError]: the first
    [PgError] on the chain of wrapped errors. *)
Fixpoint errors_As_PgError (err : drvError) : option PgError :=
  match err with
  | DrvPg e => Some e
  | DrvOther _ => None
  | DrvWrap _ cause => errors_As_PgError cause
  end.

(** The errors the functions of this file return; [fmt.Errorf] is given by
    its format and the error it wraps. *)
Inductive error : Type :=
  | ErrExists                                   (* storage.ErrExists *)
  | errors_New (msg : string)
  | fmt_Errorf_drv (msg : string) (cause : drvError)
  | fmt_Errorf (msg : string) (cause : error)
  | newQueryError (query : string) (cause : drvError) (args : list arg).

(** The rows a query returns, as [scanIDs] consumes them: the outcome of
    [rows.Scan] for each row in turn, and the final [rows.Err()]. *)
Record Rows := { rows_Scan : list (drvError + Z); rows_Err : option drvError }.

Inductive method := MQuery | MQueryRow | MExec.
Record statement := Statement { st_method : method; st_sql : string; st_args : list arg }.

(** The interface [dbConn] ([pgx.Tx] and the pool implement it), over an
    abstract database state. *)
Class dbConn (DB : Type) := {
  conn_Query : DB -> string -> list arg -> DB * (drvError + Rows);
  conn_QueryRow : DB -> string -> list arg -> DB * (drvError + Z);
  conn_Exec : DB -> string -> list arg -> DB * option drvError }.

(** What a caller holds: the database and the log of the statements that
    were sent to it, oldest first. *)
Record session (DB : Type) := Session { log : list statement; db : DB }.
Arguments Session {DB} _ _.
Arguments log {DB} _.
Arguments db {DB} _.

Definition M (DB E A : Type) : Type := session DB -> session DB * (E + A).

Definition ret {DB E A} (a : A) : M DB E A := fun s => (s, inr a).
Definition fail {DB E A} (e : E) : M DB E A := fun s => (s, inl e).
Definition bind {DB E A B} (m : M DB E A) (k : A -> M DB E B) : M DB E B :=
  fun s => match m s with
           | (s', inl e) => (s', inl e)
           | (s', inr a) => k a s'
           end.

(** [if err != nil { return wrap(err) }] *)
Definition on_error {DB E E' A} (wrap : E -> E') (m : M DB E A) : M DB E' A :=
  fun s => match m s with
           | (s', inl e) => (s', inl (wrap e))
           | (s', inr a) => (s', inr a)
           end.

Notation "'let*' x ':=' m 'in' k" := (bind m (fun x => k))
  (at level 10, x pattern, m at level 100, k at level 200).

Section Conn.
Context {DB : Type} `{dbConn DB}.

Definition Query (sql : string) (args : list arg) : M DB drvError Rows :=
  fun s => let (d, r) := conn_Query (db s) sql args in
           (Session (log s ++ [Statement MQuery sql args]) d, r).

Definition QueryRow (sql : string) (args : list arg) : M DB drvError Z :=
  fun s => let (d, r) := conn_QueryRow (db s) sql args in
           (Session (log s ++ [Statement MQueryRow sql args]) d, r).

Definition Exec (sql : string) (args : list arg) : M DB drvError unit :=
  fun s => let (d, r) := conn_Exec (db s) sql args in
           (Session (log s ++ [Statement MExec sql args]) d,
            match r with Some e => inl e | None => inr tt end).

(** [BeginFunc] of pgx: run [f] in a transaction; when [f] fails the
    transaction is rolled back and the database is as it was before,
    otherwise it is committed.  The statements stay in the log either way.
    Beginning, committing and rolling back do not fail here. *)
Definition BeginFunc {E A} (f : M DB E A) : M DB E A :=
  fun s => match f s with
           | (s', inl e) => (Session (log s') (db s), inl e)
           | (s', inr a) => (s', inr a)
           end.
End Conn.

(** *** Statement text *)

(** [strArgList]; [fmt_v] is the text that the verb [%v] of package [fmt]
    gives for an argument. *)
Definition strArgList (fmt_v : arg -> string) (args : list arg) : string :=
  let result := "[" in
  let result :=
    fold_left (fun result '(i, a) =>
      let result := result +:+ "'" +:+ fmt_v a +:+ "'" in
      if Z.of_nat i <? Z.of_nat (length args) - 1 then result +:+ ", " else result)
      (zip (seq 0 (length args)) args) result in
  result +:+ "]".

(** [queryValueStr]: [pairsCount] groups "($n, $n+1, ...)" of [argsPerPair]
    parameters each. *)
Definition queryValueStr (pairsCount argsPerPair : nat) : string :=
  fst (fold_left (fun '(res, argNr) i =>
    let res := if (0 <? i)%nat then res +:+ " " else res in
    let res := res +:+ "(" in
    let '(res, argNr) :=
      fold_left (fun '(res, argNr) j =>
        let res := res +:+ "$" +:+ itoa argNr in
        let argNr := S argNr in
        let res := if Z.of_nat j <? Z.of_nat argsPerPair - 1
                   then res +:+ ", " else res in
        (res, argNr)) (seq 0 argsPerPair) (res, argNr) in
    let res := res +:+ ")" in
    let res := if Z.of_nat i <? Z.of_nat pairsCount - 1 then res +:+ ", " else res in
    (res, argNr)) (seq 0 pairsCount) ("", 1%nat)).

(** [queryValuePairFirstConstStr]: "($1, $2), ($1, $3), ..." *)
Definition queryValuePairFirstConstStr (pairsCount : nat) : string :=
  fst (fold_left (fun '(res, argNr) i =>
    let res := res +:+ "($1, $" +:+ itoa argNr +:+ ")" in
    let argNr := S argNr in
    let res := if Z.of_nat i <? Z.of_nat pairsCount - 1 then res +:+ ", " else res in
    (res, argNr)) (seq 0 pairsCount) ("", 2%nat)).

(** [scanIDs]: append the id of every row to [res]; stop at the first row
    that does not scan. *)
Fixpoint scanIDs_rows (scans : list (drvError + Z)) (final : option drvError)
    (res : list Z) : list Z * option drvError :=
  match scans with
  | [] => (res, final)
  | inl err :: _ => (res, Some err)
  | inr id :: rest => scanIDs_rows rest final (res ++ [id])
  end.

Definition scanIDs (rows : Rows) (res : list Z) : list Z * option drvError :=
  scanIDs_rows (rows_Scan rows) (rows_Err rows) res.

(** *** Ordering the rows before a bulk insert *)

(** [clonedSortedInputfiles] returns a shallow-copied sorted variant of
    inputs. *)
Definition clonedSortedInputfiles (inputs : list InputFile.t) : list InputFile.t :=
  let inputs := [] ++ inputs in
  sort_Slice (fun a b =>
    match strings_Compare (InputFile.Path a) (InputFile.Path b) with
    | -1 => true
    | 1 => false
    | _ => strings_Compare (InputFile.Digest a) (InputFile.Digest b) =? -1
    end) inputs.

(** [clonedSortedInputStrings] returns a shallow-copied sorted variant of
    inputs. *)
Definition clonedSortedInputStrings (inputs : list InputString.t) : list InputString.t :=
  let inputs := [] ++ inputs in
  sort_Slice (fun a b =>
    match strings_Compare (InputString.String a) (InputString.String b) with
    | -1 => true
    | 1 => false
    | _ => strings_Compare (InputString.Digest a) (InputString.Digest b) =? -1
    end) inputs.

Definition clonedSortedInputTasks (result : list InputTaskInfo.t) : list InputTaskInfo.t :=
  let result := [] ++ result in
  slices_SortFunc (fun a b =>
    let res := cmp_Compare (InputTaskInfo.Name a) (InputTaskInfo.Name b) in
    if negb (res =? 0) then res
    else cmp_Compare (InputTaskInfo.Digest a) (InputTaskInfo.Digest b)) result.

Definition clonedSortedInputEnvVars (inputs : list InputEnvVar.t) : list InputEnvVar.t :=
  let inputs := [] ++ inputs in
  sort_Slice (fun a b =>
    if string_lt (InputEnvVar.Name a) (InputEnvVar.Name b) then true
    else if string_gt (InputEnvVar.Name a) (InputEnvVar.Name b) then false
    else string_lt (InputEnvVar.Digest a) (InputEnvVar.Digest b)) inputs.

(** *** The statements

    The SQL text is the source's with every run of white space written as
    one blank and without the white space at its start. *)

(** An [io.Reader], as [io.ReadAll] sees it. *)
Record io_Reader := { io_ReadAll : drvError + list ascii }.

(** [if metadata != nil { data, err = io.ReadAll(metadata) }] in
    [insertRelease]; [data] stays nil without a reader. *)
Definition readMetadata (metadata : option io_Reader) : drvError + option (list ascii) :=
  match metadata with
  | Some r =>
      match io_ReadAll r with
      | inl err => inl err
      | inr data => inr (Some data)
      end
  | None => inr None
  end.

Definition insertRelease_query : string :=
  "INSERT INTO release (name, created_at, metadata) VALUES($1, $2, $3) RETURNING id".

Definition insertReleaseTaskRun_stmt1 : string :=
  "INSERT INTO release_task_run (release_id, task_run_id) VALUES".

Section Insert.
Context {DB : Type} `{dbConn DB}.

Definition insertAppIfNotExist (appName : string) : M DB error Z :=
  let query := "INSERT INTO application (name) VALUES ($1) ON CONFLICT ON CONSTRAINT application_name_uniq DO UPDATE SET id=application.id RETURNING id" in
  on_error (fun err => newQueryError query err [AString appName])
    (QueryRow query [AString appName]).

Definition insertTaskIfNotExist (appName taskName : string) : M DB error Z :=
  let* appID := insertAppIfNotExist appName in
  let query := "INSERT INTO task (name, application_id) VALUES ($1, $2) ON CONFLICT ON CONSTRAINT task_name_application_id_uniq DO UPDATE SET id=task.id RETURNING id" in
  on_error (fun err => newQueryError query err [AString appName; AString taskName])
    (QueryRow query [AString taskName; AInt appID]).

Definition insertVCSIfNotExist (revision : string) (isDirty : bool) : M DB error Z :=
  let query := "INSERT INTO vcs (revision, dirty) VALUES ($1, $2) ON CONFLICT ON CONSTRAINT vcs_revision_dirty_uniq DO UPDATE SET id=vcs.id RETURNING id" in
  on_error (fun err => newQueryError query err [AString revision; ABool isDirty])
    (QueryRow query [AString revision; ABool isDirty]).

(** The common tail of the bulk upserts: send the statement, collect the
    returned ids. *)
Definition queryIDs (query : string) (queryArgs : list arg) : M DB error (list Z) :=
  let* rows := on_error (fun err => newQueryError query err queryArgs)
                 (Query query queryArgs) in
  match scanIDs rows [] with
  | (_, Some err) => fail (newQueryError query err queryArgs)
  | (ids, None) => ret ids
  end.

Definition insertInputFilesIfNotExist (inputs : list InputFile.t) : M DB error (list Z) :=
  let stmt1 := "INSERT INTO input_file (path, digest) VALUES " in
  let stmt2 := "ON CONFLICT ON CONSTRAINT input_file_path_digest_uniq DO UPDATE SET id=input_file.id RETURNING id" in
  let inputs := clonedSortedInputfiles inputs in
  let stmtVals := queryValueStr (length inputs) 2 in
  let queryArgs := fold_left (fun queryArgs in_ =>
      queryArgs ++ [AString (InputFile.Path in_); AString (InputFile.Digest in_)])
    inputs [] in
  let query := stmt1 +:+ stmtVals +:+ " " +:+ stmt2 in
  queryIDs query queryArgs.

Definition insertInputStringsIfNotExist (inputs : list InputString.t) : M DB error (list Z) :=
  let stmt1 := "INSERT INTO input_string (string, digest) VALUES " in
  let stmt2 := "ON CONFLICT ON CONSTRAINT input_string_digest_uniq DO UPDATE SET id=input_string.id RETURNING id" in
  let inputs := clonedSortedInputStrings inputs in
  let stmtVals := queryValueStr (length inputs) 2 in
  let queryArgs := fold_left (fun queryArgs in_ =>
      queryArgs ++ [AString (InputString.String in_); AString (InputString.Digest in_)])
    inputs [] in
  let query := stmt1 +:+ stmtVals +:+ " " +:+ stmt2 in
  queryIDs query queryArgs.

Definition insertInputTaskIfNotExist (inputs : list InputTaskInfo.t) : M DB error (list Z) :=
  let stmt1 := "INSERT INTO input_task (name, digest) VALUES " in
  let stmt2 := "ON CONFLICT ON CONSTRAINT input_task_name_digest_uniq DO UPDATE SET id=input_task.id RETURNING id" in
  let inputs := clonedSortedInputTasks inputs in
  let stmtVals := queryValueStr (length inputs) 2 in
  let queryArgs := fold_left (fun queryArgs in_ =>
      queryArgs ++ [AString (InputTaskInfo.Name in_); AString (InputTaskInfo.Digest in_)])
    inputs [] in
  let query := stmt1 +:+ stmtVals +:+ " " +:+ stmt2 in
  queryIDs query queryArgs.

Definition insertInputEnVarsIfNotExist (inputs : list InputEnvVar.t) : M DB error (list Z) :=
  let stmt1 := "INSERT INTO input_env_var (name, digest) VALUES " in
  let stmt2 := "ON CONFLICT ON CONSTRAINT input_env_var_name_digest_uniq DO UPDATE SET id=input_env_var.id RETURNING id" in
  let inputs := clonedSortedInputEnvVars inputs in
  let stmtVals := queryValueStr (length inputs) 2 in
  let queryArgs := fold_left (fun queryArgs in_ =>
      queryArgs ++ [AString (InputEnvVar.Name in_); AString (InputEnvVar.Digest in_)])
    inputs [] in
  let query := stmt1 +:+ stmtVals +:+ " " +:+ stmt2 in
  queryIDs query queryArgs.

(** The common tail of the four junction-table inserts: bind every id of
    [inputIDs] to [taskRunID]. *)
Definition execPairs (stmt1 : string) (stmtVals : string) (taskRunID : Z)
    (inputIDs : list Z) : M DB error unit :=
  let query := stmt1 +:+ stmtVals in
  let queryArgs := fold_left (fun queryArgs inputID => queryArgs ++ [AInt inputID])
                     inputIDs [AInt taskRunID] in
  on_error (fun err => newQueryError query err queryArgs) (Exec query queryArgs).

Definition insertTaskRunInputStringsIfNotExist (taskRunID : Z)
    (inputStrings : list InputString.t) : M DB error unit :=
  let stmt1 := "INSERT INTO task_run_string_input (task_run_id, input_string_id) VALUES " in
  if (length inputStrings =? 0)%nat then ret tt else
  let* inputStringIDs := insertInputStringsIfNotExist inputStrings in
  let stmtVals := queryValuePairFirstConstStr (length inputStringIDs) in
  execPairs stmt1 stmtVals taskRunID inputStringIDs.

(** In the next three functions the source writes the loop of
    [queryValuePairFirstConstStr] out in place. *)
Definition insertTaskRunInputFilesIfNotExist (taskRunID : Z)
    (inputFiles : list InputFile.t) : M DB error unit :=
  let stmt1 := "INSERT INTO task_run_file_input (task_run_id, input_file_id) VALUES " in
  if (length inputFiles =? 0)%nat then ret tt else
  let* inputIDs := insertInputFilesIfNotExist inputFiles in
  let stmtVals := queryValuePairFirstConstStr (length inputIDs) in
  execPairs stmt1 stmtVals taskRunID inputIDs.

Definition insertTaskRunInputTasksIfNotExist (taskRunID : Z)
    (inputs : list InputTaskInfo.t) : M DB error unit :=
  let stmt1 := "INSERT INTO task_run_task_input (task_run_id, input_task_id) VALUES " in
  if (length inputs =? 0)%nat then ret tt else
  let* inputIDs := insertInputTaskIfNotExist inputs in
  let stmtVals := queryValuePairFirstConstStr (length inputIDs) in
  execPairs stmt1 stmtVals taskRunID inputIDs.

Definition insertTaskRunInputEnvVarsIfNotExist (taskRunID : Z)
    (inputEnvVars : list InputEnvVar.t) : M DB error unit :=
  let stmt1 := "INSERT INTO task_run_env_var_input (task_run_id, input_env_var_id) VALUES " in
  if (length inputEnvVars =? 0)%nat then ret tt else
  let* inputIDs := insertInputEnVarsIfNotExist inputEnvVars in
  let stmtVals := queryValuePairFirstConstStr (length inputIDs) in
  execPairs stmt1 stmtVals taskRunID inputIDs.

Definition insertUploads (uploads : list Upload.t) : M DB error (list Z) :=
  let stmt1 := "INSERT into upload (uri, method, start_timestamp, stop_timestamp) VALUES" in
  let stmt2 := "RETURNING id" in
  let stmtVals := queryValueStr (length uploads) 4 in
  let queryArgs := fold_left (fun queryArgs upload =>
      queryArgs ++ [AString (Upload.URI upload); AString (Upload.Method upload);
                    ATime (Upload.UploadStartTimestamp upload);
                    ATime (Upload.UploadStopTimestamp upload)])
    uploads [] in
  let query := stmt1 +:+ stmtVals +:+ " " +:+ stmt2 in
  queryIDs query queryArgs.

Definition insertOutputIfNotExist (output : Output.t) : M DB error Z :=
  let query := "INSERT INTO output (name, type, digest, size_bytes) VALUES($1, $2, $3, $4) ON CONFLICT ON CONSTRAINT output_name_type_digest_size_bytes_uniq DO UPDATE SET id=output.id RETURNING id" in
  let queryArgs := [AString (Output.Name output); AString (Output.Type_ output);
                    AString (Output.Digest output); AInt (Output.SizeBytes output)] in
  on_error (fun err => newQueryError query err queryArgs) (QueryRow query queryArgs).

(** The loop over the outputs in [insertTaskOutputsIfNotExist]; [records]
    collects the (output id, upload id) pairs. *)
Fixpoint insertTaskOutputs_range (outputs : list Output.t) (records : list (Z * Z))
    : M DB error (list (Z * Z)) :=
  match outputs with
  | [] => ret records
  | output :: outputs' =>
      let* outputID := insertOutputIfNotExist output in
      let* uploadIDs := insertUploads (Output.Uploads output) in
      let records := fold_left (fun records uploadID => records ++ [(outputID, uploadID)])
                       uploadIDs records in
      insertTaskOutputs_range outputs' records
  end.

Definition insertTaskOutputsIfNotExist (taskRunID : Z) (outputs : list Output.t)
    : M DB error unit :=
  if (length outputs =? 0)%nat then ret tt else
  let* records := insertTaskOutputs_range outputs [] in
  let stmt1 := "INSERT INTO task_run_output (task_run_id, output_id, upload_id) VALUES" in
  let stmtVals := queryValueStr (length records) 3 in
  let queryArgs := fold_left (fun queryArgs record =>
      queryArgs ++ [AInt taskRunID; AInt (fst record); AInt (snd record)])
    records [] in
  let query := stmt1 +:+ stmtVals in
  on_error (fun err => newQueryError query err queryArgs) (Exec query queryArgs).

Definition saveTaskRun (taskRun : TaskRunFull.t) : M DB error Z :=
  let query := "INSERT INTO task_run (vcs_id, task_id, total_input_digest, start_timestamp, stop_timestamp, result) VALUES($1, $2, $3, $4, $5, $6) RETURNING ID" in
  let* vcsID := on_error (fmt_Errorf "storing vcs record failed: %w")
      (insertVCSIfNotExist (TaskRunFull.VCSRevision taskRun) (TaskRunFull.VCSIsDirty taskRun)) in
  let* taskID := on_error (fmt_Errorf "storing task record failed: %w")
      (insertTaskIfNotExist (TaskRunFull.ApplicationName taskRun) (TaskRunFull.TaskName taskRun)) in
  let queryArgs := [AInt vcsID; AInt taskID;
                    AString (TaskRunFull.TotalInputDigest taskRun);
                    ATime (TaskRunFull.StartTimestamp taskRun);
                    ATime (TaskRunFull.StopTimestamp taskRun);
                    AString (TaskRunFull.Result taskRun)] in
  let* taskRunID := on_error (fun err => newQueryError query err queryArgs)
      (QueryRow query queryArgs) in
  let inputs := TaskRunFull.Inputs taskRun in
  let* _ := insertTaskRunInputStringsIfNotExist taskRunID (Inputs.Strings inputs) in
  let* _ := insertTaskRunInputFilesIfNotExist taskRunID (Inputs.Files inputs) in
  let* _ := insertTaskRunInputEnvVarsIfNotExist taskRunID (Inputs.EnvironmentVariables inputs) in
  let* _ := insertTaskRunInputTasksIfNotExist taskRunID (Inputs.TaskInfo inputs) in
  let* _ := insertTaskOutputsIfNotExist taskRunID (TaskRunFull.Outputs taskRun) in
  ret taskRunID.

(** [SaveTaskRun] returns the id that the function run in the transaction
    stored. *)
Definition SaveTaskRun (taskRun : TaskRunFull.t) : M DB error Z :=
  BeginFunc (saveTaskRun taskRun).

(** *** Releases *)

Definition insertRelease (name : string) (createdAt : Z) (metadata : option io_Reader)
    : M DB error Z :=
  let query := insertRelease_query in
  let* data :=
    match readMetadata metadata with
    | inl err => fail (fmt_Errorf_drv "reading metadata failed: %w" err)
    | inr data => ret data
    end in
  on_error (fun err =>
      let isUniq :=
        match errors_As_PgError err with
        | Some pgErr =>
            String.eqb (Code pgErr) "23505"
            && String.eqb (ConstraintName pgErr) "release_name_uniq"
        | None => false
        end in
      if isUniq then ErrExists
      else match metadata with
           | None => newQueryError query err [AString name]
           | Some _ =>
               newQueryError query err [AString name; AString "<OMITTED-RELEASE-METADATA>"]
           end)
    (QueryRow query [AString name; ATime createdAt; ABytes data]).

Definition insertReleaseTaskRun (releaseID : Z) (taskRunIDs : list Z) : M DB error unit :=
  let stmt1 := insertReleaseTaskRun_stmt1 in
  if (length taskRunIDs =? 0)%nat then fail (errors_New "no task run IDs were specified") else
  let stmtVals := queryValuePairFirstConstStr (length taskRunIDs) in
  execPairs stmt1 stmtVals releaseID taskRunIDs.

Definition CreateRelease (releaseName : string) (createdAt : Z) (taskRunIDs : list Z)
    (metadata : option io_Reader) : M DB error unit :=
  BeginFunc (
    let* releaseID := insertRelease releaseName createdAt metadata in
    insertReleaseTaskRun releaseID taskRunIDs).

End Insert.

(** *** Reading the log *)

(** The statements a computation sends when started in session [s]. *)
Definition issued {DB E A : Type} (m : M DB E A) (s : session DB) : list statement :=
  drop (length (log s)) (log (m s).1).

(** A row of a bulk upsert: the primary attribute and the digest. *)
Definition row : Type := string * string.

Definition row_lt (r1 r2 : row) : Prop :=
  String.compare r1.1 r2.1 = Lt \/ (r1.1 = r2.1 /\ String.compare r1.2 r2.2 = Lt).

(** Ascending by the primary attribute, ties broken by the digest. *)
Definition row_le (r1 r2 : row) : Prop := r1 = r2 \/ row_lt r1 r2.

(** The decision procedure of [row_lt]. *)
Definition row_ltb (r1 r2 : row) : bool :=
  match String.compare r1.1 r2.1 with
  | Lt => true
  | Gt => false
  | Eq => match String.compare r1.2 r2.2 with Lt => true | _ => false end
  end.

(** The argument list that carries [rows], two arguments per row. *)
Definition row_args (rows : list row) : list arg :=
  flat_map (fun r => [AString r.1; AString r.2]) rows.

Definition file_row (f : InputFile.t) : row := (InputFile.Path f, InputFile.Digest f).
Definition string_row (i : InputString.t) : row := (InputString.String i, InputString.Digest i).
Definition envvar_row (e : InputEnvVar.t) : row := (InputEnvVar.Name e, InputEnvVar.Digest e).
Definition task_row (t : InputTaskInfo.t) : row := (InputTaskInfo.Name t, InputTaskInfo.Digest t).

(** A bulk upsert [ins] sends its rows in ascending order, and the order
    [inputs'] came in leaves no trace. *)
Definition sends_sorted_rows {DB A : Type} (key : A -> row)
    (ins : list A -> M DB error (list Z)) (s : session DB) (inputs inputs' : list A) : Prop :=
  (exists sql rows,
     issued (ins inputs) s = [Statement MQuery sql (row_args rows)]
     /\ StronglySorted row_le rows
     /\ rows ≡ₚ map key inputs)
  /\ ins inputs' s = ins inputs s.

(** The error of [insertReleaseTaskRun] for an empty list of task runs. *)
Definition ErrEmptyRelease : error := errors_New "no task run IDs were specified".

(** [err] reports a violation of the constraint [release_name_uniq]. *)
Definition is_release_name_conflict (err : drvError) : Prop :=
  exists pgErr, errors_As_PgError err = Some pgErr
    /\ Code pgErr = "23505" /\ ConstraintName pgErr = "release_name_uniq".

(** *** The release tables *)

(** Modelled from the spec: the tables [release(id, name UNIQUE, created_at,
    metadata)] and [release_task_run(release_id, task_run_id)] of the
    registry schema, which [insert.go] writes to but does not declare.  A
    second row with a name that is taken violates [release_name_uniq]
    (SQLSTATE 23505); statements on other tables are not modelled and are
    rejected. *)
Record ReleaseRow := {
  release_id : Z; release_created_at : Z; release_metadata : option (list ascii) }.

Record Registry := {
  release : gmap string ReleaseRow;
  release_task_run : list (Z * Z);
  release_id_seq : Z }.

Fixpoint int_args (args : list arg) : option (list Z) :=
  match args with
  | [] => Some []
  | AInt n :: args' => match int_args args' with Some l => Some (n :: l) | None => None end
  | _ => None
  end.

Definition Registry_QueryRow (r : Registry) (sql : string) (args : list arg)
    : Registry * (drvError + Z) :=
  if String.eqb sql insertRelease_query then
    match args with
    | [AString name; ATime createdAt; ABytes data] =>
        match release r !! name with
        | Some _ =>
            (r, inl (DrvPg {| Code := "23505"; ConstraintName := "release_name_uniq" |}))
        | None =>
            let id := release_id_seq r in
            ({| release := <[name := {| release_id := id; release_created_at := createdAt;
                                        release_metadata := data |}]> (release r);
                release_task_run := release_task_run r;
                release_id_seq := id + 1 |},
             inr id)
        end
    | _ => (r, inl (DrvOther "wrong arguments"))
    end
  else (r, inl (DrvOther "statement not modelled")).

Definition Registry_Exec (r : Registry) (sql : string) (args : list arg)
    : Registry * option drvError :=
  if String.prefix insertReleaseTaskRun_stmt1 sql then
    match int_args args with
    | Some (releaseID :: taskRunIDs) =>
        ({| release := release r;
            release_task_run := release_task_run r ++ map (pair releaseID) taskRunIDs;
            release_id_seq := release_id_seq r |},
         None)
    | _ => (r, Some (DrvOther "wrong arguments"))
    end
  else (r, Some (DrvOther "statement not modelled")).

#[export] Instance Registry_dbConn : dbConn Registry := {
  conn_Query r _ _ := (r, inl (DrvOther "statement not modelled"));
  conn_QueryRow := Registry_QueryRow;
  conn_Exec := Registry_Exec }.

(** An empty registry, and one that holds the release "v1". *)
Definition Registry_empty : Registry :=
  {| release := ∅; release_task_run := []; release_id_seq := 1 |}.

Definition Registry_v1 : Registry :=
  {| release := {[ "v1" := {| release_id := 1; release_created_at := 0;
                              release_metadata := None |} ]};
     release_task_run := [(1, 7)];
     release_id_seq := 2 |}.

(** *** The VALUES clauses in closed form *)

(** The parameters "$first, ..., $(first + count - 1)". *)
Definition params (first count : nat) : string :=
  String.concat ", " (map (fun n => "$" +:+ itoa n) (seq first count)).

(** Group [i] of a clause with [argsPerPair] parameters in each group. *)
Definition group (argsPerPair i : nat) : string :=
  "(" +:+ params (1 + i * argsPerPair) argsPerPair +:+ ")".

(** "($1, ..., $k),  ($k+1, ..., $2k),  ...": the groups are numbered
    through, and a comma and two blanks stand between them. *)
Definition values_clause (pairsCount argsPerPair : nat) : string :=
  String.concat ",  " (map (group argsPerPair) (seq 0 pairsCount)).

Definition pair_first_const (n : nat) : string := "($1, $" +:+ itoa n +:+ ")".

(** "($1, $2), ($1, $3), ...": the second parameter runs from 2 on. *)
Definition pairs_clause (pairsCount : nat) : string :=
  String.concat ", " (map pair_first_const (seq 2 pairsCount)).

(** "['a', 'b', ...]": the arguments in quotes, separated by a comma and a
    blank. *)
Definition quoted (fmt_v : arg -> string) (a : arg) : string := "'" +:+ fmt_v a +:+ "'".

Definition arg_list (fmt_v : arg -> string) (args : list arg) : string :=
  "[" +:+ String.concat ", " (map (quoted fmt_v) args) +:+ "]".

(** *** How the statements of a computation hang together *)

(** A computation only adds statements to the log. *)
Definition appends_only {DB E A : Type} (m : M DB E A) : Prop :=
  forall s, exists l, log (m s).1 = log s ++ l.

(** The insert into a junction table, [junction], is built on the bulk
    upsert [upsert]: when the upsert fails, so does the junction insert,
    with the same error and in the same session; when the upsert returns
    [ids], one more statement follows, which binds [taskRunID] as [$1] to
    each of the ids in the order they were returned. *)
Definition binds_returned_ids {DB A : Type} (stmt1 : string)
    (upsert : list A -> M DB error (list Z)) (junction : Z -> list A -> M DB error unit)
    (s : session DB) (taskRunID : Z) (inputs : list A) : Prop :=
  match upsert inputs s with
  | (s1, inl err) => junction taskRunID inputs s = (s1, inl err)
  | (s1, inr ids) =>
      issued (junction taskRunID inputs) s
      = issued (upsert inputs) s
        ++ [Statement MExec (stmt1 +:+ pairs_clause (length ids))
              (AInt taskRunID :: map AInt ids)]
  end.

(** The statements of the upserts that return one id. *)
Definition insertVCSIfNotExist_query : string :=
  "INSERT INTO vcs (revision, dirty) VALUES ($1, $2) ON CONFLICT ON CONSTRAINT vcs_revision_dirty_uniq DO UPDATE SET id=vcs.id RETURNING id".

Definition insertAppIfNotExist_query : string :=
  "INSERT INTO application (name) VALUES ($1) ON CONFLICT ON CONSTRAINT application_name_uniq DO UPDATE SET id=application.id RETURNING id".

Definition insertTaskIfNotExist_query : string :=
  "INSERT INTO task (name, application_id) VALUES ($1, $2) ON CONFLICT ON CONSTRAINT task_name_application_id_uniq DO UPDATE SET id=task.id RETURNING id".

Definition saveTaskRun_query : string :=
  "INSERT INTO task_run (vcs_id, task_id, total_input_digest, start_timestamp, stop_timestamp, result) VALUES($1, $2, $3, $4, $5, $6) RETURNING ID".

Definition insertOutputIfNotExist_query : string :=
  "INSERT INTO output (name, type, digest, size_bytes) VALUES($1, $2, $3, $4) ON CONFLICT ON CONSTRAINT output_name_type_digest_size_bytes_uniq DO UPDATE SET id=output.id RETURNING id".

(** *** A database to run examples on

    It accepts every statement and hands out ids in sequence: its state is
    the next id; a bulk insert returns one id for each row (four arguments
    to the row for uploads, two otherwise). *)
Definition Serial_Query (next : Z) (sql : string) (args : list arg) : Z * (drvError + Rows) :=
  let argsPerRow := if String.prefix "INSERT into upload" sql then 4%nat else 2%nat in
  let n := (length args / argsPerRow)%nat in
  (next + Z.of_nat n,
   inr {| rows_Scan := map (fun i => inr (next + Z.of_nat i)) (seq 0 n); rows_Err := None |}).

#[export] Instance Serial_dbConn : dbConn Z := {
  conn_Query := Serial_Query;
  conn_QueryRow next _ _ := (next + 1, inr next);
  conn_Exec next _ _ := (next, None) }.

Definition TaskRunFull_example : TaskRunFull.t :=
  TaskRunFull.Build "shop" "build" "1a2b3c" false "sha384:aa" 100 160 "success"
    (Inputs.Build [InputFile.Build "b.go" "sha384:02"; InputFile.Build "a.go" "sha384:01"]
       [] [InputEnvVar.Build "GOFLAGS" "sha384:03"] [])
    [Output.Build "shop.tar" "file" "sha384:0f" 2048
       [Upload.Build "s3://bucket/shop.tar" "s3" 150 155];
     Output.Build "shop.log" "file" "sha384:0e" 12 []].

End Postgres.

(** ** The Landlock driver: [internal/landlock] *)

Module Landlock.

Definition LANDLOCK_ACCESS_FS_READ_FILE : Z := 0x4.
Definition LANDLOCK_ACCESS_FS_READ_DIR : Z := 0x8.
Definition LANDLOCK_ACCESS_FS_REMOVE_DIR : Z := 0x10.
Definition LANDLOCK_ACCESS_FS_REMOVE_FILE : Z := 0x20.
Definition LANDLOCK_ACCESS_FS_MAKE_CHAR : Z := 0x40.
Definition LANDLOCK_ACCESS_FS_MAKE_DIR : Z := 0x80.
Definition LANDLOCK_ACCESS_FS_MAKE_REG : Z := 0x100.
Definition LANDLOCK_ACCESS_FS_MAKE_SOCK : Z := 0x200.
Definition LANDLOCK_ACCESS_FS_MAKE_FIFO : Z := 0x400.
Definition LANDLOCK_ACCESS_FS_MAKE_BLOCK : Z := 0x800.
Definition LANDLOCK_ACCESS_FS_MAKE_SYM : Z := 0x1000.
Definition LANDLOCK_ACCESS_FS_REFER : Z := 0x2000.
Definition LANDLOCK_CREATE_RULESET_VERSION : Z := 0x1.
Definition LANDLOCK_RULE_PATH_BENEATH : Z := 0x1.
Definition SYS_LANDLOCK_CREATE_RULESET : Z := 444.
Definition SYS_LANDLOCK_ADD_RULE : Z := 445.
Definition SYS_LANDLOCK_RESTRICT_SELF : Z := 446.
Definition PR_SET_NO_NEW_PRIVS : Z := 0x26.
Definition O_PATH : Z := 0x200000.
Definition O_CLOEXEC : Z := 0x80000.
Definition ENOSYS : Z := 0x26.
Definition EOPNOTSUPP : Z := 0x5f.


(** Error values: the two sentinels of the package, a [syscall.Errno], an
    error of the [os] package, and [fmt.Errorf(format, args..., err)] with
    its format, the arguments before the wrapped error, and that error. *)
Inductive error : Type :=
  | ErrLandlockDisabled
  | ErrLandLockNotSupported
  | Errno (e : Z)
  | PathError (op path : string) (e : Z)
  | fmt_Errorf (format : string) (args : list string) (cause : error).

(** An argument of a raw system call: a word, or a pointer to one of the
    two attribute structures, given by the structure's contents. *)
Inductive uintptr : Type :=
  | Word (w : Z)
  | PtrRulesetAttr (Access_fs : Z)
  | PtrPathBeneathAttr (Allowed_access : Z) (Parent_fd : Z).

(** The calls into the operating system, and what they answered. *)
Inductive call : Type :=
  | Syscall (trap : Z) (a1 a2 a3 : uintptr)
  | Syscall6 (trap : Z) (a1 a2 a3 a4 a5 a6 : uintptr)
  | IsDir (path : string)
  | Open (path : string) (mode : Z) (perm : Z)
  | Close (fd : Z)
  | Prctl (opt arg2 arg3 arg4 arg5 : Z)
  | Chdir (dir : string)
  | ExecImage (argv0 : string) (argv envv : list string).

Inductive reply : Type :=
  | RSyscall (r1 r2 : Z) (errno : Z)
  | RIsDir (isDir : bool) (err : option error)
  | ROpen (fd : Z) (err : option error)
  | RErr (err : option error).

(** The operating system, over an abstract state.  [os_Exec] answers [None]
    when the process image was replaced: the call does not return then. *)
Class OS (W : Type) := {
  os_Syscall : W -> Z -> uintptr -> uintptr -> uintptr -> W * (Z * Z * Z);
  os_Syscall6 : W -> Z -> uintptr -> uintptr -> uintptr -> uintptr -> uintptr -> uintptr
                -> W * (Z * Z * Z);
  os_IsDir : W -> string -> W * (bool * option error);
  os_Open : W -> string -> Z -> Z -> W * (Z * option error);
  os_Close : W -> Z -> W * option error;
  os_Prctl : W -> Z -> Z -> Z -> Z -> Z -> W * option error;
  os_Chdir : W -> string -> W * option error;
  os_Exec : W -> string -> list string -> list string -> W * option error }.

(** A process: the calls it has made with their answers, oldest first, and
    the state of the system. *)
Record process (W : Type) := Process { trace : list (call * reply); world : W }.
Arguments Process {W} _ _.
Arguments trace {W} _.
Arguments world {W} _.

(** [int(r)] and [int32(f)]: two's complement. *)
Definition int (r : Z) : Z :=
  let r := r mod 2 ^ 64 in if r <? 2 ^ 63 then r else r - 2 ^ 64.
Definition int32 (f : Z) : Z :=
  let f := f mod 2 ^ 32 in if f <? 2 ^ 31 then f else f - 2 ^ 32.

(** version is the landlock API version that the package uses *)
Definition version : Z := 0.

(** [errors.Is(err, target)] for two [syscall.Errno]: equality
    ([Errno.Is] only knows the sentinels of package [os]). *)
Definition errors_Is (err target : Z) : bool := err =? target.

(** errnoToError converts an Errno Code to a Go error. *)
Definition errnoToError (err : Z) : option error :=
  if negb (err =? 0) then
    if errors_Is err EOPNOTSUPP then Some ErrLandlockDisabled
    else if errors_Is err ENOSYS then Some ErrLandLockNotSupported
    else Some (Errno err)
  else None.

(** FSRuleset restricts read and/or write access to filesystem paths. *)
Record FSRuleset := { filedescriptor : Z }.

(** fsRights are the landlock operations that are denied/allowed *)
Definition fsRights : Z :=
  Z.lor LANDLOCK_ACCESS_FS_READ_DIR LANDLOCK_ACCESS_FS_READ_FILE.

(** fileRights are all landlock access rights that are applied to files,
    these are all except the directory specific ones. *)
Definition fileRights : Z :=
  Z.ldiff fsRights
    (Z.lor LANDLOCK_ACCESS_FS_MAKE_DIR
       (Z.lor LANDLOCK_ACCESS_FS_READ_DIR LANDLOCK_ACCESS_FS_REMOVE_DIR)).

Section Driver.
Context {W : Type} `{OS W}.

Definition record (p : process W) (c : call) (r : reply) (w : W) : process W :=
  Process (trace p ++ [(c, r)]) w.

Definition unix_Syscall (trap : Z) (a1 a2 a3 : uintptr) (p : process W)
    : process W * (Z * Z * Z) :=
  let '(w, (r1, r2, err)) := os_Syscall (world p) trap a1 a2 a3 in
  (record p (Syscall trap a1 a2 a3) (RSyscall r1 r2 err) w, (r1, r2, err)).

Definition unix_Syscall6 (trap : Z) (a1 a2 a3 a4 a5 a6 : uintptr) (p : process W)
    : process W * (Z * Z * Z) :=
  let '(w, (r1, r2, err)) := os_Syscall6 (world p) trap a1 a2 a3 a4 a5 a6 in
  (record p (Syscall6 trap a1 a2 a3 a4 a5 a6) (RSyscall r1 r2 err) w, (r1, r2, err)).

Definition fs_IsDir (path : string) (p : process W) : process W * (bool * option error) :=
  let '(w, (isDir, err)) := os_IsDir (world p) path in
  (record p (IsDir path) (RIsDir isDir err) w, (isDir, err)).

Definition syscall_Open (path : string) (mode perm : Z) (p : process W)
    : process W * (Z * option error) :=
  let '(w, (fd, err)) := os_Open (world p) path mode perm in
  (record p (Open path mode perm) (ROpen fd err) w, (fd, err)).

Definition syscall_Close (fd : Z) (p : process W) : process W * option error :=
  let '(w, err) := os_Close (world p) fd in
  (record p (Close fd) (RErr err) w, err).

Definition unix_Prctl (opt arg2 arg3 arg4 arg5 : Z) (p : process W)
    : process W * option error :=
  let '(w, err) := os_Prctl (world p) opt arg2 arg3 arg4 arg5 in
  (record p (Prctl opt arg2 arg3 arg4 arg5) (RErr err) w, err).

Definition os_Chdir_ (dir : string) (p : process W) : process W * option error :=
  let '(w, err) := os_Chdir (world p) dir in
  (record p (Chdir dir) (RErr err) w, err).

Definition syscall_Exec (argv0 : string) (argv envv : list string) (p : process W)
    : process W * option error :=
  let '(w, err) := os_Exec (world p) argv0 argv envv in
  (record p (ExecImage argv0 argv envv) (RErr err) w, err).

(** Version returns the landlock version supported by the kernel.  If
    landlock is not supported ErrLandlockDisabled or
    ErrLandLockNotSupported is returned.  (The source passes the flag
    [LANDLOCK_CREATE_RULESET_VERSION] where the number of the system call
    goes, and so does the model.) *)
Definition Version (p : process W) : process W * (Z * option error) :=
  let '(p, (r, _, err)) :=
    unix_Syscall LANDLOCK_CREATE_RULESET_VERSION (Word 0) (Word 0) (Word 0) p in
  if negb (err =? 0) then (p, (-1, errnoToError err))
  else (p, (int r, None)).

Definition NewFSRuleset (p : process W) : process W * (option FSRuleset * option error) :=
  let rulesetAttrSize := 24 in
  let '(p, (r, _, err)) :=
    unix_Syscall SYS_LANDLOCK_CREATE_RULESET (PtrRulesetAttr fsRights)
      (Word rulesetAttrSize) (Word version) p in
  if negb (err =? 0) then (p, (None, errnoToError err))
  else (p, (Some {| filedescriptor := r |}, None)).

Definition accessRights (path : string) (p : process W) : process W * (Z * option error) :=
  let '(p, (isDir, err)) := fs_IsDir path p in
  match err with
  | Some e => (p, (0, Some e))
  | None => if isDir then (p, (fsRights, None)) else (p, (fileRights, None))
  end.

(** Allow adds a rule to allow access to the given file or directory.  If
    path is a directory, rights are applied to all directories and paths
    beneath it. *)
Definition Allow (rs : FSRuleset) (path : string) (p : process W)
    : process W * option error :=
  let '(p, (perms, err)) := accessRights path p in
  match err with
  | Some e => (p, Some e)
  | None =>
      let '(p, (f, err)) := syscall_Open path (Z.lor O_PATH O_CLOEXEC) 0 p in
      match err with
      | Some e => (p, Some e)
      | None =>
          let '(p, (_, _, sysErr)) :=
            unix_Syscall6 SYS_LANDLOCK_ADD_RULE (Word (filedescriptor rs))
              (Word LANDLOCK_RULE_PATH_BENEATH)
              (PtrPathBeneathAttr perms (int32 f))
              (Word 0) (Word 0) (Word 0) p in
          let result := if negb (sysErr =? 0) then errnoToError sysErr else None in
          (* defer syscall.Close(f) *)
          let '(p, _) := syscall_Close f p in
          (p, result)
      end
  end.

(** Restrict limits the calling process to the operations allowed by the
    ruleset. *)
Definition Restrict (rs : FSRuleset) (p : process W) : process W * option error :=
  let '(p, err) := unix_Prctl PR_SET_NO_NEW_PRIVS 1 0 0 0 p in
  match err with
  | Some e => (p, Some (fmt_Errorf "prctl failed: %w" [] e))
  | None =>
      let '(p, (_, _, sysErr)) :=
        unix_Syscall SYS_LANDLOCK_RESTRICT_SELF (Word (filedescriptor rs))
          (Word 0) (Word 0) p in
      (p, errnoToError sysErr)
  end.

End Driver.

(** *** Reading the trace *)

Definition entry : Type := call * reply.

(** The calls made by a step that started in [p] and ended in [p']. *)
Definition calls_between {W : Type} (p p' : process W) : list entry :=
  drop (length (trace p)) (trace p').

(** The calls of [Allow rs path] when none of them fails, for a path that
    is a directory or not and is opened as descriptor [f]. *)
Definition Allow_calls (rs : FSRuleset) (path : string) (isDir : bool) (f : Z) : list call :=
  [IsDir path;
   Open path (Z.lor O_PATH O_CLOEXEC) 0;
   Syscall6 SYS_LANDLOCK_ADD_RULE (Word (filedescriptor rs))
     (Word LANDLOCK_RULE_PATH_BENEATH)
     (PtrPathBeneathAttr (if isDir then fsRights else fileRights) (int32 f))
     (Word 0) (Word 0) (Word 0);
   Close f].

(** *** A system to run examples on

    The three Landlock system calls answer [landlock_errno] when it is not
    zero; any other system call (a write of no bytes, for one) answers 0;
    paths exist when they are listed. *)
Record Linux := {
  landlock_errno : Z;
  directories : list string;
  regular_files : list string;
  next_fd : Z }.

Definition Linux_exists (w : Linux) (path : string) : bool :=
  bool_decide (path ∈ directories w) || bool_decide (path ∈ regular_files w).

Definition Linux_landlock (w : Linux) (trap : Z) : Linux * (Z * Z * Z) :=
  if negb (bool_decide (trap ∈ [SYS_LANDLOCK_CREATE_RULESET; SYS_LANDLOCK_ADD_RULE;
                                SYS_LANDLOCK_RESTRICT_SELF]))
  then (w, (0, 0, 0))
  else if negb (landlock_errno w =? 0) then (w, (2 ^ 64 - 1, 0, landlock_errno w))
  else if trap =? SYS_LANDLOCK_CREATE_RULESET then
    ({| landlock_errno := landlock_errno w; directories := directories w;
        regular_files := regular_files w; next_fd := next_fd w + 1 |},
     (next_fd w, 0, 0))
  else (w, (0, 0, 0)).

#[export] Instance Linux_OS : OS Linux := {
  os_Syscall w trap _ _ _ := Linux_landlock w trap;
  os_Syscall6 w trap _ _ _ _ _ _ := Linux_landlock w trap;
  os_IsDir w path :=
    if Linux_exists w path then (w, (bool_decide (path ∈ directories w), None))
    else (w, (false, Some (PathError "stat" path 2)));
  os_Open w path _ _ :=
    if Linux_exists w path then
      ({| landlock_errno := landlock_errno w; directories := directories w;
          regular_files := regular_files w; next_fd := next_fd w + 1 |},
       (next_fd w, None))
    else (w, (-1, Some (Errno 2)));
  os_Close w _ := (w, None);
  os_Prctl w _ _ _ _ _ := (w, None);
  os_Chdir w dir :=
    if bool_decide (dir ∈ directories w) then (w, None)
    else (w, Some (PathError "chdir" dir 2));
  os_Exec w argv0 _ _ :=
    if bool_decide (argv0 ∈ regular_files w) then (w, None)
    else (w, Some (Errno 2)) }.

Definition Linux_example : Linux :=
  {| landlock_errno := 0;
     directories := ["/repo/app"; "/usr/lib"];
     regular_files := ["/repo/app/main.c"; "/bin/make"];
     next_fd := 3 |}.

End Landlock.

(** ** The sandboxed command: [internal/exec] *)

Module CmdSandboxed.
Import Landlock.

Record t := Build {
  Name : string;
  Args : list string;
  Dir : string;
  Env : list string;
  AllowedFSAccessPaths : list string }.

(** How a call of [Exec] ends: the process image was replaced and the call
    never returns, it returned, or it dereferenced a nil rule set. *)
Inductive outcome : Type :=
  | ImageReplaced
  | Returned (err : option error)
  | Panicked.

Section Exec.
Context {W : Type} `{OS W}.

(** [for _, p := range c.AllowedFSAccessPaths { ... }] *)
Fixpoint Exec_range (rs : FSRuleset) (paths : list string) (p : process W)
    : process W * option error :=
  match paths with
  | [] => (p, None)
  | path :: paths' =>
      let '(p, err) := Allow rs path p in
      match err with
      | Some e =>
          (p, Some (fmt_Errorf
                      "adding landlock rule to permit fs access to %q failed: %w" [path] e))
      | None => Exec_range rs paths' p
      end
  end.

Definition Exec (c : t) (p : process W) : process W * outcome :=
  let '(p, (rs, err)) := NewFSRuleset p in
  match err with
  | Some e =>
      (p, Returned (Some (fmt_Errorf "creating landlock ruleset failed: %w" [] e)))
  | None =>
  match rs with
  | None => (p, Panicked)
  | Some rs =>
  let '(p, err) := Exec_range rs (AllowedFSAccessPaths c) p in
  match err with
  | Some e => (p, Returned (Some e))
  | None =>
  let '(p, err) := Restrict rs p in
  match err with
  | Some e =>
      (p, Returned (Some (fmt_Errorf "restricting landlock file access failed: %w" [] e)))
  | None =>
  let '(p, err) := os_Chdir_ (Dir c) p in
  match err with
  | Some e => (p, Returned (Some e))
  | None =>
  let '(p, err) := syscall_Exec (Name c) (Args c) (Env c) p in
  match err with
  | Some e => (p, Returned (Some (fmt_Errorf "exec failed: %w" [] e)))
  | None => (p, ImageReplaced)
  end end end end end end.

End Exec.

(** *** Reading the trace *)

Definition is_exec (e : entry) : Prop :=
  match e.1 with ExecImage _ _ _ => True | _ => False end.

(** The calls one successful [Allow rs path] makes. *)
Definition allowed (rs : FSRuleset) (path : string) (es : list entry) : Prop :=
  exists isDir f r1 r2 errClose,
    es = [(IsDir path, RIsDir isDir None);
          (Open path (Z.lor O_PATH O_CLOEXEC) 0, ROpen f None);
          (Syscall6 SYS_LANDLOCK_ADD_RULE (Word (filedescriptor rs))
             (Word LANDLOCK_RULE_PATH_BENEATH)
             (PtrPathBeneathAttr (if isDir then fsRights else fileRights) (int32 f))
             (Word 0) (Word 0) (Word 0),
           RSyscall r1 r2 0);
          (Close f, RErr errClose)].

(** The sandbox of [c] is in place: a rule set was created, one rule was
    added for each allowed path in list order, the process restricted
    itself, and then changed to the working directory; every step
    succeeded. *)
Definition sandbox_installed (c : t) (es : list entry) : Prop :=
  exists fd r2 ess r1' r2',
    Forall2 (allowed {| filedescriptor := fd |}) (AllowedFSAccessPaths c) ess
    /\ es = (Syscall SYS_LANDLOCK_CREATE_RULESET (PtrRulesetAttr fsRights)
               (Word 24) (Word version), RSyscall fd r2 0)
            :: concat ess
            ++ [(Prctl PR_SET_NO_NEW_PRIVS 1 0 0 0, RErr None);
                (Syscall SYS_LANDLOCK_RESTRICT_SELF (Word fd) (Word 0) (Word 0),
                 RSyscall r1' r2' 0);
                (Chdir (Dir c), RErr None)].

(** The calls of a complete run of [Exec], when the rule set got the
    descriptor [fd] and the [i]-th allowed path was found to be a directory
    or not and opened as [ds !! i] says. *)
Definition Exec_calls (c : t) (fd : Z) (ds : list (bool * Z)) : list call :=
  Syscall SYS_LANDLOCK_CREATE_RULESET (PtrRulesetAttr fsRights) (Word 24) (Word version)
  :: concat (zip_with (fun path d => Allow_calls {| filedescriptor := fd |} path d.1 d.2)
               (AllowedFSAccessPaths c) ds)
  ++ [Prctl PR_SET_NO_NEW_PRIVS 1 0 0 0;
      Syscall SYS_LANDLOCK_RESTRICT_SELF (Word fd) (Word 0) (Word 0);
      Chdir (Dir c);
      ExecImage (Name c) (Args c) (Env c)].

(** The error a call answered, if it failed.  A failing [Close] counts for
    nothing: [Allow] defers it and drops its result. *)
Definition failure (e : entry) : option error :=
  match e with
  | (Close _, _) => None
  | (_, RSyscall _ _ errno) => errnoToError errno
  | (_, RIsDir _ err) | (_, ROpen _ err) | (_, RErr err) => err
  end.

(** [err] is [cause] or wraps it, along the chain of [%w]. *)
Fixpoint wraps (err cause : error) : Prop :=
  err = cause
  \/ match err with
     | fmt_Errorf _ _ err' => wraps err' cause
     | _ => False
     end.

(** [es] stops at a failure: every call before [e] succeeded, [e] failed
    with [cause], and nothing follows it but a deferred [Close]. *)
Definition stopped_at (es : list entry) (cause : error) : Prop :=
  exists pre e post,
    es = pre ++ e :: post
    /\ Forall (fun x => failure x = None) pre
    /\ failure e = Some cause
    /\ (post = [] \/ exists f r, post = [(Close f, r)]).

End CmdSandboxed.

(** ** The transport of the sandboxed command: [encoding/gob]

    [encodeCmdSb] and [decodeCmdSb] hand the command to the gob encoder and
    decoder of the Go library.  The stream is modelled as the library's
    documentation lays it out: a sequence of messages, each preceded by its
    length; a message with a negative type id defines a type, a message
    with a positive id holds a value of that type.  Unsigned integers below
    128 take one byte, larger ones a byte holding the negated byte count
    followed by the big-endian bytes.  A struct is the sequence of its
    fields that are not zero, each preceded by the distance from the
    previous field number, ended by a zero.  The decoder does not interpret
    the definitions but takes the layout of [CmdSandboxed] for the type they
    describe: encoder and decoder are the same executable. *)

Module Gob.

Definition uint64Size : N := 8.

(** The big-endian bytes of [x] without leading zeros, at most [n]. *)
Fixpoint be_bytes (n : nat) (x : N) : list ascii :=
  match n with
  | O => []
  | S n' => if (x =? 0)%N then [] else be_bytes n' (x / 256)%N ++ [ascii_of_N (x mod 256)%N]
  end.

Definition encodeUint (x : N) : list ascii :=
  if (x <=? 0x7F)%N then [ascii_of_N x]
  else
    let bs := be_bytes 8 x in
    ascii_of_N (256 - N.of_nat (length bs))%N :: bs.

Definition encodeInt (i : Z) : list ascii :=
  let x := if i <? 0 then Z.lor (Z.shiftl (Z.lnot i) 1) 1 else Z.shiftl i 1 in
  encodeUint (Z.to_N x).

Definition decodeUint (buf : list ascii) : option (N * list ascii) :=
  match buf with
  | [] => None
  | b :: buf =>
      let b := N_of_ascii b in
      if (b <=? 0x7F)%N then Some (b, buf)
      else
        let n := (256 - b)%N in
        if (uint64Size <? n)%N then None
        else if (N.of_nat (length buf) <? n)%N then None
        else
          Some (fold_left (fun x b => (x * 256 + N_of_ascii b)%N) (take (N.to_nat n) buf) 0%N,
                drop (N.to_nat n) buf)
  end.

Definition decodeInt (buf : list ascii) : option (Z * list ascii) :=
  '(x, buf) ← decodeUint buf;
  let x := Z.of_N x in
  Some (if Z.testbit x 0 then Z.lnot (Z.shiftr x 1) else Z.shiftr x 1, buf).

(** A string: its length, then its bytes. *)
Definition encodeString (s : string) : list ascii :=
  encodeUint (N.of_nat (String.length s)) ++ list_ascii_of_string s.

Definition decodeString (buf : list ascii) : option (string * list ascii) :=
  '(n, buf) ← decodeUint buf;
  if (N.of_nat (length buf) <? n)%N then None
  else Some (string_of_list_ascii (take (N.to_nat n) buf), drop (N.to_nat n) buf).

(** A slice of strings: the number of elements, then the elements. *)
Definition encodeSlice (l : list string) : list ascii :=
  encodeUint (N.of_nat (length l)) ++ concat (map encodeString l).

Fixpoint decodeElements (n : nat) (buf : list ascii) : option (list string * list ascii) :=
  match n with
  | O => Some ([], buf)
  | S n' =>
      '(s, buf) ← decodeString buf;
      '(l, buf) ← decodeElements n' buf;
      Some (s :: l, buf)
  end.

Definition decodeSlice (buf : list ascii) : option (list string * list ascii) :=
  '(n, buf) ← decodeUint buf;
  if (N.of_nat (length buf) <? n)%N then None
  else decodeElements (N.to_nat n) buf.

(** A message: the length of its contents, then the contents. *)
Definition writeMessage (contents : list ascii) : list ascii :=
  encodeUint (N.of_nat (length contents)) ++ contents.

(** *** The definitions of the types on the wire *)

Definition tString : Z := 6.
Definition firstUserId : Z := 64.

(** [CommonType{Name, Id}] and [fieldType{Name, Id}] *)
Definition encodeCommonType (name : string) (id : Z) : list ascii :=
  encodeUint 1 ++ encodeString name ++ encodeUint 1 ++ encodeInt id ++ encodeUint 0.

(** [wireType{StructT: &structType{CommonType, Field}}] *)
Definition encodeStructType (name : string) (id : Z) (fields : list (string * Z))
    : list ascii :=
  encodeUint 3
  ++ (encodeUint 1 ++ encodeCommonType name id
      ++ encodeUint 1 ++ encodeUint (N.of_nat (length fields))
      ++ concat (map (fun f => encodeCommonType f.1 f.2) fields)
      ++ encodeUint 0)
  ++ encodeUint 0.

(** [wireType{SliceT: &sliceType{CommonType, Elem}}] *)
Definition encodeSliceType (name : string) (id : Z) (elem : Z) : list ascii :=
  encodeUint 2
  ++ (encodeUint 1 ++ encodeCommonType name id ++ encodeUint 1 ++ encodeInt elem
      ++ encodeUint 0)
  ++ encodeUint 0.

Definition sendType (id : Z) (wire : list ascii) : list ascii :=
  writeMessage (encodeInt (- id) ++ wire).

End Gob.

(** ** Running a task in the sandbox: [TaskRunner.RunSandboxed] *)

Module Baur.
Import Gob.

Definition baurRunSandboxedSubCmd : string := "__run_sandboxed".

(** The type ids the encoder gives to [exec.CmdSandboxed] and [[]string],
    the first two types it meets. *)
Definition idCmdSandboxed : Z := firstUserId + 1.
Definition idStringSlice : Z := firstUserId + 2.

Definition CmdSandboxed_typeDefinitions : list ascii :=
  sendType idCmdSandboxed
    (encodeStructType "CmdSandboxed" idCmdSandboxed
       [("Name", tString); ("Args", idStringSlice); ("Dir", tString);
        ("Env", idStringSlice); ("AllowedFSAccessPaths", idStringSlice)])
  ++ sendType idStringSlice (encodeSliceType "[]string" idStringSlice tString).

(** The state of the struct encoder: the number of the last field sent and
    the bytes so far. *)
Definition encString (field : Z) (s : string) (st : Z * list ascii) : Z * list ascii :=
  if (String.length s =? 0)%nat then st
  else (field, st.2 ++ encodeUint (Z.to_N (field - st.1)) ++ encodeString s).

Definition encSlice (field : Z) (l : list string) (st : Z * list ascii) : Z * list ascii :=
  if (length l =? 0)%nat then st
  else (field, st.2 ++ encodeUint (Z.to_N (field - st.1)) ++ encodeSlice l).

Definition encodeStruct (c : CmdSandboxed.t) : list ascii :=
  let st := (-1, []) in
  let st := encString 0 (CmdSandboxed.Name c) st in
  let st := encSlice 1 (CmdSandboxed.Args c) st in
  let st := encString 2 (CmdSandboxed.Dir c) st in
  let st := encSlice 3 (CmdSandboxed.Env c) st in
  let st := encSlice 4 (CmdSandboxed.AllowedFSAccessPaths c) st in
  st.2 ++ encodeUint 0.

(** [gob.NewEncoder(&buf).Encode(cmd)] on a fresh encoder: the definitions
    of the two types, then the value. *)
Definition gob_Encode (c : CmdSandboxed.t) : list ascii :=
  CmdSandboxed_typeDefinitions
  ++ writeMessage (encodeInt idCmdSandboxed ++ encodeStruct c).

Inductive error : Type :=
  | ErrTaskRunSkipped
  | ErrUntrackedGitFilesExist (UntrackedFiles : list string)
  | ErrGob (msg : string)
  | ErrHost (msg : string)
  | fmt_Errorf (format : string) (cause : error).

Definition encodeCmdSb (cmd : CmdSandboxed.t) : error + list ascii :=
  inr (gob_Encode cmd).

(** The struct decoder: [fieldnum] is the number of the last field read.
    Field numbers grow with every round, so six rounds read any struct of
    five fields and its end mark. *)
Fixpoint decodeStruct_loop (rounds : nat) (fieldnum : Z) (c : CmdSandboxed.t)
    (buf : list ascii) : option CmdSandboxed.t :=
  match rounds with
  | O => None
  | S rounds' =>
      match buf with
      | [] => Some c
      | _ =>
          '(delta, buf) ← decodeUint buf;
          let delta := Z.of_N delta in
          if delta =? 0 then Some c
          else if 5 - delta <=? fieldnum then None
          else
            let fieldnum := fieldnum + delta in
            let name := CmdSandboxed.Name c in
            let args := CmdSandboxed.Args c in
            let dir := CmdSandboxed.Dir c in
            let env := CmdSandboxed.Env c in
            let paths := CmdSandboxed.AllowedFSAccessPaths c in
            if fieldnum =? 0 then
              '(v, buf) ← decodeString buf;
              decodeStruct_loop rounds' fieldnum (CmdSandboxed.Build v args dir env paths) buf
            else if fieldnum =? 1 then
              '(v, buf) ← decodeSlice buf;
              decodeStruct_loop rounds' fieldnum (CmdSandboxed.Build name v dir env paths) buf
            else if fieldnum =? 2 then
              '(v, buf) ← decodeString buf;
              decodeStruct_loop rounds' fieldnum (CmdSandboxed.Build name args v env paths) buf
            else if fieldnum =? 3 then
              '(v, buf) ← decodeSlice buf;
              decodeStruct_loop rounds' fieldnum (CmdSandboxed.Build name args dir v paths) buf
            else
              '(v, buf) ← decodeSlice buf;
              decodeStruct_loop rounds' fieldnum (CmdSandboxed.Build name args dir env v) buf
      end
  end.

Definition decodeStruct (buf : list ascii) : option CmdSandboxed.t :=
  decodeStruct_loop 6 (-1) (CmdSandboxed.Build "" [] "" [] []) buf.

(** The message loop of the decoder: definitions are noted, the first value
    message is decoded.  Every message takes at least one byte, so the
    length of the input bounds the number of rounds. *)
Fixpoint gob_Decode_loop (rounds : nat) (defined : list Z) (r : list ascii)
    : option CmdSandboxed.t :=
  match rounds with
  | O => None
  | S rounds' =>
      '(n, r) ← decodeUint r;
      if (N.of_nat (length r) <? n)%N then None
      else
        let msg := take (N.to_nat n) r in
        let r := drop (N.to_nat n) r in
        '(id, msg) ← decodeInt msg;
        if id <? 0 then
          if bool_decide (- id ∈ defined) then None
          else gob_Decode_loop rounds' (- id :: defined) r
        else if bool_decide (id ∈ defined) then decodeStruct msg
        else None
  end.

Definition gob_Decode (r : list ascii) : option CmdSandboxed.t :=
  gob_Decode_loop (length r) [] r.

Definition decodeCmdSb (r : list ascii) : error + CmdSandboxed.t :=
  match gob_Decode r with
  | Some result => inr result
  | None => inl (ErrGob "decoding failed")
  end.

(** Lengths a Go program can have: they fit a [uint64]. *)
Definition fits_uint64 (n : nat) : Prop := (N.of_nat n < 2 ^ 64)%N.

Definition string_fits (s : string) : Prop := fits_uint64 (String.length s).

Definition slice_fits (l : list string) : Prop :=
  fits_uint64 (length l) /\ Forall string_fits l.

Definition CmdSandboxed_fits (c : CmdSandboxed.t) : Prop :=
  string_fits (CmdSandboxed.Name c)
  /\ slice_fits (CmdSandboxed.Args c)
  /\ string_fits (CmdSandboxed.Dir c)
  /\ slice_fits (CmdSandboxed.Env c)
  /\ slice_fits (CmdSandboxed.AllowedFSAccessPaths c)
  /\ fits_uint64 (length (encodeInt idCmdSandboxed ++ encodeStruct c)).

(** *** The task runner *)

(** The fields of [Task] that [RunSandboxed] reads. *)
Record Task := {
  ID : string;
  RepositoryRoot : string;
  Directory : string;
  Command : list string }.

(** [exec.Result] and [RunResult]. *)
Record Result := { ExitCode : Z; Output : list ascii }.
Record RunResult := { Result_ : option Result; StartTime : Z; StopTime : Z }.

(** What [RunSandboxed] does to its surroundings, and the answers. *)
Inductive call : Type :=
  | GitUntrackedFiles (dir : string)
  | CreateTaskInfoEnv (task : Task)
  | DeleteTempTaskInfoFiles
  | Environ
  | Now
  | RunCommand (name : string) (args : list string) (dir : string) (env : list string)
      (extraData : list ascii).

Inductive reply : Type :=
  | RFiles (files : list string) (err : option error)
  | REnv (env : list string) (err : option error)
  | RDone
  | RTime (t : Z)
  | RResult (res : option Result) (err : option error).

(** The surroundings: [createTaskInfoEnv] (it writes the temporary task
    info files) with the function it returns to delete them, [os.Environ],
    [time.Now], and a command built by [exec.Command] and run.  The prefix
    and the function for the log lines of the child are left out. *)
Class Host (W : Type) := {
  host_createTaskInfoEnv : W -> Task -> W * (list string * option error);
  host_deleteTempTaskInfoFiles : W -> W;
  host_Environ : W -> list string;
  host_Now : W -> W * Z;
  host_Run : W -> string -> list string -> string -> list string -> list ascii
             -> W * (option Result * option error) }.

Record process (W : Type) := Process { trace : list (call * reply); world : W }.
Arguments Process {W} _ _.
Arguments trace {W} _.
Arguments world {W} _.

(** The fields of [TaskRunner] that [RunSandboxed] reads.  The type and
    [SkipRunsIsEnabled] are declared elsewhere in the package; what
    [SkipRunsIsEnabled] answers is taken as the field [skipEnabled]. *)
Record TaskRunner (W : Type) := {
  skipAfterError : bool;
  skipEnabled : bool;
  GitUntrackedFilesFn : option (W -> string -> W * (list string * option error)) }.
Arguments skipAfterError {W} _.
Arguments skipEnabled {W} _.
Arguments GitUntrackedFilesFn {W} _.

Definition SkipRunsIsEnabled {W : Type} (t : TaskRunner W) : bool := skipEnabled t.

(** How a call of [RunSandboxed] ends. *)
Inductive outcome : Type :=
  | Returned (res : option RunResult) (err : option error)
  | Panicked.

Section RunSandboxed.
Context {W : Type} `{Host W}.
(** [Input] and [InputsToFSPaths] are declared elsewhere in the package. *)
Context {Input : Type} (InputsToFSPaths : list Input -> list string).

Definition record (p : process W) (c : call) (r : reply) (w : W) : process W :=
  Process (trace p ++ [(c, r)]) w.

Definition RunSandboxed (t : TaskRunner W) (task : Task) (inputs : list Input)
    (p : process W) : process W * outcome :=
  if skipAfterError t && SkipRunsIsEnabled t then
    (p, Returned None (Some ErrTaskRunSkipped))
  else
  let '(p, gate) :=
    match GitUntrackedFilesFn t with
    | Some fn =>
        let '(w, (untracked, err)) := fn (world p) (RepositoryRoot task) in
        let p := record p (GitUntrackedFiles (RepositoryRoot task)) (RFiles untracked err) w in
        match err with
        | Some e => (p, Some e)
        | None =>
            if negb (length untracked =? 0)%nat
            then (p, Some (ErrUntrackedGitFilesExist untracked))
            else (p, None)
        end
    | None => (p, None)
    end in
  match gate with
  | Some e => (p, Returned None (Some e))
  | None =>
  let '(w, (env, err)) := host_createTaskInfoEnv (world p) task in
  let p := record p (CreateTaskInfoEnv task) (REnv env err) w in
  match err with
  | Some e => (p, Returned None (Some e))
  | None =>
  (* defer deleteTempTaskInfoFilesFn() *)
  let deferred (r : process W * outcome) : process W * outcome :=
    (record r.1 DeleteTempTaskInfoFiles RDone (host_deleteTempTaskInfoFiles (world r.1)),
     r.2) in
  deferred
    match Command task with
    | [] => (p, Panicked)
    | name :: args =>
        let environ := host_Environ (world p) in
        let p := record p Environ (REnv environ None) (world p) in
        let sbCmd := {| CmdSandboxed.Name := name;
                        CmdSandboxed.Args := args;
                        CmdSandboxed.Dir := Directory task;
                        CmdSandboxed.Env := environ ++ env;
                        CmdSandboxed.AllowedFSAccessPaths := InputsToFSPaths inputs |} in
        match encodeCmdSb sbCmd with
        | inl e => (p, Returned None (Some (fmt_Errorf "encoding CmdSandboxed failed: %w" e)))
        | inr extraData =>
            let '(w, startTime) := host_Now (world p) in
            let p := record p Now (RTime startTime) w in
            let environ := host_Environ (world p) in
            let p := record p Environ (REnv environ None) (world p) in
            let '(w, (execResult, err)) :=
              host_Run (world p) "/proc/self/exe" [baurRunSandboxedSubCmd]
                (Directory task) (environ ++ env) extraData in
            let p := record p
                       (RunCommand "/proc/self/exe" [baurRunSandboxedSubCmd]
                          (Directory task) (environ ++ env) extraData)
                       (RResult execResult err) w in
            match err with
            | Some e => (p, Returned None (Some e))
            | None =>
                let '(w, stopTime) := host_Now (world p) in
                let p := record p Now (RTime stopTime) w in
                (p, Returned (Some {| Result_ := execResult; StartTime := startTime;
                                      StopTime := stopTime |}) None)
            end
        end
    end
  end end.

End RunSandboxed.

(** The calls made by a step that started in [p] and ended in [p']. *)
Definition calls_between {W : Type} (p p' : process W) : list (call * reply) :=
  drop (length (trace p)) (trace p').

(** A call that changes something: everything but asking the version
    control system, the environment or the clock. *)
Definition is_side_effect (c : call) : Prop :=
  match c with
  | CreateTaskInfoEnv _ | DeleteTempTaskInfoFiles | RunCommand _ _ _ _ _ => True
  | GitUntrackedFiles _ | Environ | Now => False
  end.

(** *** Surroundings to run examples in

    Nothing fails; the child exits with status 0. *)
#[export] Instance Host_example : Host unit := {
  host_createTaskInfoEnv w task := (w, (["BAUR_TASK=" +:+ ID task], None));
  host_deleteTempTaskInfoFiles w := w;
  host_Environ w := ["PATH=/bin"];
  host_Now w := (w, 1700000000);
  host_Run w _ _ _ _ _ := (w, (Some {| ExitCode := 0; Output := [] |}, None)) }.

Definition Task_example : Task :=
  {| ID := "demo.build"; RepositoryRoot := "/repo"; Directory := "/repo/app";
     Command := ["/bin/make"; "all"] |}.

(** A work tree with one untracked file. *)
Definition untracked_junk (w : unit) (dir : string) : unit * (list string * option error) :=
  (w, (["junk.txt"], None)).

(** *** Reading a run *)

(** The command [RunSandboxed] hands to the child for [task], when the
    process environment is [environ] and the task info environment [env]. *)
Definition sandboxed_command {Input : Type} (InputsToFSPaths : list Input -> list string)
    (task : Task) (inputs : list Input) (name : string) (args environ env : list string)
    : CmdSandboxed.t :=
  {| CmdSandboxed.Name := name;
     CmdSandboxed.Args := args;
     CmdSandboxed.Dir := Directory task;
     CmdSandboxed.Env := environ ++ env;
     CmdSandboxed.AllowedFSAccessPaths := InputsToFSPaths inputs |}.

(** What the check for untracked files does and decides when started in
    [p]: the calls it makes, and the error it stops the run with, if any. *)
Definition untracked_files_gate {W : Type} (t : TaskRunner W) (task : Task) (p : process W)
    : list (call * reply) * option error :=
  match GitUntrackedFilesFn t with
  | Some fn =>
      let '(w, (untracked, err)) := fn (world p) (RepositoryRoot task) in
      ([(GitUntrackedFiles (RepositoryRoot task), RFiles untracked err)],
       match err with
       | Some e => Some e
       | None => if negb (length untracked =? 0)%nat
                 then Some (ErrUntrackedGitFilesExist untracked) else None
       end)
  | None => ([], None)
  end.

End Baur.

(** ** A docker image in a registry: [RemoteDockerImg] *)

Module RemoteDockerImg.

(** RemoteDockerImg represents a docker image in a docker repository *)
Record t := { repository : string; digest : string; path : string }.

(** NewRemoteDockerImg creates a RemoteDockerImg *)
Definition NewRemoteDockerImg (repository digest : string) : t :=
  {| digest := digest;
     repository := repository;
     path := repository +:+ "@" +:+ digest |}.

(** URL returns it's URL *)
Definition URL (r : t) : string := "docker://" +:+ path r.

(** String returns a string representation *)
Definition String (r : t) : string := URL r.

(** The characters of a string. *)
Definition chars (s : string) : list ascii := String.list_ascii_of_string s.

End RemoteDockerImg.

(** ** The command [baur shell]: [internal/command] *)

Module ShellCmd.
Import Landlock.

Record t := { shellCmd : string }.

(** How [run] ends: the process exited ([os.Exit] in a must-function or in
    [exitOnErr]), it panicked, its image was replaced by the shell, or the
    function returned. *)
Inductive outcome : Type :=
  | Exited
  | Panicked
  | ImageReplaced
  | Returned.

(** The paths of the host every shell may read. *)
Definition hostPaths : list string :=
  ["/usr/bin/"; "/usr/lib/"; "/usr/lib64/"; "/etc/"; "/dev/"; "/proc/"; "/sys/";
   "/usr/"; "/var/"; "/home/fho/.local"; "/home/fho/.config"; "/run"].

Section Run.
Context {W : Type} `{OS W}.
(** Declared elsewhere in the package and in [pkg/baur]: the repository and
    its state, the must-functions (they answer [None] where they end the
    process), the resolver of the inputs of a task, and [os.Environ]. *)
Context {Repository RepoState Inputs Input Err : Type}.
Context (Repository_Path : Repository -> string)
  (mustFindRepository : W -> option Repository)
  (mustGetRepoState : W -> string -> option RepoState)
  (mustArgToTask : W -> Repository -> RepoState -> string -> option Baur.Task)
  (Resolve : W -> RepoState -> string -> Baur.Task -> Err + Inputs)
  (Inputs_Inputs : Inputs -> list Input)
  (InputsToFSPaths : list Input -> list string)
  (os_Environ : W -> list string).

Definition run (c : t) (args : list string) (p : process W) : process W * outcome :=
  match mustFindRepository (world p) with
  | None => (p, Exited)
  | Some repo =>
  match mustGetRepoState (world p) (Repository_Path repo) with
  | None => (p, Exited)
  | Some vcsState =>
  match args with
  | [] => (p, Panicked)
  | arg0 :: _ =>
  match mustArgToTask (world p) repo vcsState arg0 with
  | None => (p, Exited)
  | Some task =>
  let task := {| Baur.ID := Baur.ID task;
                 Baur.RepositoryRoot := Baur.RepositoryRoot task;
                 Baur.Directory := Baur.Directory task;
                 Baur.Command := [shellCmd c] |} in
  match Resolve (world p) vcsState (Repository_Path repo) task with
  | inl _ => (p, Exited)
  | inr inputs =>
  let sbCmd := {| CmdSandboxed.Name := "/bin/bash";
                  CmdSandboxed.Args := [];
                  CmdSandboxed.Dir := Baur.Directory task;
                  CmdSandboxed.Env := os_Environ (world p);
                  CmdSandboxed.AllowedFSAccessPaths :=
                    InputsToFSPaths (Inputs_Inputs inputs) ++ hostPaths
                    ++ [Baur.Directory task] |} in
  let '(p, r) := CmdSandboxed.Exec sbCmd p in
  match r with
  | CmdSandboxed.ImageReplaced => (p, ImageReplaced)
  | CmdSandboxed.Returned (Some _) => (p, Exited)
  | CmdSandboxed.Returned None => (p, Returned)
  | CmdSandboxed.Panicked => (p, Panicked)
  end
  end end end end end.

End Run.

(** *** Surroundings to run examples in

    The paths of the host and the directory of the task exist, and so does
    the shell; the repository is found, the task has one input file. *)
Definition Linux_shell_example : Linux :=
  {| landlock_errno := 0;
     directories := hostPaths ++ ["/repo/app"];
     regular_files := ["/repo/app/main.c"; "/bin/bash"];
     next_fd := 3 |}.

Definition mustArgToTask_example (w : Linux) (repo : string) (vcsState : unit)
    (arg : string) : option Baur.Task :=
  Some {| Baur.ID := arg; Baur.RepositoryRoot := repo; Baur.Directory := "/repo/app";
          Baur.Command := ["make"] |}.

Definition Resolve_example (w : Linux) (vcsState : unit) (repo : string) (task : Baur.Task)
    : string + list string :=
  inr ["/repo/app/main.c"].

Definition run_example (c : t) (args : list string) (p : process Linux)
    : process Linux * outcome :=
  run (fun repo : string => repo) (fun _ => Some "/repo") (fun _ _ => Some tt)
    mustArgToTask_example Resolve_example (fun inputs : list string => inputs)
    (fun inputs : list string => inputs) (fun _ => ["PATH=/bin"]) c args p.

End ShellCmd.

(** ** The command [baur status]: [internal/command] *)

Module StatusCmd.
Import Go.

Definition statusAppNameHeader : string := "Application Name".
Definition statusAppNameParam : string := "app-name".
Definition statusTaskIDHeader : string := "Task ID".
Definition statusTaskIDParam : string := "task-id".
Definition statusPathHeader : string := "Path".
Definition statusPathParam : string := "path".
Definition statusStatusHeader : string := "Status".
Definition statusStatusParam : string := "status".
Definition statusRunIDHeader : string := "Run ID".
Definition statusRunIDParam : string := "run-id".
Definition statusGitCommitHeader : string := "Git Commit".
Definition statusGitCommitParam : string := "git-commit".

(** The fields of [baur.Task] and [storage.TaskRunWithID] that
    [assembleRow] reads. *)
Module Task.
Record t := { AppName : string; ID : string; Directory : string }.
End Task.

Module TaskRunWithID.
Record t := { ID : Z; VCSRevision : string }.
End TaskRunWithID.

(** [fmt.Sprint] of an [int]. *)
Definition fmt_Sprint (n : Z) : string :=
  if n <? 0 then "-" +:+ itoa (Z.to_nat (- n)) else itoa (Z.to_nat n).

(** A value of a row (Go's [any]): a string, or nil. *)
Inductive any : Type :=
  | Str (s : string)
  | Nil.

(** How [assembleRow] ends: with the row, with the process exited (in
    [mustTaskRepoRelPath]), or with a nil task run dereferenced. *)
Inductive outcome : Type :=
  | Row (row : list any)
  | Exited
  | NilDereference.

(** [flag.TaskStatus]: a status, and whether the flag was given. *)
Record flag_TaskStatus (TaskStatus : Type) := { IsSet : bool; Status : TaskStatus }.
Arguments IsSet {TaskStatus} _.
Arguments Status {TaskStatus} _.

Record statusCmd (TaskStatus : Type) := {
  quiet : bool;
  absPaths : bool;
  buildStatus : flag_TaskStatus TaskStatus;
  fields : list string;   (* c.fields.Fields *)
  format : string         (* c.format.Val *) }.
Arguments quiet {TaskStatus} _.
Arguments absPaths {TaskStatus} _.
Arguments buildStatus {TaskStatus} _.
Arguments fields {TaskStatus} _.
Arguments format {TaskStatus} _.

(** The values of the fields parameter that the command knows. *)
Definition supported_fields : list string :=
  [statusAppNameParam; statusTaskIDParam; statusPathParam; statusStatusParam;
   statusRunIDParam; statusGitCommitParam].

Section Status.
(** Declared elsewhere: [baur.TaskStatus] with its constant
    [TaskStatusRunExist] and its method [String], the constant
    [flag.FormatJSON], and [mustTaskRepoRelPath], which answers [None]
    where it ends the process. *)
Context {TaskStatus : Type} `{EqDecision TaskStatus}.
Context (TaskStatusRunExist : TaskStatus) (TaskStatus_String : TaskStatus -> string)
  (FormatJSON : string) (mustTaskRepoRelPath : string -> Task.t -> option string).

Definition jsonFieldNames (c : statusCmd TaskStatus) : list string :=
  fold_left (fun headers f =>
    if String.eqb f statusAppNameParam then headers ++ ["AppName"]
    else if String.eqb f statusTaskIDParam then headers ++ ["TaskID"]
    else if String.eqb f statusPathParam then headers ++ ["Path"]
    else if String.eqb f statusStatusParam then headers ++ ["Status"]
    else if String.eqb f statusRunIDParam then headers ++ ["RunID"]
    else if String.eqb f statusGitCommitParam then headers ++ ["GitCommit"]
    else headers) (fields c) [].

(** The loop of [statusCreateHeader]; [None] is the panic for a value
    that is not supported. *)
Fixpoint statusCreateHeader_range (fs : list string) (headers : list string)
    : option (list string) :=
  match fs with
  | [] => Some headers
  | f :: fs' =>
      if String.eqb f statusAppNameParam
      then statusCreateHeader_range fs' (headers ++ [statusAppNameHeader])
      else if String.eqb f statusTaskIDParam
      then statusCreateHeader_range fs' (headers ++ [statusTaskIDHeader])
      else if String.eqb f statusPathParam
      then statusCreateHeader_range fs' (headers ++ [statusPathHeader])
      else if String.eqb f statusStatusParam
      then statusCreateHeader_range fs' (headers ++ [statusStatusHeader])
      else if String.eqb f statusRunIDParam
      then statusCreateHeader_range fs' (headers ++ [statusRunIDHeader])
      else if String.eqb f statusGitCommitParam
      then statusCreateHeader_range fs' (headers ++ [statusGitCommitHeader])
      else None
  end.

Definition statusCreateHeader (c : statusCmd TaskStatus) : option (list string) :=
  if String.eqb (format c) FormatJSON then Some (jsonFieldNames c)
  else if quiet c then Some []
  else statusCreateHeader_range (fields c) [].

(** The loop of [storageQueryIsNeeded]. *)
Fixpoint storageQueryIsNeeded_range (fs : list string) : bool :=
  match fs with
  | [] => false
  | f :: fs' =>
      if String.eqb f statusStatusParam then true
      else if String.eqb f statusRunIDParam then true
      else if String.eqb f statusGitCommitParam then true
      else storageQueryIsNeeded_range fs'
  end.

Definition storageQueryIsNeeded (c : statusCmd TaskStatus) : bool :=
  if IsSet (buildStatus c) then true else storageQueryIsNeeded_range (fields c).

(** The loop of [assembleRow]. *)
Fixpoint assembleRow_range (c : statusCmd TaskStatus) (repositoryDir : string)
    (task : Task.t) (taskRun : option TaskRunWithID.t) (buildStatus : TaskStatus)
    (fs : list string) (row : list any) : outcome :=
  match fs with
  | [] => Row row
  | f :: fs' =>
      let continue := assembleRow_range c repositoryDir task taskRun buildStatus fs' in
      if String.eqb f statusAppNameParam then continue (row ++ [Str (Task.AppName task)])
      else if String.eqb f statusTaskIDParam then continue (row ++ [Str (Task.ID task)])
      else if String.eqb f statusPathParam then
        if absPaths c then continue (row ++ [Str (Task.Directory task)])
        else match mustTaskRepoRelPath repositoryDir task with
             | Some rel => continue (row ++ [Str rel])
             | None => Exited
             end
      else if String.eqb f statusStatusParam
      then continue (row ++ [Str (TaskStatus_String buildStatus)])
      else if String.eqb f statusRunIDParam then
        if bool_decide (buildStatus = TaskStatusRunExist) then
          match taskRun with
          | Some run => continue (row ++ [Str (fmt_Sprint (TaskRunWithID.ID run))])
          | None => NilDereference
          end
        else continue (row ++ [Nil])
      else if String.eqb f statusGitCommitParam then
        if bool_decide (buildStatus = TaskStatusRunExist) then
          match taskRun with
          | Some run => continue (row ++ [Str (TaskRunWithID.VCSRevision run)])
          | None => NilDereference
          end
        else continue (row ++ [Nil])
      else continue row
  end.

Definition assembleRow (c : statusCmd TaskStatus) (repositoryDir : string)
    (task : Task.t) (taskRun : option TaskRunWithID.t) (buildStatus : TaskStatus)
    : outcome :=
  assembleRow_range c repositoryDir task taskRun buildStatus (fields c) [].

End Status.

(** *** Surroundings to run examples in

    The status of a task is a number, 2 for a run that exists; the command
    has its default fields. *)
Definition TaskStatus_String_example (status : Z) : string :=
  if status =? 2 then "Exist" else "Pending".

Definition statusCmd_example : statusCmd Z :=
  {| quiet := false; absPaths := true;
     buildStatus := {| IsSet := false; Status := 0 |};
     fields := [statusTaskIDParam; statusPathParam; statusRunIDParam; statusStatusParam;
                statusGitCommitParam];
     format := "plain" |}.

Definition Task_example : Task.t :=
  {| Task.AppName := "shop"; Task.ID := "shop.build"; Task.Directory := "/repo/shop" |}.

Definition assembleRow_example (c : statusCmd Z) (taskRun : option TaskRunWithID.t)
    (buildStatus : Z) : outcome :=
  assembleRow 2 TaskStatus_String_example (fun _ task => Some (Task.Directory task))
    c "/repo" Task_example taskRun buildStatus.

End StatusCmd.

(** ** The command [baur ls inputs]: [internal/command] *)

Module LsInputsCmd.
Import Go.

Record t := { csv : bool; quiet : bool; showDigest : bool; inputStr : list string }.

(** A value of a row: an input, or the text of a digest. *)
Inductive cell (Input : Type) : Type :=
  | CInput (input : Input)
  | CString (s : string).
Arguments CInput {Input} _.
Arguments CString {Input} _.

(** What the command does to its surroundings, with the answers: the
    formatter it creates ([csv.New] or [table.New] on the standard output),
    the rows it writes, the digests it asks for, and the line with the total
    digest.  [failed] says that an error was returned. *)
Inductive call (Input Inputs : Type) : Type :=
  | NewFormatter (csv : bool) (headers : list string)
  | WriteRow (row : list (cell Input)) (failed : bool)
  | Flush (failed : bool)
  | Digest (input : Input) (digest : option string)
  | TotalDigest (inputs : Inputs) (digest : option string)
  | PrintTotalDigest (digest : string).
Arguments NewFormatter {Input Inputs} _ _.
Arguments WriteRow {Input Inputs} _ _.
Arguments Flush {Input Inputs} _.
Arguments Digest {Input Inputs} _ _.
Arguments TotalDigest {Input Inputs} _ _.
Arguments PrintTotalDigest {Input Inputs} _.

(** The surroundings, over an abstract state: the formatter, and the
    digests of an input and of all inputs ([None] for an error). *)
Class Host (W Input Inputs : Type) := {
  host_WriteRow : W -> list (cell Input) -> W * bool;
  host_Flush : W -> W * bool;
  host_Digest : W -> Input -> W * option string;
  host_TotalDigest : W -> Inputs -> W * option string }.

Record process (W Input Inputs : Type) :=
  Process { trace : list (call Input Inputs); world : W }.
Arguments Process {W Input Inputs} _ _.
Arguments trace {W Input Inputs} _.
Arguments world {W Input Inputs} _.

(** How a function of the command ends: it returned, or the process
    exited ([os.Exit] in a must-function or in [exitOnErr]). *)
Inductive outcome : Type :=
  | Returned
  | Exited.

Section Ls.
Context {W Input Inputs : Type} `{Host W Input Inputs}.
(** Declared elsewhere: the method [String] of an input, [baur.NewInputs]
    with its method [Inputs], [baur.AsInputStrings], [strconv.Atoi] (it
    answers [None] for an error), the repository, its state and the
    storage with the must-functions that find them (they answer [None]
    where they end the process), the inputs of a task run in the storage
    with [toBaurInputs], and the resolver of the inputs of a task. *)
Context {Repository RepoState Storage StorageInput Task Err : Type}.
Context (Input_String : Input -> string)
  (NewInputs : list Input -> Inputs) (Inputs_Inputs : Inputs -> list Input)
  (AsInputStrings : list string -> list Input)
  (strconv_Atoi : string -> option Z)
  (Repository_Path : Repository -> string)
  (mustFindRepository : W -> option Repository)
  (mustNewCompatibleStorage : W -> Repository -> option Storage)
  (storage_Inputs : W -> Storage -> Z -> Err + list StorageInput)
  (toBaurInputs : list StorageInput -> list Input)
  (mustGetRepoState : W -> string -> option RepoState)
  (mustArgToTask : W -> Repository -> RepoState -> string -> option Task)
  (Resolve : W -> RepoState -> string -> Task -> Err + list Input).

Definition record (p : process W Input Inputs) (c : call Input Inputs) (w : W)
    : process W Input Inputs :=
  Process (trace p ++ [c]) w.

(** [mustWriteRow(formatter, row...)] *)
Definition mustWriteRow (row : list (cell Input)) (p : process W Input Inputs)
    : process W Input Inputs * outcome :=
  let '(w, failed) := host_WriteRow (world p) row in
  (record p (WriteRow row failed) w, if failed then Exited else Returned).

(** The loop over the inputs in [mustPrintTaskInputs]. *)
Fixpoint mustPrintTaskInputs_range (c : t) (inputs : list Input)
    (p : process W Input Inputs) : process W Input Inputs * outcome :=
  match inputs with
  | [] => (p, Returned)
  | input :: inputs' =>
      if negb (showDigest c) || quiet c then
        match mustWriteRow [CInput input] p with
        | (p, Exited) => (p, Exited)
        | (p, Returned) => mustPrintTaskInputs_range c inputs' p
        end
      else
        let '(w, digest) := host_Digest (world p) input in
        let p := record p (Digest input digest) w in
        match digest with
        | None => (p, Exited)
        | Some digest =>
            match mustWriteRow [CInput input; CString digest] p with
            | (p, Exited) => (p, Exited)
            | (p, Returned) => mustPrintTaskInputs_range c inputs' p
            end
        end
  end.

Definition mustPrintTaskInputs (c : t) (inputs : Inputs) (p : process W Input Inputs)
    : process W Input Inputs * outcome :=
  let writeHeaders := negb (quiet c) && negb (csv c) in
  let headers :=
    if writeHeaders then
      let headers := ["Input"] in
      if showDigest c then headers ++ ["Digest"] else headers
    else [] in
  let p := record p (NewFormatter (csv c) headers) (world p) in
  match mustPrintTaskInputs_range c (Inputs_Inputs inputs) p with
  | (p, Exited) => (p, Exited)
  | (p, Returned) =>
      let '(w, failed) := host_Flush (world p) in
      let p := record p (Flush failed) w in
      if failed then (p, Exited)
      else if showDigest c && negb (quiet c) && negb (csv c) then
        let '(w, totalDigest) := host_TotalDigest (world p) inputs in
        let p := record p (TotalDigest inputs totalDigest) w in
        match totalDigest with
        | None => (p, Exited)
        | Some totalDigest => (record p (PrintTotalDigest totalDigest) (world p), Returned)
        end
      else (p, Returned)
  end.

(** [mustGetTaskRunInputs] and [mustGetTaskInputs] answer [None] where
    they end the process.  (Closing the storage client is left out.) *)
Definition mustGetTaskRunInputs (taskRunID : Z) (p : process W Input Inputs)
    : option (list Input) :=
  match mustFindRepository (world p) with
  | None => None
  | Some repo =>
  match mustNewCompatibleStorage (world p) repo with
  | None => None
  | Some storageClt =>
  match storage_Inputs (world p) storageClt taskRunID with
  | inl _ => None
  | inr inputs => Some (toBaurInputs inputs)
  end end end.

Definition mustGetTaskInputs (taskSpec : string) (p : process W Input Inputs)
    : option (list Input) :=
  match mustFindRepository (world p) with
  | None => None
  | Some repo =>
  match mustGetRepoState (world p) (Repository_Path repo) with
  | None => None
  | Some vcsState =>
  match mustArgToTask (world p) repo vcsState taskSpec with
  | None => None
  | Some task =>
  match Resolve (world p) vcsState (Repository_Path repo) task with
  | inl _ => None
  | inr inputs => Some inputs
  end end end end.

(** [run]; the command takes exactly one argument, [arg0]. *)
Definition run (c : t) (arg0 : string) (p : process W Input Inputs)
    : process W Input Inputs * outcome :=
  let fetched :=
    match strconv_Atoi arg0 with
    | Some taskID =>
        if negb (length (inputStr c) =? 0)%nat then None
        else mustGetTaskRunInputs taskID p
    | None =>
        match mustGetTaskInputs arg0 p with
        | Some inputs => Some (inputs ++ AsInputStrings (inputStr c))
        | None => None
        end
    end in
  match fetched with
  | None => (p, Exited)
  | Some inputs =>
      let inputs := sort_Slice (fun a b => string_lt (Input_String a) (Input_String b))
                      inputs in
      mustPrintTaskInputs c (NewInputs inputs) p
  end.

End Ls.

(** The calls made by a step that started in [p] and ended in [p']. *)
Definition calls_between {W Input Inputs : Type} (p p' : process W Input Inputs)
    : list (call Input Inputs) :=
  drop (length (trace p)) (trace p').

(** The number of values of a row of the command [c]. *)
Definition columns (c : t) : nat := if negb (showDigest c) || quiet c then 1%nat else 2%nat.

(** What the loop over the inputs may do for the command [c]: write a row
    of that many values, and ask for the digest of an input when digests
    are shown and the command is not quiet. *)
Definition in_loop {Input Inputs : Type} (c : t) (e : call Input Inputs) : Prop :=
  match e with
  | WriteRow row _ => length row = columns c
  | Digest _ _ => showDigest c = true /\ quiet c = false
  | _ => False
  end.

(** Ascending by the text of the inputs. *)
Definition by_String {Input : Type} (Input_String : Input -> string) (a b : Input) : Prop :=
  String.compare (Input_String a) (Input_String b) <> Gt.

(** The inputs of the rows handed to the formatter, in the order of the
    calls. *)
Definition row_inputs {Input Inputs : Type} (es : list (call Input Inputs)) : list Input :=
  omap (fun e => match e with
                 | WriteRow (CInput input :: _) _ => Some input
                 | _ => None
                 end) es.

(** *** Surroundings to run examples in

    Inputs are file names; the digest of a file is its name in brackets,
    and no file has the name "missing". *)
#[export] Instance Host_example : Host unit string (list string) := {
  host_WriteRow w _ := (w, false);
  host_Flush w := (w, false);
  host_Digest w input :=
    (w, if String.eqb input "missing" then None else Some ("<" +:+ input +:+ ">"));
  host_TotalDigest w inputs := (w, Some "<total>") }.

Definition strconv_Atoi_example (arg : string) : option Z :=
  if String.eqb arg "17" then Some 17 else None.

Definition storage_Inputs_example (w : unit) (storageClt : unit) (taskRunID : Z)
    : string + list string :=
  inr ["b.go"; "a.go"].

Definition Resolve_example (w : unit) (vcsState : unit) (repo : string) (task : string)
    : string + list string :=
  inr ["main.go"; "go.mod"].

Definition run_example (c : t) (arg0 : string) (p : process unit string (list string))
    : process unit string (list string) * outcome :=
  run (fun input : string => input) (fun inputs : list string => inputs)
    (fun inputs : list string => inputs) (fun strs : list string => strs)
    strconv_Atoi_example (fun repo : string => repo) (fun _ => Some "/repo")
    (fun _ _ => Some tt) storage_Inputs_example (fun inputs : list string => inputs)
    (fun _ _ => Some tt) (fun _ _ _ taskSpec => Some taskSpec) Resolve_example
    c arg0 p.

End LsInputsCmd.

(** * Properties *)

(** ** Facts about byte-wise string order *)

Section StringOrder.

Lemma ascii_compare_trans (a b c : ascii) (o : comparison) :
    Ascii.compare a b = o -> Ascii.compare b c = o -> Ascii.compare a c = o.
Proof.
    unfold Ascii.compare. destruct o; intros H1 H2.
    - apply N.compare_eq_iff in H1, H2. apply N.compare_eq_iff. congruence.
    - rewrite N.compare_lt_iff in *. lia.
    - rewrite N.compare_gt_iff in *. lia.
Qed.

Lemma ascii_compare_refl (a : ascii) : Ascii.compare a a = Eq.
Proof. unfold Ascii.compare. apply N.compare_refl. Qed.

Lemma string_compare_refl (s : string) : String.compare s s = Eq.
Proof. induction s as [|a s IH]; simpl; [done|]. by rewrite ascii_compare_refl. Qed.

Lemma string_compare_eq (s t : string) : String.compare s t = Eq <-> s = t.
Proof.
    split; [apply String.compare_eq_iff|]. intros ->. apply string_compare_refl.
Qed.

Lemma string_compare_lt_trans (s t u : string) :
    String.compare s t = Lt -> String.compare t u = Lt -> String.compare s u = Lt.
Proof.
    revert t u. induction s as [|a s IH]; intros [|b t] [|c u]; simpl; try done.
    destruct (Ascii.compare a b) eqn:Hab; try done;
      destruct (Ascii.compare b c) eqn:Hbc; try done; intros H1 H2.
    - rewrite (ascii_compare_trans _ _ _ _ Hab Hbc). eauto.
    - apply Ascii.compare_eq_iff in Hab as ->. by rewrite Hbc.
    - apply Ascii.compare_eq_iff in Hbc as <-. by rewrite Hab.
    - by rewrite (ascii_compare_trans _ _ _ _ Hab Hbc).
Qed.

End StringOrder.

(** ** What [sort.Slice] guarantees *)

Section SortContract.
Context {A : Type} (less : A -> A -> bool).

Local Abbreviation not_after := (Go.not_after less).

Hypothesis less_asym : forall a b, less a b = true -> less b a = false.

Lemma insert_sorted_perm (x : A) (l : list A) : Go.insert_sorted less x l ≡ₚ x :: l.
Proof.
  induction l as [|y l IH]; simpl; [done|].
  destruct (less x y); [done|]. rewrite IH. apply Permutation_swap.
Qed.

Lemma sort_Slice_fold_perm (l acc : list A) :
  fold_left (fun acc x => Go.insert_sorted less x acc) l acc ≡ₚ acc ++ l.
Proof.
  revert acc. induction l as [|x l IH]; intros acc; simpl.
  - by rewrite app_nil_r.
  - rewrite IH, insert_sorted_perm. simpl. apply Permutation_middle.
Qed.

Lemma sort_Slice_perm (l : list A) : Go.sort_Slice less l ≡ₚ l.
Proof. apply (sort_Slice_fold_perm l []). Qed.

Lemma insert_sorted_Sorted (x : A) (l : list A) :
  Sorted not_after l -> Sorted not_after (Go.insert_sorted less x l).
Proof.
  induction 1 as [|y l Hs IH Hd]; simpl.
  - by repeat constructor.
  - destruct (less x y) eqn:Hxy.
    + constructor; [by constructor|]. constructor. by apply less_asym.
    + constructor; [done|].
      destruct Hd as [|z l Hz]; simpl.
      * by constructor.
      * destruct (less x z); by constructor.
Qed.

Lemma sort_Slice_fold_Sorted (l acc : list A) :
  Sorted not_after acc ->
  Sorted not_after (fold_left (fun acc x => Go.insert_sorted less x acc) l acc).
Proof.
  revert acc. induction l as [|x l IH]; intros acc Hacc; simpl; [done|].
  by apply IH, insert_sorted_Sorted.
Qed.

Lemma sort_Slice_Sorted (l : list A) : Sorted not_after (Go.sort_Slice less l).
Proof. apply sort_Slice_fold_Sorted. constructor. Qed.

(** When [less] is a strict total order, the sorted slice depends on the
    elements only, not on the order they came in. *)
Hypothesis less_trans : forall a b c, not_after a b -> not_after b c -> not_after a c.
Hypothesis less_total : forall a b, not_after a b -> not_after b a -> a = b.

Lemma sort_Slice_StronglySorted (l : list A) :
  StronglySorted not_after (Go.sort_Slice less l).
Proof.
  apply Sorted_StronglySorted; [exact less_trans | apply sort_Slice_Sorted].
Qed.

Lemma sort_Slice_perm_eq (l l' : list A) :
  l ≡ₚ l' -> Go.sort_Slice less l = Go.sort_Slice less l'.
Proof.
  intros Hp. apply (StronglySorted_unique not_after (AntiSymm0 := less_total)).
  - apply sort_Slice_StronglySorted.
  - apply sort_Slice_StronglySorted.
  - by rewrite !sort_Slice_perm.
Qed.

End SortContract.

(** Sorting commutes with taking keys when [less] only looks at the key. *)
Lemma sort_Slice_map {A B : Type} (key : A -> B) (less : A -> A -> bool)
    (lessK : B -> B -> bool) (l : list A) :
  (forall a b, less a b = lessK (key a) (key b)) ->
  map key (Go.sort_Slice less l) = Go.sort_Slice lessK (map key l).
Proof.
  intros Hk. unfold Go.sort_Slice.
  change (@nil B) with (map key []). generalize (@nil A).
  induction l as [|x l IH]; intros acc; simpl; [done|].
  rewrite IH. f_equal.
  clear IH. induction acc as [|y acc IH]; simpl; [done|].
  rewrite <- Hk. destruct (less x y); simpl; [done|]. by rewrite IH.
Qed.

(** ** The order of the rows of a bulk upsert *)

Import Go Storage Postgres.

Section RowOrder.

Lemma row_ltb_asym (a b : row) : row_ltb a b = true -> row_ltb b a = false.
Proof.
  unfold row_ltb. rewrite (String.compare_antisym a.1 b.1), (String.compare_antisym a.2 b.2).
  destruct (String.compare b.1 a.1), (String.compare b.2 a.2); simpl; congruence.
Qed.

Lemma row_ltb_lt (a b : row) : row_ltb a b = true <-> row_lt a b.
Proof.
  unfold row_ltb, row_lt. split.
  - destruct (String.compare a.1 b.1) eqn:H1; try done; [|by left].
    apply string_compare_eq in H1.
    destruct (String.compare a.2 b.2) eqn:H2; try done. by right.
  - intros [H1 | [H1 H2]]; [by rewrite H1|].
    apply string_compare_eq in H1. by rewrite H1, H2.
Qed.

Lemma row_le_not_after (a b : row) : not_after row_ltb a b <-> row_le a b.
Proof.
  unfold not_after, row_le. destruct a as [a1 a2], b as [b1 b2].
  rewrite <- row_ltb_lt. unfold row_ltb; simpl.
  rewrite (String.compare_antisym b1 a1), (String.compare_antisym b2 a2).
  destruct (String.compare a1 b1) eqn:H1; simpl.
  - apply string_compare_eq in H1 as ->.
    destruct (String.compare a2 b2) eqn:H2; simpl.
    + apply string_compare_eq in H2 as ->. split; auto.
    + split; auto.
    + split; [done|]. intros [Heq|?]; [|done].
      injection Heq as ->. by rewrite string_compare_refl in H2.
  - split; auto.
  - split; [done|]. intros [Heq|?]; [|done].
    injection Heq as -> ->. by rewrite string_compare_refl in H1.
Qed.

Lemma row_lt_trans (a b c : row) : row_lt a b -> row_lt b c -> row_lt a c.
Proof.
  unfold row_lt. intros [H1 | [H1 H2]] [H3 | [H3 H4]].
  - left. eapply string_compare_lt_trans; eauto.
  - left. by rewrite <- H3.
  - left. by rewrite H1.
  - right. split; [congruence|]. eapply string_compare_lt_trans; eauto.
Qed.

Lemma row_lt_irrefl (a : row) : ~ row_lt a a.
Proof. unfold row_lt. rewrite !string_compare_refl. intros [?|[_ ?]]; done. Qed.

#[local] Instance row_le_trans : Transitive row_le.
Proof.
  intros a b c [->|H1] [->|H2]; unfold row_le; auto.
  right. eapply row_lt_trans; eauto.
Qed.

#[local] Instance row_le_antisym : AntiSymm (=) row_le.
Proof.
  intros a b [->|H1] [Heq|H2]; try done.
  destruct (row_lt_irrefl a). eapply row_lt_trans; eauto.
Qed.

Lemma row_not_after_trans (a b c : row) :
  not_after row_ltb a b -> not_after row_ltb b c -> not_after row_ltb a c.
Proof. rewrite !row_le_not_after. apply row_le_trans. Qed.

Lemma row_not_after_total (a b : row) :
  not_after row_ltb a b -> not_after row_ltb b a -> a = b.
Proof. rewrite !row_le_not_after. apply row_le_antisym. Qed.

Lemma StronglySorted_mono {A : Type} (R R' : relation A) (l : list A) :
  (forall a b, R a b -> R' a b) -> StronglySorted R l -> StronglySorted R' l.
Proof.
  intros HR. induction 1 as [|x l Hs IH Hf]; constructor; [done|].
  eapply Forall_impl; eauto.
Qed.

(** Sorting rows: ascending, a permutation, and blind to the input order. *)
Lemma sort_rows_sorted (l : list row) : StronglySorted row_le (sort_Slice row_ltb l).
Proof.
  apply (StronglySorted_mono (not_after row_ltb)).
  - intros a b. apply row_le_not_after.
  - apply sort_Slice_StronglySorted; [apply row_ltb_asym | apply row_not_after_trans].
Qed.

Lemma sort_rows_perm_eq (l l' : list row) :
  l ≡ₚ l' -> sort_Slice row_ltb l = sort_Slice row_ltb l'.
Proof.
  apply sort_Slice_perm_eq.
  - apply row_ltb_asym.
  - apply row_not_after_trans.
  - apply row_not_after_total.
Qed.

End RowOrder.

Section SortedUpserts.
Context {DB : Type} `{dbConn DB}.

Lemma clonedSortedInputfiles_rows (l : list InputFile.t) :
  map file_row (clonedSortedInputfiles l) = sort_Slice row_ltb (map file_row l).
Proof.
  unfold clonedSortedInputfiles. simpl. apply sort_Slice_map.
  intros a b. unfold row_ltb, file_row, strings_Compare; simpl.
  destruct (String.compare _ _); try done. by destruct (String.compare _ _).
Qed.

Lemma clonedSortedInputStrings_rows (l : list InputString.t) :
  map string_row (clonedSortedInputStrings l) = sort_Slice row_ltb (map string_row l).
Proof.
  unfold clonedSortedInputStrings. simpl. apply sort_Slice_map.
  intros a b. unfold row_ltb, string_row, strings_Compare; simpl.
  destruct (String.compare _ _); try done. by destruct (String.compare _ _).
Qed.

Lemma clonedSortedInputEnvVars_rows (l : list InputEnvVar.t) :
  map envvar_row (clonedSortedInputEnvVars l) = sort_Slice row_ltb (map envvar_row l).
Proof.
  unfold clonedSortedInputEnvVars. simpl. apply sort_Slice_map.
  intros a b. unfold row_ltb, envvar_row, string_lt, string_gt, String.ltb; simpl.
  rewrite (String.compare_antisym (InputEnvVar.Name b) (InputEnvVar.Name a)).
  destruct (String.compare (InputEnvVar.Name a) _); try done.
Qed.

Lemma clonedSortedInputTasks_rows (l : list InputTaskInfo.t) :
  map task_row (clonedSortedInputTasks l) = sort_Slice row_ltb (map task_row l).
Proof.
  unfold clonedSortedInputTasks, slices_SortFunc. simpl. apply sort_Slice_map.
  intros a b. unfold row_ltb, task_row, cmp_Compare, strings_Compare; simpl.
  destruct (String.compare _ _); try done. by destruct (String.compare _ _).
Qed.

Lemma map_inj_eq {A B : Type} (f : A -> B) (l l' : list A) :
  (forall a b, f a = f b -> a = b) -> map f l = map f l' -> l = l'.
Proof.
  intros Hf. revert l'. induction l as [|x l IH]; intros [|y l']; simpl; try done.
  intros [= Hxy Hl]. f_equal; auto.
Qed.

Lemma file_row_inj (a b : InputFile.t) : file_row a = file_row b -> a = b.
Proof. destruct a, b. unfold file_row; simpl. congruence. Qed.

Lemma string_row_inj (a b : InputString.t) : string_row a = string_row b -> a = b.
Proof. destruct a, b. unfold string_row; simpl. congruence. Qed.

Lemma envvar_row_inj (a b : InputEnvVar.t) : envvar_row a = envvar_row b -> a = b.
Proof. destruct a, b. unfold envvar_row; simpl. congruence. Qed.

Lemma task_row_inj (a b : InputTaskInfo.t) : task_row a = task_row b -> a = b.
Proof. destruct a, b. unfold task_row; simpl. congruence. Qed.

(** A sort whose rows are the sorted rows of the input forgets the input
    order. *)
Lemma cloned_sorted_perm_eq {A : Type} (key : A -> row) (srt : list A -> list A)
    (l l' : list A) :
  (forall a b, key a = key b -> a = b) ->
  (forall l, map key (srt l) = sort_Slice row_ltb (map key l)) ->
  l' ≡ₚ l -> srt l' = srt l.
Proof.
  intros Hinj Hrows Hp. apply (map_inj_eq key); [done|].
  rewrite !Hrows. apply sort_rows_perm_eq. by apply Permutation_map.
Qed.

Lemma fold_left_append {A B : Type} (f : A -> list B) (l : list A) (acc : list B) :
  fold_left (fun acc x => acc ++ f x) l acc = acc ++ flat_map f l.
Proof.
  revert acc. induction l as [|x l IH]; intros acc; simpl.
  - by rewrite app_nil_r.
  - by rewrite IH, <- app_assoc.
Qed.

Lemma row_args_map {A : Type} (key : A -> row) (l : list A) :
  flat_map (fun x => [AString (key x).1; AString (key x).2]) l = row_args (map key l).
Proof. unfold row_args. induction l as [|x l IH]; simpl; [done|]. by rewrite IH. Qed.

Lemma issued_queryIDs (query : string) (queryArgs : list arg) (s : session DB) :
  issued (queryIDs query queryArgs) s = [Statement MQuery query queryArgs].
Proof.
  unfold issued, queryIDs, bind, on_error, Query.
  destruct (conn_Query (db s) query queryArgs) as [d [err|rows]]; simpl.
  - by rewrite drop_app_length.
  - destruct (scanIDs rows []) as [ids [err|]]; simpl; by rewrite drop_app_length.
Qed.

(** The shape every bulk upsert has: sort, build the arguments in slice
    order, send one statement. *)
Lemma sends_sorted_rows_intro {A : Type} (key : A -> row) (srt : list A -> list A)
    (ins : list A -> M DB error (list Z)) (mk : nat -> string)
    (s : session DB) (inputs inputs' : list A) :
  (forall a b, key a = key b -> a = b) ->
  (forall l, map key (srt l) = sort_Slice row_ltb (map key l)) ->
  (forall l, ins l = queryIDs (mk (length (srt l))) (row_args (map key (srt l)))) ->
  inputs' ≡ₚ inputs ->
  sends_sorted_rows key ins s inputs inputs'.
Proof.
  intros Hinj Hrows Hins Hp. split.
  - exists (mk (length (srt inputs))), (map key (srt inputs)).
    rewrite Hins, issued_queryIDs. split; [done|]. rewrite Hrows. split.
    + apply sort_rows_sorted.
    + apply sort_Slice_perm.
  - rewrite !Hins. by rewrite (cloned_sorted_perm_eq key srt inputs inputs').
Qed.

End SortedUpserts.

Section UpsertShapes.
Context {DB : Type} `{dbConn DB}.

Lemma insertInputFilesIfNotExist_shape :
  exists mk, forall l : list InputFile.t, insertInputFilesIfNotExist l =
    queryIDs (mk (length (clonedSortedInputfiles l)))
             (row_args (map file_row (clonedSortedInputfiles l))).
Proof.
  eexists (fun n => _ +:+ queryValueStr n 2 +:+ _). intros l.
  unfold insertInputFilesIfNotExist. rewrite fold_left_append. simpl.
  by rewrite <- (row_args_map file_row).
Qed.

Lemma insertInputStringsIfNotExist_shape :
  exists mk, forall l : list InputString.t, insertInputStringsIfNotExist l =
    queryIDs (mk (length (clonedSortedInputStrings l)))
             (row_args (map string_row (clonedSortedInputStrings l))).
Proof.
  eexists (fun n => _ +:+ queryValueStr n 2 +:+ _). intros l.
  unfold insertInputStringsIfNotExist. rewrite fold_left_append. simpl.
  by rewrite <- (row_args_map string_row).
Qed.

Lemma insertInputEnVarsIfNotExist_shape :
  exists mk, forall l : list InputEnvVar.t, insertInputEnVarsIfNotExist l =
    queryIDs (mk (length (clonedSortedInputEnvVars l)))
             (row_args (map envvar_row (clonedSortedInputEnvVars l))).
Proof.
  eexists (fun n => _ +:+ queryValueStr n 2 +:+ _). intros l.
  unfold insertInputEnVarsIfNotExist. rewrite fold_left_append. simpl.
  by rewrite <- (row_args_map envvar_row).
Qed.

Lemma insertInputTaskIfNotExist_shape :
  exists mk, forall l : list InputTaskInfo.t, insertInputTaskIfNotExist l =
    queryIDs (mk (length (clonedSortedInputTasks l)))
             (row_args (map task_row (clonedSortedInputTasks l))).
Proof.
  eexists (fun n => _ +:+ queryValueStr n 2 +:+ _). intros l.
  unfold insertInputTaskIfNotExist. rewrite fold_left_append. simpl.
  by rewrite <- (row_args_map task_row).
Qed.

End UpsertShapes.

(** C1.  Whatever order the files, strings, environment variables and task
    infos of a run are handed over in, each bulk upsert sends one statement
    whose rows are the inputs sorted ascending by (primary attribute,
    digest); a permutation of the inputs sends the same statement, and the
    whole commit of the run is the same computation. *)
Theorem bulk_upsert_rows_sorted {DB : Type} `{dbConn DB} (s : session DB)
    (files files' : list InputFile.t) (strs strs' : list InputString.t)
    (envs envs' : list InputEnvVar.t) (tasks tasks' : list InputTaskInfo.t) :
  files' ≡ₚ files -> strs' ≡ₚ strs -> envs' ≡ₚ envs -> tasks' ≡ₚ tasks ->
  sends_sorted_rows file_row insertInputFilesIfNotExist s files files'
  /\ sends_sorted_rows string_row insertInputStringsIfNotExist s strs strs'
  /\ sends_sorted_rows envvar_row insertInputEnVarsIfNotExist s envs envs'
  /\ sends_sorted_rows task_row insertInputTaskIfNotExist s tasks tasks'
  /\ forall app task rev dirty digest start stop result outputs,
       SaveTaskRun (TaskRunFull.Build app task rev dirty digest start stop result
                      (Inputs.Build files' strs' envs' tasks') outputs) s
       = SaveTaskRun (TaskRunFull.Build app task rev dirty digest start stop result
                        (Inputs.Build files strs envs tasks) outputs) s.
Proof.
  intros Hf Hs He Ht. repeat split.
  - destruct insertInputFilesIfNotExist_shape as [mk Hmk].
    eapply (sends_sorted_rows_intro file_row clonedSortedInputfiles _ mk);
      eauto using file_row_inj, clonedSortedInputfiles_rows.
  - destruct insertInputFilesIfNotExist_shape as [mk Hmk].
    eapply (sends_sorted_rows_intro file_row clonedSortedInputfiles _ mk);
      eauto using file_row_inj, clonedSortedInputfiles_rows.
  - destruct insertInputStringsIfNotExist_shape as [mk Hmk].
    eapply (sends_sorted_rows_intro string_row clonedSortedInputStrings _ mk);
      eauto using string_row_inj, clonedSortedInputStrings_rows.
  - destruct insertInputStringsIfNotExist_shape as [mk Hmk].
    eapply (sends_sorted_rows_intro string_row clonedSortedInputStrings _ mk);
      eauto using string_row_inj, clonedSortedInputStrings_rows.
  - destruct insertInputEnVarsIfNotExist_shape as [mk Hmk].
    eapply (sends_sorted_rows_intro envvar_row clonedSortedInputEnvVars _ mk);
      eauto using envvar_row_inj, clonedSortedInputEnvVars_rows.
  - destruct insertInputEnVarsIfNotExist_shape as [mk Hmk].
    eapply (sends_sorted_rows_intro envvar_row clonedSortedInputEnvVars _ mk);
      eauto using envvar_row_inj, clonedSortedInputEnvVars_rows.
  - destruct insertInputTaskIfNotExist_shape as [mk Hmk].
    eapply (sends_sorted_rows_intro task_row clonedSortedInputTasks _ mk);
      eauto using task_row_inj, clonedSortedInputTasks_rows.
  - destruct insertInputTaskIfNotExist_shape as [mk Hmk].
    eapply (sends_sorted_rows_intro task_row clonedSortedInputTasks _ mk);
      eauto using task_row_inj, clonedSortedInputTasks_rows.
  - intros. unfold SaveTaskRun, saveTaskRun.
    unfold insertTaskRunInputFilesIfNotExist, insertInputFilesIfNotExist,
      insertTaskRunInputStringsIfNotExist, insertInputStringsIfNotExist,
      insertTaskRunInputEnvVarsIfNotExist, insertInputEnVarsIfNotExist,
      insertTaskRunInputTasksIfNotExist, insertInputTaskIfNotExist.
    cbn [TaskRunFull.Inputs Inputs.Files Inputs.Strings Inputs.EnvironmentVariables
         Inputs.TaskInfo].
    rewrite (Permutation_length Hf), (Permutation_length Hs),
      (Permutation_length He), (Permutation_length Ht).
    rewrite (cloned_sorted_perm_eq file_row clonedSortedInputfiles files files'
               file_row_inj clonedSortedInputfiles_rows Hf).
    rewrite (cloned_sorted_perm_eq string_row clonedSortedInputStrings strs strs'
               string_row_inj clonedSortedInputStrings_rows Hs).
    rewrite (cloned_sorted_perm_eq envvar_row clonedSortedInputEnvVars envs envs'
               envvar_row_inj clonedSortedInputEnvVars_rows He).
    rewrite (cloned_sorted_perm_eq task_row clonedSortedInputTasks tasks tasks'
               task_row_inj clonedSortedInputTasks_rows Ht).
    reflexivity.
Qed.

Lemma bulk_upsert_rows_sorted_witness :
  sends_sorted_rows file_row insertInputFilesIfNotExist (Session [] Registry_empty)
    [InputFile.Build "a/x.c" "sha384:02"; InputFile.Build "a/x.c" "sha384:01";
     InputFile.Build "a/b.c" "sha384:ff"]
    [InputFile.Build "a/b.c" "sha384:ff"; InputFile.Build "a/x.c" "sha384:02";
     InputFile.Build "a/x.c" "sha384:01"]
  /\ sends_sorted_rows string_row insertInputStringsIfNotExist (Session [] Registry_empty)
       [InputString.Build "y" "sha384:0b"; InputString.Build "x" "sha384:0a"]
       [InputString.Build "x" "sha384:0a"; InputString.Build "y" "sha384:0b"].
Proof.
  pose proof (bulk_upsert_rows_sorted (Session [] Registry_empty)
    [InputFile.Build "a/x.c" "sha384:02"; InputFile.Build "a/x.c" "sha384:01";
     InputFile.Build "a/b.c" "sha384:ff"]
    [InputFile.Build "a/b.c" "sha384:ff"; InputFile.Build "a/x.c" "sha384:02";
     InputFile.Build "a/x.c" "sha384:01"]
    [InputString.Build "y" "sha384:0b"; InputString.Build "x" "sha384:0a"]
    [InputString.Build "x" "sha384:0a"; InputString.Build "y" "sha384:0b"]
    [] [] [] []) as W.
  destruct W as (Wf & Ws & _).
  - apply (Permutation_cons_append [_; _]).
  - apply perm_swap.
  - apply perm_nil.
  - apply perm_nil.
  - exact (conj Wf Ws).
Defined.

(** The statement the files of the example above are sent with. *)
Example insertInputFilesIfNotExist_example :
  issued (insertInputFilesIfNotExist
            [InputFile.Build "a/x.c" "sha384:02"; InputFile.Build "a/x.c" "sha384:01";
             InputFile.Build "a/b.c" "sha384:ff"]) (Session [] Registry_empty)
  = [Statement MQuery
       "INSERT INTO input_file (path, digest) VALUES ($1, $2),  ($3, $4),  ($5, $6) ON CONFLICT ON CONSTRAINT input_file_path_digest_uniq DO UPDATE SET id=input_file.id RETURNING id"
       [AString "a/b.c"; AString "sha384:ff"; AString "a/x.c"; AString "sha384:01";
        AString "a/x.c"; AString "sha384:02"]].
Proof. vm_compute. reflexivity. Qed.

(** ** Empty input kinds *)

(** Unfold the plumbing of a computation on a session. *)
Ltac run_db :=
  unfold queryIDs, execPairs, on_error, Query, QueryRow, Exec, BeginFunc;
  unfold bind, fail, ret; cbn beta.

Lemma issued_unchanged {DB E A : Type} (m : M DB E A) (s : session DB) (r : E + A) :
  m s = (s, r) -> issued m s = [].
Proof. intros Hm. unfold issued. rewrite Hm. simpl. by rewrite drop_all. Qed.

(** C10.  With an empty list of strings, files, environment variables, task
    infos or outputs, the insert function returns nil at once: the session
    is the one it was called in, and no statement was sent. *)
Theorem empty_kind_sends_no_statement {DB : Type} `{dbConn DB} (s : session DB)
    (taskRunID : Z) :
  (insertTaskRunInputStringsIfNotExist taskRunID [] s = (s, inr tt)
   /\ issued (insertTaskRunInputStringsIfNotExist taskRunID []) s = [])
  /\ (insertTaskRunInputFilesIfNotExist taskRunID [] s = (s, inr tt)
      /\ issued (insertTaskRunInputFilesIfNotExist taskRunID []) s = [])
  /\ (insertTaskRunInputEnvVarsIfNotExist taskRunID [] s = (s, inr tt)
      /\ issued (insertTaskRunInputEnvVarsIfNotExist taskRunID []) s = [])
  /\ (insertTaskRunInputTasksIfNotExist taskRunID [] s = (s, inr tt)
      /\ issued (insertTaskRunInputTasksIfNotExist taskRunID []) s = [])
  /\ (insertTaskOutputsIfNotExist taskRunID [] s = (s, inr tt)
      /\ issued (insertTaskOutputsIfNotExist taskRunID []) s = []).
Proof.
  repeat split; try reflexivity; by apply (issued_unchanged _ _ (inr tt)).
Qed.

(** By contrast, a kind with at least one member reaches the database. *)
Lemma nonempty_files_send_a_statement {DB : Type} `{dbConn DB} (s : session DB)
    (taskRunID : Z) (f : InputFile.t) (files : list InputFile.t) :
  issued (insertTaskRunInputFilesIfNotExist taskRunID (f :: files)) s <> [].
Proof.
  unfold insertTaskRunInputFilesIfNotExist. cbn [length Nat.eqb].
  destruct (insertInputFilesIfNotExist_shape (DB := DB)) as [mk Hmk]. rewrite Hmk.
  unfold issued. run_db.
  destruct (conn_Query _ _ _) as [d [err|rows]]; cbn -[drop].
  - rewrite drop_app_length. done.
  - destruct (scanIDs rows []) as [ids [err|]]; cbn -[drop].
    + rewrite drop_app_length. done.
    + destruct (conn_Exec _ _ _) as [d' [err|]]; cbn -[drop];
        rewrite <- app_assoc, drop_app_length; done.
Qed.

(** ** Releases *)

Section Releases.
Context {DB : Type} `{dbConn DB}.

Lemma name_conflict_dec (err : drvError) :
  match errors_As_PgError err with
  | Some pgErr =>
      String.eqb (Code pgErr) "23505" && String.eqb (ConstraintName pgErr) "release_name_uniq"
  | None => false
  end = true <-> is_release_name_conflict err.
Proof.
  unfold is_release_name_conflict. destruct (errors_As_PgError err) as [pg|].
  - rewrite andb_true_iff, !String.eqb_eq. split.
    + intros [? ?]. by exists pg.
    + intros (pg' & [= <-] & ? & ?). done.
  - split; [done|]. by intros (pg' & ? & _).
Qed.

(** What [insertRelease] returns, by the outcome of reading the metadata and
    of the INSERT. *)
Lemma insertRelease_result (name : string) (createdAt : Z) (metadata : option io_Reader)
    (s : session DB) :
  (insertRelease name createdAt metadata s).2 =
  match readMetadata metadata with
  | inl err => inl (fmt_Errorf_drv "reading metadata failed: %w" err)
  | inr data =>
      match (conn_QueryRow (db s) insertRelease_query
               [AString name; ATime createdAt; ABytes data]).2 with
      | inr id => inr id
      | inl err =>
          match errors_As_PgError err with
          | Some pgErr =>
              if String.eqb (Code pgErr) "23505"
                 && String.eqb (ConstraintName pgErr) "release_name_uniq"
              then inl ErrExists
              else inl (match metadata with
                        | None => newQueryError insertRelease_query err [AString name]
                        | Some _ => newQueryError insertRelease_query err
                                      [AString name; AString "<OMITTED-RELEASE-METADATA>"]
                        end)
          | None => inl (match metadata with
                         | None => newQueryError insertRelease_query err [AString name]
                         | Some _ => newQueryError insertRelease_query err
                                       [AString name; AString "<OMITTED-RELEASE-METADATA>"]
                         end)
          end
      end
  end.
Proof.
  unfold insertRelease. run_db.
  destruct (readMetadata metadata) as [err|data]; [done|].
  destruct (conn_QueryRow _ _ _) as [d [err|id]]; simpl; [|done].
  destruct (errors_As_PgError err) as [pg|]; [|done].
  by destruct (_ && _).
Qed.

Lemma insertRelease_ErrExists_iff (name : string) (createdAt : Z)
    (metadata : option io_Reader) (s : session DB) :
  (insertRelease name createdAt metadata s).2 = inl ErrExists <->
  exists data err,
    readMetadata metadata = inr data
    /\ (conn_QueryRow (db s) insertRelease_query
          [AString name; ATime createdAt; ABytes data]).2 = inl err
    /\ is_release_name_conflict err.
Proof.
  rewrite insertRelease_result.
  destruct (readMetadata metadata) as [rerr|data].
  { split; [done|]. by intros (? & ? & ? & _). }
  destruct ((conn_QueryRow _ _ _).2) as [err|id] eqn:Hq.
  2:{ split; [done|]. intros (? & ? & [= <-] & Hq' & _). by rewrite Hq in Hq'. }
  pose proof (name_conflict_dec err) as Hdec. split.
  - intros Hr. exists data, err. split; [done|]. split; [done|]. apply Hdec.
    destruct (errors_As_PgError err) as [pg|].
    + destruct (_ && _); [done|]. by destruct metadata.
    + by destruct metadata.
  - intros (data' & err' & [= <-] & Hq' & Hc). rewrite Hq in Hq'.
    injection Hq' as <-. apply Hdec in Hc.
    destruct (errors_As_PgError err) as [pg|]; [|done]. by rewrite Hc.
Qed.

(** An empty list of task runs: the release row, if it was written, is
    rolled back. *)
Lemma CreateRelease_nil (name : string) (createdAt : Z) (metadata : option io_Reader)
    (s : session DB) :
  db (CreateRelease name createdAt [] metadata s).1 = db s
  /\ (CreateRelease name createdAt [] metadata s).2 =
     match (insertRelease name createdAt metadata s).2 with
     | inl err => inl err
     | inr _ => inl ErrEmptyRelease
     end.
Proof.
  unfold CreateRelease, insertReleaseTaskRun. cbn [length Nat.eqb].
  unfold BeginFunc, bind, fail, ErrEmptyRelease.
  destruct (insertRelease name createdAt metadata s) as [s' [err|id]]; simpl; done.
Qed.

(** A failing [f] leaves the database as it was. *)
Lemma BeginFunc_rollback {E A : Type} (f : M DB E A) (s : session DB) (err : E) :
  (f s).2 = inl err -> db (BeginFunc f s).1 = db s /\ (BeginFunc f s).2 = inl err.
Proof. unfold BeginFunc. destruct (f s) as [s' [e|a]]; simpl; [|done]. by intros [= ->]. Qed.

End Releases.

Section ReleaseTables.

Lemma Registry_name_taken (r : Registry) (name : string) (createdAt : Z)
    (data : option (list ascii)) :
  is_Some (release r !! name) ->
  conn_QueryRow r insertRelease_query [AString name; ATime createdAt; ABytes data]
  = (r, inl (DrvPg {| Code := "23505"; ConstraintName := "release_name_uniq" |})).
Proof.
  intros [row Hrow]. simpl. unfold Registry_QueryRow.
  rewrite String.eqb_refl. by rewrite Hrow.
Qed.

Lemma Registry_conflict_is_conflict :
  is_release_name_conflict
    (DrvPg {| Code := "23505"; ConstraintName := "release_name_uniq" |}).
Proof. by eexists. Qed.

Lemma CreateRelease_name_taken (s : session Registry) (name : string) (createdAt : Z)
    (taskRunIDs : list Z) (metadata : option io_Reader) (data : option (list ascii)) :
  is_Some (release (db s) !! name) ->
  readMetadata metadata = inr data ->
  (CreateRelease name createdAt taskRunIDs metadata s).2 = inl ErrExists
  /\ db (CreateRelease name createdAt taskRunIDs metadata s).1 = db s.
Proof.
  intros Hname Hmd.
  assert ((insertRelease name createdAt metadata s).2 = inl ErrExists) as Hins.
  { apply insertRelease_ErrExists_iff. eexists data, _. split; [done|].
    rewrite Registry_name_taken by done. split; [done|].
    apply Registry_conflict_is_conflict. }
  unfold CreateRelease.
  apply and_comm, BeginFunc_rollback. unfold bind.
  destruct (insertRelease name createdAt metadata s) as [s' [err|id]]; simpl in *; congruence.
Qed.

(** A release that was created is in the table. *)
Lemma CreateRelease_persists (s s1 : session Registry) (name : string) (createdAt : Z)
    (taskRunIDs : list Z) (metadata : option io_Reader) :
  CreateRelease name createdAt taskRunIDs metadata s = (s1, inr tt) ->
  is_Some (release (db s1) !! name).
Proof.
  unfold CreateRelease, insertRelease, insertReleaseTaskRun. run_db.
  destruct (readMetadata metadata) as [err|data]; [done|].
  cbn [conn_QueryRow conn_Exec Registry_dbConn]. unfold Registry_QueryRow.
  rewrite String.eqb_refl.
  destruct (release (db s) !! name) as [row|] eqn:Hrow; [done|].
  cbn [db log]. destruct (length taskRunIDs =? 0)%nat; [done|].
  unfold Registry_Exec.
  destruct (String.prefix _ _); [|done].
  destruct (int_args _) as [[|releaseID ids]|]; try done.
  cbn. intros [= <-]. cbn. rewrite lookup_insert_eq. by eexists.
Qed.

End ReleaseTables.

(** A metadata reader that fails ends [CreateRelease] before any
    statement is sent. *)
Lemma CreateRelease_unreadable_metadata {DB : Type} `{dbConn DB} (s : session DB)
    (name : string) (createdAt : Z) (taskRunIDs : list Z) (metadata : option io_Reader)
    (err : drvError) :
  readMetadata metadata = inl err ->
  CreateRelease name createdAt taskRunIDs metadata s
  = (s, inl (fmt_Errorf_drv "reading metadata failed: %w" err)).
Proof.
  intros Hmd. unfold CreateRelease, BeginFunc, insertRelease, bind, fail.
  rewrite Hmd. by destruct s.
Qed.

(** Against C5 as it stands: the name "v1" is taken, and creating a release
    under it with metadata that cannot be read fails with the error of the
    reader, not with [ErrExists]; no statement was sent.  The same holds
    for a second creation right after the first. *)
Lemma CreateRelease_name_taken_unreadable_metadata :
  let metadata := Some {| io_ReadAll := inl (DrvOther "unexpected EOF") |} in
  let first := CreateRelease "v1" 10 [7] None (Session [] Registry_empty) in
  is_Some (release Registry_v1 !! "v1")
  /\ CreateRelease "v1" 20 [8] metadata (Session [] Registry_v1)
     = (Session [] Registry_v1,
        inl (fmt_Errorf_drv "reading metadata failed: %w" (DrvOther "unexpected EOF")))
  /\ (CreateRelease "v1" 20 [8] metadata (Session [] Registry_v1)).2 <> inl ErrExists
  /\ first.2 = inr tt
  /\ (CreateRelease "v1" 20 [8] metadata first.1).2
     = inl (fmt_Errorf_drv "reading metadata failed: %w" (DrvOther "unexpected EOF"))
  /\ (CreateRelease "v1" 20 [8] metadata first.1).2 <> inl ErrExists.
Proof.
  cbv zeta. split; [vm_compute; by eexists|].
  split; [vm_compute; reflexivity|]. split; [vm_compute; discriminate|].
  split; [vm_compute; reflexivity|]. split; [vm_compute; reflexivity|].
  vm_compute; discriminate.
Qed.

(** C5 (amended).  [insertRelease] returns [ErrExists] exactly when the
    INSERT into [release] was reached and failed with a unique violation
    (23505) on [release_name_uniq]; no other database error is mapped to it.
    On the release table, creating a release whose name is taken, with
    metadata that is nil or can be read, therefore fails with [ErrExists]
    and leaves the registry as it was, and so does every second creation
    under the name of a release that was created.  When the metadata cannot
    be read, [CreateRelease] fails with the error of the reader, wrapped,
    before any statement is sent, whether the name is taken or not. *)
Theorem release_name_taken_is_ErrExists :
  (forall (DB : Type) (Hdb : dbConn DB) (s : session DB) name createdAt metadata,
     (insertRelease name createdAt metadata s).2 = inl ErrExists <->
     exists data err,
       readMetadata metadata = inr data
       /\ (conn_QueryRow (db s) insertRelease_query
             [AString name; ATime createdAt; ABytes data]).2 = inl err
       /\ is_release_name_conflict err)
  /\ (forall (s : session Registry) name createdAt taskRunIDs metadata data,
        is_Some (release (db s) !! name) ->
        readMetadata metadata = inr data ->
        (CreateRelease name createdAt taskRunIDs metadata s).2 = inl ErrExists
        /\ db (CreateRelease name createdAt taskRunIDs metadata s).1 = db s)
  /\ (forall (s s1 : session Registry) name createdAt taskRunIDs metadata
             createdAt' taskRunIDs' metadata' data',
        CreateRelease name createdAt taskRunIDs metadata s = (s1, inr tt) ->
        readMetadata metadata' = inr data' ->
        (CreateRelease name createdAt' taskRunIDs' metadata' s1).2 = inl ErrExists)
  /\ (forall (DB : Type) (Hdb : dbConn DB) (s : session DB) name createdAt taskRunIDs
             metadata err,
        readMetadata metadata = inl err ->
        CreateRelease name createdAt taskRunIDs metadata s
        = (s, inl (fmt_Errorf_drv "reading metadata failed: %w" err))
        /\ issued (CreateRelease name createdAt taskRunIDs metadata) s = []).
Proof.
  split; [|split; [|split]].
  - intros. apply insertRelease_ErrExists_iff.
  - intros. by eapply CreateRelease_name_taken.
  - intros * Hfirst Hmd.
    eapply CreateRelease_name_taken; [|done].
    by eapply CreateRelease_persists.
  - intros DB Hdb s name createdAt taskRunIDs metadata err Hmd.
    unfold issued.
    rewrite (CreateRelease_unreadable_metadata s name createdAt taskRunIDs metadata err Hmd).
    split; [done|]. apply drop_all.
Qed.

Lemma release_name_taken_is_ErrExists_witness :
  (CreateRelease "v1" 20 [8; 9] None (Session [] Registry_v1)).2 = inl ErrExists
  /\ (CreateRelease "v1" 20 [8]
        (Some {| io_ReadAll := inr ["{"%char; "}"%char] |})
        (CreateRelease "v1" 10 [7] None (Session [] Registry_empty)).1).2
     = inl ErrExists.
Proof.
  destruct release_name_taken_is_ErrExists as (_ & Htaken & Hsecond & _). split.
  - refine (proj1 (Htaken (Session [] Registry_v1) "v1" 20 [8; 9] None None _ _)).
    + vm_compute. by eexists.
    + reflexivity.
  - refine (Hsecond (Session [] Registry_empty) _ "v1" 10 [7] None 20 [8] _ _ _ _).
    + vm_compute. reflexivity.
    + reflexivity.
Defined.

(** Against C6 as it stands: with an empty list of task runs and a name
    that is taken, [CreateRelease] reports the name, not the empty list; the
    release row is inserted before the list is looked at. *)
Lemma CreateRelease_empty_list_name_taken :
  (CreateRelease "v1" 20 [] None (Session [] Registry_v1)).2 = inl ErrExists
  /\ (CreateRelease "v1" 20 [] None (Session [] Registry_v1)).2 <> inl ErrEmptyRelease.
Proof.
  assert ((CreateRelease "v1" 20 [] None (Session [] Registry_v1)).2 = inl ErrExists) as Hr.
  { vm_compute. reflexivity. }
  split; [exact Hr|]. rewrite Hr. discriminate.
Qed.

(** C6 (amended).  [CreateRelease] with an empty list of task runs always
    fails and leaves the database as it was.  When the release row could be
    inserted the error is that no task run IDs were specified, and the row
    is rolled back; when inserting the row failed (metadata that cannot be
    read, a name that is taken, another database error) that error is
    returned instead.  On the release table: a name that was free is still
    free afterwards, although [insertRelease] had written the row. *)
Theorem CreateRelease_empty_list_rolls_back :
  (forall (DB : Type) (Hdb : dbConn DB) (s : session DB) name createdAt metadata,
     db (CreateRelease name createdAt [] metadata s).1 = db s
     /\ (CreateRelease name createdAt [] metadata s).2 =
        match (insertRelease name createdAt metadata s).2 with
        | inl err => inl err
        | inr _ => inl ErrEmptyRelease
        end)
  /\ (forall (s : session Registry) name createdAt metadata data,
        release (db s) !! name = None ->
        readMetadata metadata = inr data ->
        is_Some (release (db (insertRelease name createdAt metadata s).1) !! name)
        /\ (CreateRelease name createdAt [] metadata s).2 = inl ErrEmptyRelease
        /\ release (db (CreateRelease name createdAt [] metadata s).1) !! name = None).
Proof.
  split.
  - intros. apply CreateRelease_nil.
  - intros s name createdAt metadata data Hfree Hmd.
    destruct (CreateRelease_nil name createdAt metadata s) as [Hdb Hres].
    rewrite Hdb, Hres, insertRelease_result, Hmd.
    unfold insertRelease. run_db. rewrite Hmd.
    cbn [conn_QueryRow Registry_dbConn]. unfold Registry_QueryRow.
    rewrite String.eqb_refl, Hfree. cbn.
    rewrite lookup_insert_eq. split; [by eexists|done].
Qed.

Lemma CreateRelease_empty_list_rolls_back_witness :
  is_Some (release (db (insertRelease "v2" 20 None (Session [] Registry_v1)).1) !! "v2")
  /\ (CreateRelease "v2" 20 [] None (Session [] Registry_v1)).2 = inl ErrEmptyRelease
  /\ release (db (CreateRelease "v2" 20 [] None (Session [] Registry_v1)).1) !! "v2" = None.
Proof.
  refine (proj2 CreateRelease_empty_list_rolls_back
            (Session [] Registry_v1) "v2" 20 None None _ _).
  - vm_compute. reflexivity.
  - reflexivity.
Defined.

(** ** The text of the VALUES clauses *)

Section ValuesClauses.

Lemma append_assoc (a b c : string) : (a +:+ b) +:+ c = a +:+ b +:+ c.
Proof. induction a as [|x a IH]; [done|]. exact (f_equal (String x) IH). Qed.

Lemma append_nil_r (a : string) : a +:+ "" = a.
Proof. induction a as [|x a IH]; [done|]. exact (f_equal (String x) IH). Qed.

(** [i < n - 1] in a loop over [0 .. n-1] that has [m] rounds to go after
    round [i]. *)
Lemma more_to_come (i m n : nat) :
  (i + S m = n)%nat -> (Z.of_nat i <? Z.of_nat n - 1) = negb (m =? 0)%nat.
Proof.
  intros <-. destruct m as [|m]; simpl negb.
  - apply Z.ltb_ge. lia.
  - apply Z.ltb_lt. lia.
Qed.

Lemma concat_cons (sep x : string) (l : list string) :
  l <> [] -> String.concat sep (x :: l) = x +:+ sep +:+ String.concat sep l.
Proof. by destruct l. Qed.

(** The loop of [queryValuePairFirstConstStr] from round [i] on. *)
Lemma pairs_loop (n m i a : nat) (res : string) :
  (i + m = n)%nat ->
  fold_left (fun '(res, argNr) i =>
    let res := res +:+ "($1, $" +:+ itoa argNr +:+ ")" in
    let argNr := S argNr in
    let res := if Z.of_nat i <? Z.of_nat n - 1 then res +:+ ", " else res in
    (res, argNr)) (seq i m) (res, a)
  = (res +:+ String.concat ", " (map pair_first_const (seq a m)), (a + m)%nat).
Proof.
  revert i a res. induction m as [|m IH]; intros i a res Hn.
  - simpl. by rewrite append_nil_r, Nat.add_0_r.
  - cbn [seq fold_left map]. rewrite (more_to_come i m n Hn).
    rewrite IH by lia. f_equal; [|lia].
    destruct m as [|m]; cbn [Nat.eqb negb].
    + cbn [seq map String.concat]. by rewrite append_nil_r.
    + cbn [seq map]. rewrite (concat_cons _ _ (_ :: _)) by done.
      unfold pair_first_const. by rewrite !append_assoc.
Qed.

Lemma queryValuePairFirstConstStr_eq (pairsCount : nat) :
  queryValuePairFirstConstStr pairsCount = pairs_clause pairsCount.
Proof. exact (f_equal fst (pairs_loop pairsCount pairsCount 0 2 "" eq_refl)). Qed.

(** The inner loop of [queryValueStr] from round [j] on. *)
Lemma params_loop (k m j a : nat) (res : string) :
  (j + m = k)%nat ->
  fold_left (fun '(res, argNr) j =>
        let res := res +:+ "$" +:+ itoa argNr in
        let argNr := S argNr in
        let res := if Z.of_nat j <? Z.of_nat k - 1
                   then res +:+ ", " else res in
        (res, argNr)) (seq j m) (res, a)
  = (res +:+ params a m, (a + m)%nat).
Proof.
  revert j a res. induction m as [|m IH]; intros j a res Hn.
  - simpl. by rewrite append_nil_r, Nat.add_0_r.
  - cbn [seq fold_left map]. rewrite (more_to_come j m k Hn).
    rewrite IH by lia. f_equal; [|lia]. unfold params.
    destruct m as [|m]; cbn [Nat.eqb negb].
    + cbn [seq map String.concat]. by rewrite append_nil_r.
    + cbn [seq map]. rewrite (concat_cons _ _ (_ :: _)) by done.
      by rewrite !append_assoc.
Qed.

(** The outer loop of [queryValueStr] from round [i] on: every round but
    the first starts with a blank, every round but the last ends with a
    comma and a blank. *)
Lemma groups_loop (n k m i a : nat) (res : string) :
  (i + m = n)%nat -> a = (1 + i * k)%nat ->
  fold_left (fun '(res, argNr) i =>
    let res := if (0 <? i)%nat then res +:+ " " else res in
    let res := res +:+ "(" in
    let '(res, argNr) :=
      fold_left (fun '(res, argNr) j =>
        let res := res +:+ "$" +:+ itoa argNr in
        let argNr := S argNr in
        let res := if Z.of_nat j <? Z.of_nat k - 1
                   then res +:+ ", " else res in
        (res, argNr)) (seq 0 k) (res, argNr) in
    let res := res +:+ ")" in
    let res := if Z.of_nat i <? Z.of_nat n - 1 then res +:+ ", " else res in
    (res, argNr)) (seq i m) (res, a)
  = (res +:+ (if (0 <? i)%nat && negb (m =? 0)%nat then " " else "")
         +:+ String.concat ",  " (map (group k) (seq i m)),
     (1 + (i + m) * k)%nat).
Proof.
  revert i a res. induction m as [|m IH]; intros i a res Hn ->.
  - simpl. rewrite andb_false_r. simpl. rewrite append_nil_r. f_equal. lia.
  - cbn [seq fold_left map]. rewrite (params_loop k k 0) by done.
    rewrite (more_to_come i m n Hn).
    rewrite IH by lia. f_equal; [|lia].
    cbn [Nat.eqb negb]. rewrite andb_true_r.
    change (0 <? S i)%nat with true. cbn [andb].
    unfold group at 2.
    destruct m as [|m]; cbn [Nat.eqb negb].
    + cbn [seq map String.concat]. rewrite !append_nil_r.
      destruct (0 <? i)%nat; by rewrite !append_assoc.
    + cbn [seq map]. rewrite (concat_cons _ _ (_ :: _)) by done.
      destruct (0 <? i)%nat; rewrite !append_assoc; reflexivity.
Qed.

Lemma queryValueStr_eq (pairsCount argsPerPair : nat) :
  queryValueStr pairsCount argsPerPair = values_clause pairsCount argsPerPair.
Proof.
  exact (f_equal fst
           (groups_loop pairsCount argsPerPair pairsCount 0 1 "" eq_refl eq_refl)).
Qed.

(** The loop of [strArgList] from round [i] on. *)
Lemma strArgList_loop (fmt_v : arg -> string) (n i : nat) (l : list arg) (res : string) :
  (i + length l = n)%nat ->
  fold_left (fun result '(i, a) =>
      let result := result +:+ "'" +:+ fmt_v a +:+ "'" in
      if Z.of_nat i <? Z.of_nat n - 1 then result +:+ ", " else result)
      (zip (seq i (length l)) l) res
  = res +:+ String.concat ", " (map (quoted fmt_v) l).
Proof.
  revert i res. induction l as [|a l IH]; intros i res Hn.
  - simpl. by rewrite append_nil_r.
  - cbn [length seq zip zip_with fold_left map]. cbn [length] in Hn.
    rewrite (more_to_come i (length l) n Hn).
    rewrite IH by lia.
    destruct l as [|b l]; cbn [length Nat.eqb negb].
    + cbn [map String.concat]. by rewrite append_nil_r.
    + cbn [map]. rewrite (concat_cons _ _ (_ :: _)) by done.
      unfold quoted. by rewrite !append_assoc.
Qed.

Lemma strArgList_eq (fmt_v : arg -> string) (args : list arg) :
  strArgList fmt_v args = arg_list fmt_v args.
Proof.
  unfold arg_list. rewrite <- append_assoc.
  exact (f_equal (fun r => r +:+ "]")
           (strArgList_loop fmt_v (length args) 0 args "[" eq_refl)).
Qed.

End ValuesClauses.

(** X1.  [queryValueStr] writes its [pairsCount] groups with the parameters
    numbered through from [$1] to [$(pairsCount * argsPerPair)], row by
    row, the groups separated by a comma and two blanks, and nothing for no
    group; [queryValuePairFirstConstStr] writes the pairs [($1, $2)],
    [($1, $3)], ..., the first parameter the same in every pair; and
    [strArgList] writes the arguments in quotes between brackets.  None of
    the three ends with a separator. *)
Theorem values_clauses_number_the_parameters_through (pairsCount argsPerPair : nat)
    (fmt_v : arg -> string) (args : list arg) :
  queryValueStr pairsCount argsPerPair = values_clause pairsCount argsPerPair
  /\ queryValuePairFirstConstStr pairsCount = pairs_clause pairsCount
  /\ strArgList fmt_v args = arg_list fmt_v args.
Proof.
  split; [apply queryValueStr_eq|].
  split; [apply queryValuePairFirstConstStr_eq|apply strArgList_eq].
Qed.

Example queryValueStr_example :
  queryValueStr 2 3 = "($1, $2, $3),  ($4, $5, $6)"
  /\ queryValueStr 0 4 = ""
  /\ queryValuePairFirstConstStr 3 = "($1, $2), ($1, $3), ($1, $4)"
  /\ strArgList (fun a => match a with AString s => s | _ => "?" end)
       [AString "a.go"; AString "sha384:01"] = "['a.go', 'sha384:01']".
Proof. repeat split; reflexivity. Qed.

(** ** Collecting the returned ids *)

Lemma scanIDs_rows_app (ids : list Z) (rest : list (drvError + Z))
    (final : option drvError) (res : list Z) :
  scanIDs_rows (map inr ids ++ rest) final res = scanIDs_rows rest final (res ++ ids).
Proof.
  revert res. induction ids as [|id ids IH]; intros res; simpl.
  - by rewrite app_nil_r.
  - by rewrite IH, <- app_assoc.
Qed.

(** X2.  [scanIDs] appends the ids of the rows to [res] in the order of the
    rows.  When every row scans, it returns what [rows.Err()] says; at the
    first row that does not scan it stops with that error, and [res] holds
    the ids of the rows before it: the rows after it are not looked at. *)
Theorem scanIDs_collects_until_first_error (ids : list Z) (final : option drvError)
    (err : drvError) (rest : list (drvError + Z)) (res : list Z) :
  scanIDs {| rows_Scan := map inr ids; rows_Err := final |} res = (res ++ ids, final)
  /\ scanIDs {| rows_Scan := map inr ids ++ inl err :: rest; rows_Err := final |} res
     = (res ++ ids, Some err).
Proof.
  unfold scanIDs; simpl. split.
  - rewrite <- (app_nil_r (map inr ids)). by rewrite scanIDs_rows_app.
  - by rewrite scanIDs_rows_app.
Qed.

(** ** Parameters and arguments of the bulk inserts *)

Section BulkInserts.
Context {DB : Type} `{dbConn DB}.

Lemma length_flat_map_const {A B : Type} (f : A -> list B) (k : nat) (l : list A) :
  (forall x, length (f x) = k) -> length (flat_map f l) = (length l * k)%nat.
Proof.
  intros Hk. induction l as [|x l IH]; simpl; [done|].
  rewrite length_app, Hk, IH. lia.
Qed.

Lemma sort_Slice_length {A : Type} (less : A -> A -> bool) (l : list A) :
  length (sort_Slice less l) = length l.
Proof. apply Permutation_length, sort_Slice_perm. Qed.

(** X3.  Each of the five bulk inserts sends one statement whose VALUES
    clause has one group for each row handed over, with the parameters
    numbered through, and which carries exactly as many arguments as the
    clause has parameters: two for each file, string, environment variable
    and task info, four for each upload. *)
Theorem bulk_insert_parameters_match_arguments (s : session DB)
    (files : list InputFile.t) (strs : list InputString.t)
    (envs : list InputEnvVar.t) (tasks : list InputTaskInfo.t) (uploads : list Upload.t) :
  (exists args,
     issued (insertInputFilesIfNotExist files) s
     = [Statement MQuery
          ("INSERT INTO input_file (path, digest) VALUES "
           +:+ values_clause (length files) 2 +:+ " "
           +:+ "ON CONFLICT ON CONSTRAINT input_file_path_digest_uniq DO UPDATE SET id=input_file.id RETURNING id")
          args]
     /\ length args = (length files * 2)%nat)
  /\ (exists args,
        issued (insertInputStringsIfNotExist strs) s
        = [Statement MQuery
             ("INSERT INTO input_string (string, digest) VALUES "
              +:+ values_clause (length strs) 2 +:+ " "
              +:+ "ON CONFLICT ON CONSTRAINT input_string_digest_uniq DO UPDATE SET id=input_string.id RETURNING id")
             args]
        /\ length args = (length strs * 2)%nat)
  /\ (exists args,
        issued (insertInputEnVarsIfNotExist envs) s
        = [Statement MQuery
             ("INSERT INTO input_env_var (name, digest) VALUES "
              +:+ values_clause (length envs) 2 +:+ " "
              +:+ "ON CONFLICT ON CONSTRAINT input_env_var_name_digest_uniq DO UPDATE SET id=input_env_var.id RETURNING id")
             args]
        /\ length args = (length envs * 2)%nat)
  /\ (exists args,
        issued (insertInputTaskIfNotExist tasks) s
        = [Statement MQuery
             ("INSERT INTO input_task (name, digest) VALUES "
              +:+ values_clause (length tasks) 2 +:+ " "
              +:+ "ON CONFLICT ON CONSTRAINT input_task_name_digest_uniq DO UPDATE SET id=input_task.id RETURNING id")
             args]
        /\ length args = (length tasks * 2)%nat)
  /\ (exists args,
        issued (insertUploads uploads) s
        = [Statement MQuery
             ("INSERT into upload (uri, method, start_timestamp, stop_timestamp) VALUES"
              +:+ values_clause (length uploads) 4 +:+ " " +:+ "RETURNING id")
             args]
        /\ length args = (length uploads * 4)%nat).
Proof.
  repeat split.
  - unfold insertInputFilesIfNotExist. rewrite issued_queryIDs, queryValueStr_eq.
    unfold clonedSortedInputfiles; cbn [app]. rewrite sort_Slice_length.
    eexists; split; [reflexivity|].
    rewrite fold_left_append. cbn [app].
    by rewrite (length_flat_map_const _ 2), sort_Slice_length.
  - unfold insertInputStringsIfNotExist. rewrite issued_queryIDs, queryValueStr_eq.
    unfold clonedSortedInputStrings; cbn [app]. rewrite sort_Slice_length.
    eexists; split; [reflexivity|].
    rewrite fold_left_append. cbn [app].
    by rewrite (length_flat_map_const _ 2), sort_Slice_length.
  - unfold insertInputEnVarsIfNotExist. rewrite issued_queryIDs, queryValueStr_eq.
    unfold clonedSortedInputEnvVars; cbn [app]. rewrite sort_Slice_length.
    eexists; split; [reflexivity|].
    rewrite fold_left_append. cbn [app].
    by rewrite (length_flat_map_const _ 2), sort_Slice_length.
  - unfold insertInputTaskIfNotExist. rewrite issued_queryIDs, queryValueStr_eq.
    unfold clonedSortedInputTasks, slices_SortFunc; cbn [app]. rewrite sort_Slice_length.
    eexists; split; [reflexivity|].
    rewrite fold_left_append. cbn [app].
    by rewrite (length_flat_map_const _ 2), sort_Slice_length.
  - unfold insertUploads. rewrite issued_queryIDs, queryValueStr_eq.
    eexists; split; [reflexivity|].
    rewrite fold_left_append. cbn [app].
    by rewrite (length_flat_map_const _ 4).
Qed.

End BulkInserts.

(** ** How the statements of a run hang together *)

Section Composition.
Context {DB : Type} `{dbConn DB}.

Lemma fold_left_snoc_map {A B : Type} (f : A -> B) (l : list A) (acc : list B) :
  fold_left (fun acc x => acc ++ [f x]) l acc = acc ++ map f l.
Proof.
  revert acc. induction l as [|x l IH]; intros acc; simpl.
  - by rewrite app_nil_r.
  - by rewrite IH, <- app_assoc.
Qed.

Lemma appends_only_ret {E A : Type} (a : A) : appends_only (ret (DB := DB) (E := E) a).
Proof. intros s. exists []. simpl. by rewrite app_nil_r. Qed.

Lemma appends_only_fail {E A : Type} (e : E) : appends_only (fail (DB := DB) (A := A) e).
Proof. intros s. exists []. simpl. by rewrite app_nil_r. Qed.

Lemma appends_only_bind {E A B : Type} (m : M DB E A) (k : A -> M DB E B) :
  appends_only m -> (forall a, appends_only (k a)) -> appends_only (bind m k).
Proof.
  intros Hm Hk s. unfold bind. destruct (Hm s) as [l Hl].
  destruct (m s) as [s1 [e|a]]; simpl in *; [by exists l|].
  destruct (Hk a s1) as [l' Hl']. exists (l ++ l'). by rewrite Hl', Hl, app_assoc.
Qed.

Lemma appends_only_on_error {E E' A : Type} (wrap : E -> E') (m : M DB E A) :
  appends_only m -> appends_only (on_error wrap m).
Proof.
  intros Hm s. unfold on_error. destruct (Hm s) as [l Hl].
  destruct (m s) as [s1 [e|a]]; simpl in *; by exists l.
Qed.

Lemma appends_only_if {E A : Type} (b : bool) (m1 m2 : M DB E A) :
  appends_only m1 -> appends_only m2 -> appends_only (if b then m1 else m2).
Proof. by destruct b. Qed.

Lemma appends_only_QueryRow (sql : string) (args : list arg) :
  appends_only (QueryRow sql args).
Proof. intros s. unfold QueryRow. destruct (conn_QueryRow _ _ _). by eexists. Qed.

Lemma appends_only_Exec (sql : string) (args : list arg) :
  appends_only (Exec sql args).
Proof. intros s. unfold Exec. destruct (conn_Exec _ _ _). by eexists. Qed.

Lemma appends_only_Query (sql : string) (args : list arg) :
  appends_only (Query sql args).
Proof. intros s. unfold Query. destruct (conn_Query _ _ _). by eexists. Qed.

Lemma appends_only_queryIDs (sql : string) (args : list arg) :
  appends_only (queryIDs sql args).
Proof.
  unfold queryIDs. apply appends_only_bind.
  - apply appends_only_on_error, appends_only_Query.
  - intros rows. destruct (scanIDs rows []) as [ids [err|]].
    + apply appends_only_fail.
    + apply appends_only_ret.
Qed.

Lemma appends_only_execPairs (stmt1 stmtVals : string) (id : Z) (ids : list Z) :
  appends_only (execPairs stmt1 stmtVals id ids).
Proof. apply appends_only_on_error, appends_only_Exec. Qed.

Lemma appends_only_junctions (taskRunID : Z) :
  (forall l, appends_only (insertTaskRunInputStringsIfNotExist taskRunID l))
  /\ (forall l, appends_only (insertTaskRunInputFilesIfNotExist taskRunID l))
  /\ (forall l, appends_only (insertTaskRunInputEnvVarsIfNotExist taskRunID l))
  /\ (forall l, appends_only (insertTaskRunInputTasksIfNotExist taskRunID l)).
Proof.
  repeat split; intros l;
    (apply appends_only_if; [apply appends_only_ret|]);
    (apply appends_only_bind; [apply appends_only_queryIDs|]);
    intros ids; apply appends_only_execPairs.
Qed.

Lemma appends_only_insertOutputIfNotExist (output : Output.t) :
  appends_only (insertOutputIfNotExist output).
Proof. apply appends_only_on_error, appends_only_QueryRow. Qed.

Lemma appends_only_insertTaskOutputs_range (outputs : list Output.t) (records : list (Z * Z)) :
  appends_only (insertTaskOutputs_range outputs records).
Proof.
  revert records. induction outputs as [|o outputs IH]; intros records; simpl.
  - apply appends_only_ret.
  - apply appends_only_bind; [apply appends_only_insertOutputIfNotExist|].
    intros oid. apply appends_only_bind; [apply appends_only_queryIDs|].
    intros ids. apply IH.
Qed.

Lemma appends_only_insertTaskOutputsIfNotExist (taskRunID : Z) (outputs : list Output.t) :
  appends_only (insertTaskOutputsIfNotExist taskRunID outputs).
Proof.
  apply appends_only_if; [apply appends_only_ret|].
  apply appends_only_bind; [apply appends_only_insertTaskOutputs_range|].
  intros records. apply appends_only_on_error, appends_only_Exec.
Qed.

Lemma issued_appends_only {E A : Type} (m : M DB E A) (s : session DB) :
  appends_only m -> log (m s).1 = log s ++ issued m s.
Proof.
  intros Hm. unfold issued. destruct (Hm s) as [l ->]. by rewrite drop_app_length.
Qed.

Lemma issued_bind_ok {E A B : Type} (m : M DB E A) (k : A -> M DB E B)
    (s s1 : session DB) (a : A) :
  appends_only m -> appends_only (k a) -> m s = (s1, inr a) ->
  issued (bind m k) s = issued m s ++ issued (k a) s1.
Proof.
  intros Hm Hk Hrun.
  pose proof (issued_appends_only m s Hm) as Hl1.
  pose proof (issued_appends_only (k a) s1 Hk) as Hl2.
  unfold issued at 1. unfold bind. rewrite Hrun in *. cbn [fst] in Hl1.
  by rewrite Hl2, Hl1, <- app_assoc, drop_app_length.
Qed.

Lemma issued_bind_prefix {E A B : Type} (m : M DB E A) (k : A -> M DB E B)
    (s : session DB) :
  appends_only m -> (forall a, appends_only (k a)) ->
  exists rest, issued (bind m k) s = issued m s ++ rest.
Proof.
  intros Hm Hk. destruct (m s) as [s1 [e|a]] eqn:Hrun.
  - exists []. rewrite app_nil_r. unfold issued, bind. by rewrite Hrun.
  - eexists. by apply (issued_bind_ok m k s s1 a).
Qed.

(** A junction insert that is its upsert followed by [execPairs]. *)
Lemma junction_binds_returned_ids {A : Type} (stmt1 : string)
    (upsert : list A -> M DB error (list Z)) (junction : Z -> list A -> M DB error unit)
    (s : session DB) (taskRunID : Z) (inputs : list A) :
  appends_only (upsert inputs) ->
  junction taskRunID inputs =
    (let* ids := upsert inputs in
     execPairs stmt1 (queryValuePairFirstConstStr (length ids)) taskRunID ids) ->
  binds_returned_ids stmt1 upsert junction s taskRunID inputs.
Proof.
  intros Hup Hj. unfold binds_returned_ids.
  pose proof (issued_appends_only _ s Hup) as Hlog.
  unfold issued at 1. rewrite Hj. unfold bind.
  destruct (upsert inputs s) as [s1 [err|ids]]; [done|].
  simpl in Hlog. run_db.
  rewrite fold_left_snoc_map, queryValuePairFirstConstStr_eq.
  destruct (conn_Exec _ _ _) as [d [err|]]; cbn [fst log];
    by rewrite Hlog, <- app_assoc, drop_app_length.
Qed.

(** X4.  For a list of files, strings, environment variables or task infos
    that is not empty, the insert into the junction table first runs the
    bulk upsert.  When that fails, its error is returned as it is and
    nothing else is sent.  When it returns ids, exactly one more statement
    is sent: it binds the task run, as [$1], to each returned id, in the
    order the database returned them, with one pair for each id. *)
Theorem junction_inserts_bind_returned_ids (s : session DB) (taskRunID : Z)
    (files : list InputFile.t) (strs : list InputString.t)
    (envs : list InputEnvVar.t) (tasks : list InputTaskInfo.t) :
  (files <> [] ->
   binds_returned_ids "INSERT INTO task_run_file_input (task_run_id, input_file_id) VALUES "
     insertInputFilesIfNotExist insertTaskRunInputFilesIfNotExist s taskRunID files)
  /\ (strs <> [] ->
      binds_returned_ids
        "INSERT INTO task_run_string_input (task_run_id, input_string_id) VALUES "
        insertInputStringsIfNotExist insertTaskRunInputStringsIfNotExist s taskRunID strs)
  /\ (envs <> [] ->
      binds_returned_ids
        "INSERT INTO task_run_env_var_input (task_run_id, input_env_var_id) VALUES "
        insertInputEnVarsIfNotExist insertTaskRunInputEnvVarsIfNotExist s taskRunID envs)
  /\ (tasks <> [] ->
      binds_returned_ids
        "INSERT INTO task_run_task_input (task_run_id, input_task_id) VALUES "
        insertInputTaskIfNotExist insertTaskRunInputTasksIfNotExist s taskRunID tasks).
Proof.
  repeat split; intros Hne; apply junction_binds_returned_ids;
    try apply appends_only_queryIDs.
  - unfold insertTaskRunInputFilesIfNotExist. by destruct files.
  - unfold insertTaskRunInputStringsIfNotExist. by destruct strs.
  - unfold insertTaskRunInputEnvVarsIfNotExist. by destruct envs.
  - unfold insertTaskRunInputTasksIfNotExist. by destruct tasks.
Qed.

(** The inserts that follow the task_run row in [saveTaskRun]. *)
Lemma saveTaskRun_tail (taskRun : TaskRunFull.t) (taskRunID : Z) (s s' : session DB)
    (r : error + Z) :
  (let inputs := TaskRunFull.Inputs taskRun in
   let* _ := insertTaskRunInputStringsIfNotExist taskRunID (Inputs.Strings inputs) in
   let* _ := insertTaskRunInputFilesIfNotExist taskRunID (Inputs.Files inputs) in
   let* _ := insertTaskRunInputEnvVarsIfNotExist taskRunID (Inputs.EnvironmentVariables inputs) in
   let* _ := insertTaskRunInputTasksIfNotExist taskRunID (Inputs.TaskInfo inputs) in
   let* _ := insertTaskOutputsIfNotExist taskRunID (TaskRunFull.Outputs taskRun) in
   ret taskRunID) s = (s', r) ->
  (exists rest, log s' = log s ++ rest) /\ forall id, r = inr id -> id = taskRunID.
Proof.
  intros Hrun. split.
  - destruct (appends_only_junctions taskRunID) as (Hs & Hf & He & Ht).
    assert (appends_only (let inputs := TaskRunFull.Inputs taskRun in
      let* _ := insertTaskRunInputStringsIfNotExist taskRunID (Inputs.Strings inputs) in
      let* _ := insertTaskRunInputFilesIfNotExist taskRunID (Inputs.Files inputs) in
      let* _ := insertTaskRunInputEnvVarsIfNotExist taskRunID (Inputs.EnvironmentVariables inputs) in
      let* _ := insertTaskRunInputTasksIfNotExist taskRunID (Inputs.TaskInfo inputs) in
      let* _ := insertTaskOutputsIfNotExist taskRunID (TaskRunFull.Outputs taskRun) in
      ret taskRunID)) as Happ.
    { cbv zeta. repeat (apply appends_only_bind; [done|intros _]);
        [apply appends_only_bind;
           [apply appends_only_insertTaskOutputsIfNotExist|intros _; apply appends_only_ret]]. }
    destruct (Happ s) as [l Hl]. rewrite Hrun in Hl. by exists l.
  - revert Hrun. cbv zeta. unfold bind, ret.
    repeat match goal with
           | |- context [match ?m ?x with _ => _ end] =>
               lazymatch m with
               | insertTaskRunInputStringsIfNotExist _ _ => idtac
               | insertTaskRunInputFilesIfNotExist _ _ => idtac
               | insertTaskRunInputEnvVarsIfNotExist _ _ => idtac
               | insertTaskRunInputTasksIfNotExist _ _ => idtac
               | insertTaskOutputsIfNotExist _ _ => idtac
               end;
               destruct (m x) as [? [?|[]]]
           end; intros [= <- <-] id; congruence.
Qed.

(** X5.  A call of [saveTaskRun] that succeeds has sent, before anything
    else and in this order, the upserts of the vcs row, of the application
    and of the task, and the insert of the task_run row.  The task upsert
    carries the id the application upsert returned; the task_run row
    carries the ids the vcs and the task upsert returned; and the id
    [saveTaskRun] returns is the one the database gave the task_run row,
    whatever the statements after it returned. *)
Theorem saveTaskRun_threads_ids (taskRun : TaskRunFull.t) (s s' : session DB) (id : Z) :
  saveTaskRun taskRun s = (s', inr id) ->
  exists (vcsID appID taskID : Z) (d1 d2 d3 d4 : DB) (rest : list statement),
    let vcsArgs := [AString (TaskRunFull.VCSRevision taskRun);
                    ABool (TaskRunFull.VCSIsDirty taskRun)] in
    let appArgs := [AString (TaskRunFull.ApplicationName taskRun)] in
    let taskArgs := [AString (TaskRunFull.TaskName taskRun); AInt appID] in
    let runArgs := [AInt vcsID; AInt taskID;
                    AString (TaskRunFull.TotalInputDigest taskRun);
                    ATime (TaskRunFull.StartTimestamp taskRun);
                    ATime (TaskRunFull.StopTimestamp taskRun);
                    AString (TaskRunFull.Result taskRun)] in
    conn_QueryRow (db s) insertVCSIfNotExist_query vcsArgs = (d1, inr vcsID)
    /\ conn_QueryRow d1 insertAppIfNotExist_query appArgs = (d2, inr appID)
    /\ conn_QueryRow d2 insertTaskIfNotExist_query taskArgs = (d3, inr taskID)
    /\ conn_QueryRow d3 saveTaskRun_query runArgs = (d4, inr id)
    /\ issued (saveTaskRun taskRun) s
       = [Statement MQueryRow insertVCSIfNotExist_query vcsArgs;
          Statement MQueryRow insertAppIfNotExist_query appArgs;
          Statement MQueryRow insertTaskIfNotExist_query taskArgs;
          Statement MQueryRow saveTaskRun_query runArgs] ++ rest.
Proof.
  intros Hrun. unfold issued. rewrite Hrun. revert Hrun.
  unfold saveTaskRun, insertVCSIfNotExist, insertTaskIfNotExist, insertAppIfNotExist.
  unfold bind at 1 2 3 4. unfold on_error, QueryRow.
  fold insertVCSIfNotExist_query insertAppIfNotExist_query insertTaskIfNotExist_query
    saveTaskRun_query.
  destruct (conn_QueryRow (db s) _ _) as [d1 [e|vcsID]]; [done|]. cbn [db log].
  destruct (conn_QueryRow d1 _ _) as [d2 [e|appID]] eqn:Happ; [done|]. cbn [db log].
  destruct (conn_QueryRow d2 _ _) as [d3 [e|taskID]] eqn:Htask; [done|]. cbn [db log].
  destruct (conn_QueryRow d3 _ _) as [d4 [e|runID]] eqn:Hr; [done|].
  intros Htail. apply saveTaskRun_tail in Htail as [[rest Hlog] Hid].
  specialize (Hid id eq_refl) as ->. cbn [log] in Hlog.
  exists vcsID, appID, taskID, d1, d2, d3, d4, rest. cbv zeta.
  repeat split; try done.
  cbn [fst]. rewrite Hlog, <- !app_assoc. by rewrite drop_app_length.
Qed.

(** X6.  [insertUploads] has no guard for an empty list, and
    [insertTaskOutputsIfNotExist] calls it for every output: for an output
    without uploads whose upsert succeeded, the next statement is the
    insert into [upload] with an empty VALUES clause and no arguments. *)
Theorem output_without_uploads_sends_empty_values (s : session DB) (taskRunID : Z)
    (output : Output.t) (outputs : list Output.t) (d : DB) (outputID : Z) :
  Output.Uploads output = [] ->
  conn_QueryRow (db s) insertOutputIfNotExist_query
    [AString (Output.Name output); AString (Output.Type_ output);
     AString (Output.Digest output); AInt (Output.SizeBytes output)] = (d, inr outputID) ->
  exists rest,
    issued (insertTaskOutputsIfNotExist taskRunID (output :: outputs)) s
    = [Statement MQueryRow insertOutputIfNotExist_query
         [AString (Output.Name output); AString (Output.Type_ output);
          AString (Output.Digest output); AInt (Output.SizeBytes output)];
       Statement MQuery
         "INSERT into upload (uri, method, start_timestamp, stop_timestamp) VALUES RETURNING id"
         []] ++ rest.
Proof.
  intros Hup Hq. unfold insertTaskOutputsIfNotExist. cbn [length Nat.eqb].
  match goal with
  | |- context [issued (bind ?m ?k) ?s] =>
      destruct (issued_bind_prefix m k s) as [rest1 ->]
  end.
  { apply appends_only_insertTaskOutputs_range. }
  { intros records. apply appends_only_on_error, appends_only_Exec. }
  cbn [insertTaskOutputs_range]. rewrite Hup.
  assert (insertOutputIfNotExist output s
          = (Session (log s ++ [Statement MQueryRow insertOutputIfNotExist_query
               [AString (Output.Name output); AString (Output.Type_ output);
                AString (Output.Digest output); AInt (Output.SizeBytes output)]]) d,
             inr outputID)) as Hout.
  { unfold insertOutputIfNotExist, on_error, QueryRow.
    fold insertOutputIfNotExist_query. by rewrite Hq. }
  match goal with
  | |- context [issued (bind ?m ?k) s] =>
      erewrite (issued_bind_ok m k s _ outputID (appends_only_insertOutputIfNotExist output))
  end; [| |exact Hout].
  2:{ apply appends_only_bind; [apply appends_only_queryIDs|].
      intros ids. apply appends_only_insertTaskOutputs_range. }
  match goal with
  | |- context [issued (bind ?m ?k) ?s] =>
      destruct (issued_bind_prefix m k s) as [rest2 ->]
  end.
  { apply appends_only_queryIDs. }
  { intros ids. apply appends_only_insertTaskOutputs_range. }
  unfold issued at 1. rewrite Hout. cbn [fst log]. rewrite drop_app_length.
  unfold insertUploads. rewrite issued_queryIDs.
  exists (rest2 ++ rest1). by rewrite <- !app_assoc.
Qed.

End Composition.

Lemma junction_inserts_bind_returned_ids_witness :
  binds_returned_ids "INSERT INTO task_run_file_input (task_run_id, input_file_id) VALUES "
    insertInputFilesIfNotExist insertTaskRunInputFilesIfNotExist
    (Session [] 5) 4 [InputFile.Build "b.go" "sha384:02"; InputFile.Build "a.go" "sha384:01"].
Proof.
  refine (proj1 (junction_inserts_bind_returned_ids (Session [] 5) 4
                   [InputFile.Build "b.go" "sha384:02"; InputFile.Build "a.go" "sha384:01"]
                   [] [] []) _).
  discriminate.
Defined.

Lemma saveTaskRun_threads_ids_witness :
  exists (vcsID appID taskID : Z) (d1 d2 d3 d4 : Z) (rest : list statement),
    conn_QueryRow 1 insertVCSIfNotExist_query [AString "1a2b3c"; ABool false]
      = (d1, inr vcsID)
    /\ conn_QueryRow d1 insertAppIfNotExist_query [AString "shop"] = (d2, inr appID)
    /\ conn_QueryRow d2 insertTaskIfNotExist_query [AString "build"; AInt appID]
       = (d3, inr taskID)
    /\ conn_QueryRow d3 saveTaskRun_query
         [AInt vcsID; AInt taskID; AString "sha384:aa"; ATime 100; ATime 160;
          AString "success"] = (d4, inr 4)
    /\ issued (saveTaskRun TaskRunFull_example) (Session [] 1)
       = [Statement MQueryRow insertVCSIfNotExist_query [AString "1a2b3c"; ABool false];
          Statement MQueryRow insertAppIfNotExist_query [AString "shop"];
          Statement MQueryRow insertTaskIfNotExist_query [AString "build"; AInt appID];
          Statement MQueryRow saveTaskRun_query
            [AInt vcsID; AInt taskID; AString "sha384:aa"; ATime 100; ATime 160;
             AString "success"]] ++ rest.
Proof.
  refine (saveTaskRun_threads_ids TaskRunFull_example (Session [] 1)
            (saveTaskRun TaskRunFull_example (Session [] 1)).1 4 _).
  vm_compute. reflexivity.
Defined.

Lemma output_without_uploads_sends_empty_values_witness :
  exists rest,
    issued (insertTaskOutputsIfNotExist 4 [Output.Build "shop.log" "file" "sha384:0e" 12 []])
      (Session [] 1)
    = [Statement MQueryRow insertOutputIfNotExist_query
         [AString "shop.log"; AString "file"; AString "sha384:0e"; AInt 12];
       Statement MQuery
         "INSERT into upload (uri, method, start_timestamp, stop_timestamp) VALUES RETURNING id"
         []] ++ rest.
Proof.
  refine (output_without_uploads_sends_empty_values (Session [] 1) 4
            (Output.Build "shop.log" "file" "sha384:0e" 12 []) [] 2 1 _ _);
    reflexivity.
Defined.

(** The statements of a whole run, against the database of the examples:
    the ids 1 to 3 go to the vcs row, the application and the task, 4 to the
    task run, and the rows of the junction tables refer to it. *)
Example saveTaskRun_example :
  map (fun st => (st_method st, st_args st))
    (issued (saveTaskRun TaskRunFull_example) (Session [] 1))
  = [(MQueryRow, [AString "1a2b3c"; ABool false]);
     (MQueryRow, [AString "shop"]);
     (MQueryRow, [AString "build"; AInt 2]);
     (MQueryRow, [AInt 1; AInt 3; AString "sha384:aa"; ATime 100; ATime 160;
                  AString "success"]);
     (MQuery, [AString "a.go"; AString "sha384:01"; AString "b.go"; AString "sha384:02"]);
     (MExec, [AInt 4; AInt 5; AInt 6]);
     (MQuery, [AString "GOFLAGS"; AString "sha384:03"]);
     (MExec, [AInt 4; AInt 7]);
     (MQueryRow, [AString "shop.tar"; AString "file"; AString "sha384:0f"; AInt 2048]);
     (MQuery, [AString "s3://bucket/shop.tar"; AString "s3"; ATime 150; ATime 155]);
     (MQueryRow, [AString "shop.log"; AString "file"; AString "sha384:0e"; AInt 12]);
     (MQuery, []);
     (MExec, [AInt 4; AInt 8; AInt 9])].
Proof. vm_compute. reflexivity. Qed.

(** ** A release that is stored *)

Section ReleaseStored.

Lemma prefix_append (a b : string) : String.prefix a (a +:+ b) = true.
Proof.
  induction a as [|c a IH]; [by destruct b|].
  change (String c a +:+ b) with (String c (a +:+ b)). cbn [String.prefix].
  by destruct (ascii_dec c c).
Qed.

Lemma int_args_map (ids : list Z) : int_args (map AInt ids) = Some ids.
Proof. induction ids as [|id ids IH]; simpl; [done|]. by rewrite IH. Qed.

(** X7.  On the release tables: creating a release under a name that is
    free, with metadata that can be read and at least one task run,
    succeeds; afterwards the release table holds the row under that name,
    with the creation time and the metadata that were passed, and the
    junction table holds one new pair of the id of the release with each
    task run, in the order of the list. *)
Theorem CreateRelease_stores_release (s : session Registry) (name : string) (createdAt : Z)
    (taskRunIDs : list Z) (metadata : option io_Reader) (data : option (list ascii)) :
  release (db s) !! name = None ->
  taskRunIDs <> [] ->
  readMetadata metadata = inr data ->
  let releaseID := release_id_seq (db s) in
  exists s',
    CreateRelease name createdAt taskRunIDs metadata s = (s', inr tt)
    /\ release (db s')
       = <[name := {| release_id := releaseID; release_created_at := createdAt;
                      release_metadata := data |}]> (release (db s))
    /\ release_task_run (db s')
       = release_task_run (db s) ++ map (pair releaseID) taskRunIDs.
Proof.
  intros Hfree Hne Hmd releaseID.
  unfold CreateRelease, insertRelease, insertReleaseTaskRun. run_db. rewrite Hmd.
  cbn [conn_QueryRow conn_Exec Registry_dbConn]. unfold Registry_QueryRow.
  rewrite String.eqb_refl, Hfree. cbn [db log].
  destruct taskRunIDs as [|id ids]; [done|]. cbn [length Nat.eqb].
  unfold Registry_Exec. rewrite prefix_append.
  rewrite (fold_left_snoc_map AInt). cbn [app int_args]. rewrite int_args_map.
  eexists. split; [reflexivity|]. by cbn.
Qed.

End ReleaseStored.

Lemma CreateRelease_stores_release_witness :
  exists s',
    CreateRelease "v2" 20 [8; 9] None (Session [] Registry_v1) = (s', inr tt)
    /\ release (db s')
       = <["v2" := {| release_id := 2; release_created_at := 20;
                      release_metadata := None |}]> (release Registry_v1)
    /\ release_task_run (db s') = [(1, 7); (2, 8); (2, 9)].
Proof.
  refine (CreateRelease_stores_release (Session [] Registry_v1) "v2" 20 [8; 9] None None _ _ _).
  - vm_compute. reflexivity.
  - discriminate.
  - reflexivity.
Defined.

(** ** The Landlock driver *)

Import Landlock.

Section LandlockFacts.
Context {W : Type} `{OS W}.

Lemma calls_between_app (p : process W) (es : list entry) (w : W) :
  calls_between p (Process (trace p ++ es) w) = es.
Proof. unfold calls_between. simpl. by rewrite drop_app_length. Qed.

Lemma errnoToError_nonzero (e : Z) : e <> 0 -> is_Some (errnoToError e).
Proof.
  intros He. unfold errnoToError. destruct (e =? 0) eqn:H0; [lia|]. simpl.
  destruct (errors_Is e EOPNOTSUPP); [by eexists|].
  destruct (errors_Is e ENOSYS); by eexists.
Qed.

Lemma errnoToError_other (e : Z) :
  e <> 0 -> e <> ENOSYS -> e <> EOPNOTSUPP -> errnoToError e = Some (Errno e).
Proof.
  intros H0 H1 H2. unfold errnoToError, errors_Is.
  destruct (e =? 0) eqn:E0; [lia|].
  destruct (e =? EOPNOTSUPP) eqn:E1; [lia|].
  destruct (e =? ENOSYS) eqn:E2; [lia|]. done.
Qed.

(** What [Version] does: one system call, and its answer decides. *)
Lemma Version_trace (p : process W) :
  exists r1 r2 errno,
    calls_between p (Version p).1 =
      [(Syscall LANDLOCK_CREATE_RULESET_VERSION (Word 0) (Word 0) (Word 0),
        RSyscall r1 r2 errno)]
    /\ (Version p).2 = if errno =? 0 then (int r1, None) else (-1, errnoToError errno).
Proof.
  unfold Version, unix_Syscall, record.
  destruct (os_Syscall _ _ _ _ _) as [w [[r1 r2] errno]].
  exists r1, r2, errno. destruct (errno =? 0); simpl; by rewrite calls_between_app.
Qed.

Lemma NewFSRuleset_trace (p : process W) :
  exists r1 r2 errno,
    calls_between p (NewFSRuleset p).1 =
      [(Syscall SYS_LANDLOCK_CREATE_RULESET (PtrRulesetAttr fsRights) (Word 24)
          (Word version), RSyscall r1 r2 errno)]
    /\ trace (NewFSRuleset p).1 = trace p ++ calls_between p (NewFSRuleset p).1
    /\ (NewFSRuleset p).2 =
       if errno =? 0 then (Some {| filedescriptor := r1 |}, None)
       else (None, errnoToError errno).
Proof.
  unfold NewFSRuleset, unix_Syscall, record.
  destruct (os_Syscall _ _ _ _ _) as [w [[r1 r2] errno]].
  exists r1, r2, errno. destruct (errno =? 0); simpl; by rewrite calls_between_app.
Qed.

(** The three ways [Allow] can go. *)
Lemma Allow_trace (rs : FSRuleset) (path : string) (p : process W) :
  trace (Allow rs path p).1 = trace p ++ calls_between p (Allow rs path p).1
  /\ ((exists isDir e,
         calls_between p (Allow rs path p).1 = [(IsDir path, RIsDir isDir (Some e))]
         /\ (Allow rs path p).2 = Some e)
      \/ (exists isDir f e,
            calls_between p (Allow rs path p).1 =
              [(IsDir path, RIsDir isDir None);
               (Open path (Z.lor O_PATH O_CLOEXEC) 0, ROpen f (Some e))]
            /\ (Allow rs path p).2 = Some e)
      \/ (exists isDir f r1 r2 errno errClose,
            calls_between p (Allow rs path p).1 =
              [(IsDir path, RIsDir isDir None);
               (Open path (Z.lor O_PATH O_CLOEXEC) 0, ROpen f None);
               (Syscall6 SYS_LANDLOCK_ADD_RULE (Word (filedescriptor rs))
                  (Word LANDLOCK_RULE_PATH_BENEATH)
                  (PtrPathBeneathAttr (if isDir then fsRights else fileRights) (int32 f))
                  (Word 0) (Word 0) (Word 0),
                RSyscall r1 r2 errno);
               (Close f, RErr errClose)]
            /\ (Allow rs path p).2 = errnoToError errno)).
Proof.
  unfold Allow, accessRights, fs_IsDir, syscall_Open, unix_Syscall6, syscall_Close, record.
  destruct (os_IsDir _ _) as [w1 [isDir [e|]]]; simpl.
  { rewrite calls_between_app. split; [done|]. left. by exists isDir, e. }
  destruct isDir; simpl.
  all: destruct (os_Open _ _ _ _) as [w2 [f [e|]]]; simpl.
  1, 3: rewrite <- app_assoc, calls_between_app; split; [done|];
        right; left; by eexists _, f, e.
  all: destruct (os_Syscall6 _ _ _ _ _ _ _ _) as [w3 [[r1 r2] errno]]; simpl.
  all: destruct (os_Close _ _) as [w4 errClose]; simpl.
  all: rewrite <- !app_assoc, calls_between_app; split; [done|]; right; right.
  1: exists true, f, r1, r2, errno, errClose.
  2: exists false, f, r1, r2, errno, errClose.
  all: split; [done|]; destruct (errno =? 0) eqn:E0; simpl; [|done].
  all: by apply Z.eqb_eq in E0 as ->.
Qed.

End LandlockFacts.

(** C7.  [errnoToError] maps ENOSYS to the error for a kernel without
    Landlock, EOPNOTSUPP to the error for Landlock disabled at boot, every
    other errno but zero to itself, and zero to no error.  [NewFSRuleset]
    makes the system call that creates a rule set and fails exactly when
    its errno is not zero, with the error [errnoToError] gives for it.
    [Version] does not: the one system call it makes has the number
    [LANDLOCK_CREATE_RULESET_VERSION], which is the number of none of the
    Landlock system calls, so that two systems that answer that call alike
    give the same result, whatever their Landlock calls answer; on the
    example system it returns version 0 and no error, also when creating a
    rule set fails. *)
Theorem errnoToError_failure_modes :
  errnoToError ENOSYS = Some ErrLandLockNotSupported
  /\ errnoToError EOPNOTSUPP = Some ErrLandlockDisabled
  /\ errnoToError 0 = None
  /\ (forall e, e <> 0 -> e <> ENOSYS -> e <> EOPNOTSUPP -> errnoToError e = Some (Errno e))
  /\ (forall (W : Type) (HOS : OS W) (p : process W),
        exists r1 r2 errno,
          calls_between p (NewFSRuleset p).1 =
            [(Syscall SYS_LANDLOCK_CREATE_RULESET (PtrRulesetAttr fsRights) (Word 24)
                (Word version), RSyscall r1 r2 errno)]
          /\ (NewFSRuleset p).2 =
             if errno =? 0 then (Some {| filedescriptor := r1 |}, None)
             else (None, errnoToError errno))
  /\ (forall (W : Type) (HOS : OS W) (p : process W),
        exists r1 r2 errno,
          calls_between p (Version p).1 =
            [(Syscall LANDLOCK_CREATE_RULESET_VERSION (Word 0) (Word 0) (Word 0),
              RSyscall r1 r2 errno)]
          /\ (Version p).2 = if errno =? 0 then (int r1, None) else (-1, errnoToError errno))
  /\ (LANDLOCK_CREATE_RULESET_VERSION
       ∉ [SYS_LANDLOCK_CREATE_RULESET; SYS_LANDLOCK_ADD_RULE; SYS_LANDLOCK_RESTRICT_SELF])
  /\ (forall (W : Type) (os1 os2 : OS W) (p : process W),
        (forall w a1 a2 a3,
           @os_Syscall W os1 w LANDLOCK_CREATE_RULESET_VERSION a1 a2 a3
           = @os_Syscall W os2 w LANDLOCK_CREATE_RULESET_VERSION a1 a2 a3) ->
        @Version W os1 p = @Version W os2 p)
  /\ (forall (p : process Linux),
        (Version p).2 = (0, None)
        /\ (landlock_errno (world p) <> 0 ->
            (NewFSRuleset p).2 = (None, errnoToError (landlock_errno (world p))))).
Proof.
  split; [reflexivity|]. split; [reflexivity|]. split; [reflexivity|].
  split; [apply errnoToError_other|]. split; [|split; [|split; [|split]]].
  - intros W HOS p. destruct (NewFSRuleset_trace p) as (r1 & r2 & errno & Hc & _ & Hr).
    by exists r1, r2, errno.
  - intros. apply Version_trace.
  - intros Hin.
    repeat (apply elem_of_cons in Hin as [Hin|Hin]; [by vm_compute in Hin|]).
    by apply elem_of_nil in Hin.
  - intros W os1 os2 p Hsame. unfold Version, unix_Syscall. by rewrite Hsame.
  - intros [tr w]. split; [reflexivity|]. intros Hne%Z.eqb_neq.
    unfold NewFSRuleset, unix_Syscall. cbn [world os_Syscall Linux_OS].
    unfold Linux_landlock. cbn [bool_decide negb]. simpl in Hne.
    rewrite bool_decide_eq_true_2 by (apply list_elem_of_here).
    cbn [negb]. rewrite Hne. cbn [negb]. by rewrite Hne.
Qed.

Lemma errnoToError_failure_modes_witness :
  errnoToError 13 = Some (Errno 13).
Proof.
  refine (proj1 (proj2 (proj2 (proj2 errnoToError_failure_modes))) 13 _ _ _);
    vm_compute; discriminate.
Defined.

(** Against C7 as it stands: on a kernel without Landlock, and on one that
    has it disabled, creating a rule set fails with the error for that, but
    [Version] makes system call number 1 and reports version 0 and no
    error. *)
Lemma Version_without_landlock :
  let unsupported := {| landlock_errno := ENOSYS; directories := [];
                        regular_files := []; next_fd := 3 |} in
  let disabled := {| landlock_errno := EOPNOTSUPP; directories := [];
                     regular_files := []; next_fd := 3 |} in
  (NewFSRuleset (Process [] unsupported)).2 = (None, Some ErrLandLockNotSupported)
  /\ Version (Process [] unsupported)
     = (Process [(Syscall 1 (Word 0) (Word 0) (Word 0), RSyscall 0 0 0)] unsupported,
        (0, None))
  /\ (Version (Process [] unsupported)).2 <> (-1, Some ErrLandLockNotSupported)
  /\ (NewFSRuleset (Process [] disabled)).2 = (None, Some ErrLandlockDisabled)
  /\ (Version (Process [] disabled)).2 = (0, None)
  /\ (Version (Process [] disabled)).2 <> (-1, Some ErrLandlockDisabled).
Proof.
  cbv zeta. split; [reflexivity|]. split; [reflexivity|]. split; [discriminate|].
  split; [reflexivity|]. split; [reflexivity|discriminate].
Qed.

(** A kernel without Landlock, and one that has it disabled. *)
Example NewFSRuleset_ENOSYS :
  (NewFSRuleset (Process [] {| landlock_errno := ENOSYS; directories := [];
                               regular_files := []; next_fd := 3 |})).2
  = (None, Some ErrLandLockNotSupported).
Proof. reflexivity. Qed.

Example NewFSRuleset_EOPNOTSUPP :
  (NewFSRuleset (Process [] {| landlock_errno := EOPNOTSUPP; directories := [];
                               regular_files := []; next_fd := 3 |})).2
  = (None, Some ErrLandlockDisabled).
Proof. reflexivity. Qed.

(** C8.  [Restrict] first sets the no-new-privileges flag.  When that fails
    nothing else is called and the error of [prctl] is returned, wrapped;
    only when it succeeded does the self-restrict system call follow. *)
Theorem Restrict_sets_no_new_privs_first {W : Type} `{OS W} (rs : FSRuleset)
    (p : process W) :
  trace (Restrict rs p).1 = trace p ++ calls_between p (Restrict rs p).1
  /\ ((exists e,
         calls_between p (Restrict rs p).1 =
           [(Prctl PR_SET_NO_NEW_PRIVS 1 0 0 0, RErr (Some e))]
         /\ (Restrict rs p).2 = Some (fmt_Errorf "prctl failed: %w" [] e))
      \/ (exists r1 r2 errno,
            calls_between p (Restrict rs p).1 =
              [(Prctl PR_SET_NO_NEW_PRIVS 1 0 0 0, RErr None);
               (Syscall SYS_LANDLOCK_RESTRICT_SELF (Word (filedescriptor rs))
                  (Word 0) (Word 0), RSyscall r1 r2 errno)]
            /\ (Restrict rs p).2 = errnoToError errno)).
Proof.
  unfold Restrict, unix_Prctl, unix_Syscall, record.
  destruct (os_Prctl _ _ _ _ _ _) as [w1 [e|]]; simpl.
  - rewrite calls_between_app. split; [done|]. left. by exists e.
  - destruct (os_Syscall _ _ _ _ _) as [w2 [[r1 r2] errno]]; simpl.
    rewrite <- app_assoc, calls_between_app. split; [done|]. right.
    by exists r1, r2, errno.
Qed.



(** The rules registered for a directory and for a regular file. *)
Example Allow_directory_and_file :
  map fst (calls_between (Process [] Linux_example)
             (Allow {| filedescriptor := 3 |} "/repo/app" (Process [] Linux_example)).1)
  = Allow_calls {| filedescriptor := 3 |} "/repo/app" true 3
  /\ map fst (calls_between (Process [] Linux_example)
                (Allow {| filedescriptor := 3 |} "/repo/app/main.c"
                   (Process [] Linux_example)).1)
     = Allow_calls {| filedescriptor := 3 |} "/repo/app/main.c" false 3.
Proof. split; vm_compute; reflexivity. Qed.

(** ** The sandboxed command *)

Import CmdSandboxed.

Section ExecFacts.
Context {W : Type} `{OS W}.

Local Abbreviation allow_calls_of rs paths ds :=
  (concat (zip_with (fun path (d : bool * Z) => Allow_calls rs path d.1 d.2) paths ds)).

Lemma errnoToError_None (errno : Z) : errnoToError errno = None -> errno = 0.
Proof.
  intros Hn. destruct (decide (errno = 0)) as [|Hne]; [done|].
  destruct (errnoToError_nonzero errno Hne) as [e He]. congruence.
Qed.

Lemma not_exec_cons (c : call) (r : reply) (es : list entry) :
  match c with ExecImage _ _ _ => False | _ => True end ->
  Forall (fun e => ~ is_exec e) es -> Forall (fun e => ~ is_exec e) ((c, r) :: es).
Proof.
  intros Hc Hes. constructor; [|done]. unfold is_exec. simpl. destruct c; tauto.
Qed.

(** One [Allow]: either it failed, having made an initial part of its
    calls, or it made all of them and all succeeded. *)
Lemma Allow_outcome (rs : FSRuleset) (path : string) (p : process W) :
  exists es isDir f,
    trace (Allow rs path p).1 = trace p ++ es
    /\ Forall (fun e => ~ is_exec e) es
    /\ map fst es `prefix_of` Allow_calls rs path isDir f
    /\ ((Allow rs path p).2 = None -> allowed rs path es).
Proof.
  destruct (Allow_trace rs path p) as [Ht Hcases].
  exists (calls_between p (Allow rs path p).1).
  destruct Hcases as [(isDir & e & Hc & Hr) | [(isDir & f & e & Hc & Hr)
    | (isDir & f & r1 & r2 & errno & errClose & Hc & Hr)]]; rewrite Hc in *.
  - exists isDir, 0. split; [done|]. split; [by repeat apply not_exec_cons|].
    split; [by eexists|]. by rewrite Hr.
  - exists isDir, f. split; [done|]. split; [by repeat apply not_exec_cons|].
    split; [by eexists|]. by rewrite Hr.
  - exists isDir, f. split; [done|]. split; [by repeat apply not_exec_cons|].
    split; [by exists []|]. rewrite Hr. intros ->%errnoToError_None.
    by exists isDir, f, r1, r2, errClose.
Qed.

Lemma allowed_calls (rs : FSRuleset) (path : string) (es : list entry) :
  allowed rs path es -> exists isDir f, map fst es = Allow_calls rs path isDir f.
Proof. intros (isDir & f & r1 & r2 & ec & ->). by exists isDir, f. Qed.

(** The loop over the allowed paths. *)
Lemma Exec_range_trace (rs : FSRuleset) (paths : list string) (p : process W) :
  exists es ds,
    trace (Exec_range rs paths p).1 = trace p ++ es
    /\ length ds = length paths
    /\ Forall (fun e => ~ is_exec e) es
    /\ match (Exec_range rs paths p).2 with
       | None =>
           map fst es = allow_calls_of rs paths ds
           /\ exists ess, Forall2 (allowed rs) paths ess /\ es = concat ess
       | Some _ => map fst es `prefix_of` allow_calls_of rs paths ds
       end.
Proof.
  revert p. induction paths as [|path paths IH]; intros p; simpl.
  { exists [], []. rewrite app_nil_r. repeat split; try done. by exists []. }
  destruct (Allow_outcome rs path p) as (es1 & isDir & f & Ht1 & Hne1 & Hpre1 & Hok1).
  destruct (Allow rs path p) as [p1 [e|]]; simpl in *.
  - exists es1, ((isDir, f) :: replicate (length paths) (false, 0)).
    split; [done|]. split; [by simpl; rewrite length_replicate|]. split; [done|].
    cbn [zip_with concat fst snd]. by apply prefix_app_r.
  - specialize (Hok1 eq_refl). specialize (IH p1).
    destruct IH as (es2 & ds & Ht2 & Hlen & Hne2 & Hres).
    exists (es1 ++ es2), ((isDir, f) :: ds).
    split; [by rewrite Ht2, Ht1, app_assoc|]. split; [by simpl; rewrite Hlen|].
    split; [by apply Forall_app|].
    assert (map fst es1 = Allow_calls rs path isDir f) as Hcalls.
    { destruct (allowed_calls _ _ _ Hok1) as (d' & f' & Hc').
      destruct Hpre1 as [k Hk]. rewrite Hc' in Hk |- *.
      unfold Allow_calls in *. simpl in Hk. congruence. }
    cbn [zip_with concat fst snd].
    destruct (Exec_range rs paths p1).2 as [e|].
    + rewrite map_app, Hcalls. by apply prefix_app, Hres.
    + destruct Hres as (Hcalls2 & ess & Hall & ->). split.
      * by rewrite map_app, Hcalls, Hcalls2.
      * exists (es1 :: ess). split; [by constructor|done].
Qed.

End ExecFacts.

Section ExecOrder.
Context {W : Type} `{OS W}.

Lemma calls_between_eq (p p' : process W) (es : list entry) :
  trace p' = trace p ++ es -> calls_between p p' = es.
Proof. intros Ht. unfold calls_between. by rewrite Ht, drop_app_length. Qed.

Local Ltac prefix_step :=
  first [ apply prefix_cons | apply prefix_app | by apply prefix_app_r
        | by eexists ].

Lemma Exec_trace (c : CmdSandboxed.t) (p : process W) :
  exists es fd ds,
    trace (Exec c p).1 = trace p ++ es
    /\ length ds = length (AllowedFSAccessPaths c)
    /\ map fst es `prefix_of` Exec_calls c fd ds
    /\ match (Exec c p).2 with
       | ImageReplaced =>
           exists pre, sandbox_installed c pre
             /\ es = pre ++ [(ExecImage (Name c) (Args c) (Env c), RErr None)]
       | Returned err =>
           is_Some err
           /\ (Forall (fun e => ~ is_exec e) es
               \/ exists pre e, sandbox_installed c pre
                    /\ es = pre ++ [(ExecImage (Name c) (Args c) (Env c), RErr (Some e))]
                    /\ err = Some (fmt_Errorf "exec failed: %w" [] e))
       | Panicked => False
       end.
Proof.
  unfold Exec, NewFSRuleset, unix_Syscall, record.
  destruct (os_Syscall _ _ _ _ _) as [w0 [[fd r2] errno]].
  destruct (errno =? 0) eqn:E0; simpl.
  2:{ apply Z.eqb_neq in E0. destruct (errnoToError_nonzero errno E0) as [e ->].
      eexists _, fd, (replicate (length (AllowedFSAccessPaths c)) (false, 0)).
      split; [done|]. split; [apply length_replicate|]. simpl.
      split; [unfold Exec_calls; repeat prefix_step|].
      split; [by eexists|]. left. by repeat apply not_exec_cons. }
  apply Z.eqb_eq in E0 as ->.
  set (p1 := Process _ w0). set (rs := {| filedescriptor := fd |}).
  assert (trace p1 = trace p ++
            [(Syscall SYS_LANDLOCK_CREATE_RULESET (PtrRulesetAttr fsRights) (Word 24)
                (Word version), RSyscall fd r2 0)]) as Ht1 by done.
  clearbody p1.
  destruct (Exec_range_trace rs (AllowedFSAccessPaths c) p1)
    as (es2 & ds & Ht2 & Hlen & Hne2 & Hres).
  destruct (Exec_range rs (AllowedFSAccessPaths c) p1) as [p2 [e|]]; simpl in Ht2, Hres |- *.
  { eexists _, fd, ds. split; [by rewrite Ht2, Ht1, <- app_assoc|].
    split; [done|]. simpl.
    split; [unfold Exec_calls; repeat prefix_step|].
    split; [by eexists|]. left. by apply not_exec_cons. }
  destruct Hres as (Hcalls & ess & Hall & Hess).
  unfold Restrict, unix_Prctl, unix_Syscall, record.
  destruct (os_Prctl _ _ _ _ _ _) as [w3 [e|]]; simpl.
  { eexists _, fd, ds. split; [by rewrite Ht2, Ht1, <- !app_assoc|].
    split; [done|]. simpl. rewrite map_app, Hcalls. simpl.
    split; [unfold Exec_calls; repeat prefix_step|].
    split; [by eexists|]. left.
    apply not_exec_cons; [done|]. apply Forall_app. split; [done|].
    by repeat apply not_exec_cons. }
  destruct (os_Syscall _ _ _ _ _) as [w4 [[r1' r2'] errno']]; simpl.
  destruct (errnoToError errno') as [e|] eqn:Herrno.
  { eexists _, fd, ds. split; [by rewrite Ht2, Ht1, <- !app_assoc|].
    split; [done|]. simpl. rewrite map_app, Hcalls. simpl.
    split; [unfold Exec_calls; repeat prefix_step|].
    split; [by eexists|]. left.
    apply not_exec_cons; [done|]. apply Forall_app. split; [done|].
    by repeat apply not_exec_cons. }
  apply errnoToError_None in Herrno as ->.
  unfold os_Chdir_, record. destruct (os_Chdir _ _) as [w5 [e|]]; simpl.
  { eexists _, fd, ds. split; [by rewrite Ht2, Ht1, <- !app_assoc|].
    split; [done|]. simpl. rewrite map_app, Hcalls. simpl.
    split; [unfold Exec_calls; repeat prefix_step|].
    split; [by eexists|]. left.
    apply not_exec_cons; [done|]. apply Forall_app. split; [done|].
    by repeat apply not_exec_cons. }
  assert (sandbox_installed c
            ((Syscall SYS_LANDLOCK_CREATE_RULESET (PtrRulesetAttr fsRights) (Word 24)
                (Word version), RSyscall fd r2 0)
             :: es2 ++ [(Prctl PR_SET_NO_NEW_PRIVS 1 0 0 0, RErr None);
                        (Syscall SYS_LANDLOCK_RESTRICT_SELF (Word fd) (Word 0) (Word 0),
                         RSyscall r1' r2' 0);
                        (Chdir (Dir c), RErr None)])) as Hinst.
  { exists fd, r2, ess, r1', r2'. split; [done|]. by rewrite Hess. }
  unfold syscall_Exec, record. destruct (os_Exec _ _ _ _) as [w6 [e|]]; simpl.
  - eexists _, fd, ds. split; [by rewrite Ht2, Ht1, <- !app_assoc|].
    split; [done|]. simpl. rewrite map_app, Hcalls. simpl.
    split; [unfold Exec_calls; repeat prefix_step|].
    split; [by eexists|]. right. eexists _, e. split; [exact Hinst|].
    split; [|done]. simpl. by rewrite <- !app_assoc.
  - eexists _, fd, ds. split; [by rewrite Ht2, Ht1, <- !app_assoc|].
    split; [done|]. simpl. rewrite map_app, Hcalls. simpl.
    split; [unfold Exec_calls; repeat prefix_step|].
    eexists. split; [exact Hinst|]. simpl. by rewrite <- !app_assoc.
Qed.

End ExecOrder.

(** How a run of [Exec] ends, call by call. *)

Section ExecSteps.
Context {W : Type} `{OS W}.

Lemma wraps_refl (e : error) : wraps e e.
Proof. destruct e; by left. Qed.

Lemma stopped_at_app (es1 es2 : list entry) (cause : error) :
  Forall (fun x => failure x = None) es1 -> stopped_at es2 cause ->
  stopped_at (es1 ++ es2) cause.
Proof.
  intros Hok (pre & e & post & -> & Hpre & He & Hpost).
  exists (es1 ++ pre), e, post. split; [by rewrite <- app_assoc|].
  split; [by apply Forall_app|done].
Qed.

Lemma stopped_at_cons (e : entry) (es : list entry) (cause : error) :
  failure e = None -> stopped_at es cause -> stopped_at (e :: es) cause.
Proof. intros He. apply (stopped_at_app [e]). by constructor. Qed.

Lemma stopped_at_last (e : entry) (cause : error) :
  failure e = Some cause -> stopped_at [e] cause.
Proof. intros He. exists [], e, []. split; [done|]. split; [constructor|]. by split; [|left]. Qed.

Lemma stopped_at_failed (es : list entry) (cause : error) :
  stopped_at es cause -> ~ Forall (fun x => failure x = None) es.
Proof.
  intros (pre & e & post & -> & _ & He & _) Hall.
  apply Forall_app in Hall as [_ Hall]. apply Forall_cons in Hall as [Hall _]. congruence.
Qed.

Lemma allowed_ok (rs : FSRuleset) (path : string) (es : list entry) :
  allowed rs path es -> Forall (fun x => failure x = None) es.
Proof. intros (isDir & f & r1 & r2 & ec & ->). by repeat constructor. Qed.

(** One [Allow]: all its calls succeeded, or it stopped at the one that
    failed and returns the error of that call. *)
Lemma Allow_steps (rs : FSRuleset) (path : string) (p : process W) :
  match (Allow rs path p).2 with
  | None => allowed rs path (calls_between p (Allow rs path p).1)
  | Some err => stopped_at (calls_between p (Allow rs path p).1) err
  end.
Proof.
  destruct (Allow_trace rs path p) as [_ Hcases].
  destruct Hcases as [(isDir & e & -> & ->) | [(isDir & f & e & -> & ->)
    | (isDir & f & r1 & r2 & errno & errClose & -> & ->)]].
  - by apply stopped_at_last.
  - apply stopped_at_cons; [done|]. by apply stopped_at_last.
  - destruct (errnoToError errno) as [e|] eqn:He.
    + eexists [_; _], _, [_]. split; [done|]. split; [by repeat constructor|].
      split; [exact He|]. right. by eexists _, _.
    + apply errnoToError_None in He as ->. by exists isDir, f, r1, r2, errClose.
Qed.

(** The loop over the allowed paths. *)
Lemma Exec_range_steps (rs : FSRuleset) (paths : list string) (p : process W) :
  exists es,
    trace (Exec_range rs paths p).1 = trace p ++ es
    /\ match (Exec_range rs paths p).2 with
       | None => Forall (fun x => failure x = None) es
       | Some err => exists cause, stopped_at es cause /\ wraps err cause
       end.
Proof.
  revert p. induction paths as [|path paths IH]; intros p; simpl.
  { exists []. by rewrite app_nil_r. }
  pose proof (Allow_steps rs path p) as Hstep.
  destruct (Allow_trace rs path p) as [Ht _].
  destruct (Allow rs path p) as [p1 [e|]]; simpl in *.
  - eexists. split; [exact Ht|]. exists e. split; [done|]. right. apply wraps_refl.
  - destruct (IH p1) as (es2 & Ht2 & Hres). eexists (_ ++ es2).
    split; [by rewrite Ht2, Ht, app_assoc|].
    apply allowed_ok in Hstep.
    destruct (Exec_range rs paths p1).2 as [err|].
    + destruct Hres as (cause & Hstop & Hw). exists cause. split; [|done].
      by apply stopped_at_app.
    + by apply Forall_app.
Qed.

Lemma Exec_steps (c : CmdSandboxed.t) (p : process W) :
  match (Exec c p).2 with
  | ImageReplaced => Forall (fun x => failure x = None) (calls_between p (Exec c p).1)
  | Returned err =>
      exists err' cause,
        err = Some err' /\ wraps err' cause
        /\ stopped_at (calls_between p (Exec c p).1) cause
  | Panicked => False
  end.
Proof.
  unfold Exec, NewFSRuleset, unix_Syscall, record.
  destruct (os_Syscall _ _ _ _ _) as [w0 [[fd r2] errno]].
  destruct (errno =? 0) eqn:E0; simpl.
  2:{ apply Z.eqb_neq in E0. destruct (errnoToError_nonzero errno E0) as [e He].
      rewrite He. simpl. rewrite calls_between_app.
      eexists _, e. split; [done|]. split; [right; apply wraps_refl|].
      by apply stopped_at_last. }
  apply Z.eqb_eq in E0 as ->.
  set (e1 := (Syscall SYS_LANDLOCK_CREATE_RULESET (PtrRulesetAttr fsRights) (Word 24)
                (Word version), RSyscall fd r2 0)).
  set (p1 := Process _ w0). set (rs := {| filedescriptor := fd |}).
  assert (trace p1 = trace p ++ [e1]) as Ht1 by done.
  assert (failure e1 = None) as Hok1 by done.
  clearbody p1 e1.
  destruct (Exec_range_steps rs (AllowedFSAccessPaths c) p1) as (es2 & Ht2 & Hres).
  destruct (Exec_range rs (AllowedFSAccessPaths c) p1) as [p2 [e|]]; simpl in Ht2, Hres |- *.
  { destruct Hres as (cause & Hstop & Hw). exists e, cause. split; [done|]. split; [done|].
    rewrite (calls_between_eq p p2 (e1 :: es2)) by (by rewrite Ht2, Ht1, <- app_assoc).
    by apply stopped_at_cons. }
  unfold Restrict, unix_Prctl, unix_Syscall, record.
  destruct (os_Prctl _ _ _ _ _ _) as [w3 [e|]]; simpl.
  { eexists _, e. split; [done|]. split; [right; right; apply wraps_refl|].
    unfold calls_between. cbn [trace fst].
    rewrite Ht2, Ht1, <- !app_assoc, drop_app_length. apply stopped_at_cons; [done|].
    apply stopped_at_app; [done|]. by apply stopped_at_last. }
  destruct (os_Syscall _ _ _ _ _) as [w4 [[r1' r2'] errno']]; simpl.
  destruct (errnoToError errno') as [e|] eqn:Herrno.
  { eexists _, e. split; [done|]. split; [right; apply wraps_refl|].
    unfold calls_between. cbn [trace fst].
    rewrite Ht2, Ht1, <- !app_assoc, drop_app_length. apply stopped_at_cons; [done|].
    apply stopped_at_app; [done|]. apply stopped_at_cons; [done|].
    by apply stopped_at_last. }
  unfold os_Chdir_, record. destruct (os_Chdir _ _) as [w5 [e|]]; simpl.
  { eexists _, e. split; [done|]. split; [apply wraps_refl|].
    unfold calls_between. cbn [trace fst].
    rewrite Ht2, Ht1, <- !app_assoc, drop_app_length. apply stopped_at_cons; [done|].
    apply stopped_at_app; [done|]. do 2 (apply stopped_at_cons; [done|]).
    by apply stopped_at_last. }
  unfold syscall_Exec, record. destruct (os_Exec _ _ _ _) as [w6 [e|]]; simpl.
  - eexists _, e. split; [done|]. split; [right; apply wraps_refl|].
    unfold calls_between. cbn [trace fst].
    rewrite Ht2, Ht1, <- !app_assoc, drop_app_length. apply stopped_at_cons; [done|].
    apply stopped_at_app; [done|]. do 3 (apply stopped_at_cons; [done|]).
    by apply stopped_at_last.
  - unfold calls_between. cbn [trace fst].
    rewrite Ht2, Ht1, <- !app_assoc, drop_app_length. constructor; [done|].
    apply Forall_app. split; [done|]. by repeat constructor.
Qed.

End ExecSteps.

Section ExecComplete.
Context {W : Type} `{OS W}.

Lemma allow_calls_length (rs : FSRuleset) (paths : list string) (ds : list (bool * Z)) :
  length ds = length paths ->
  length (concat (zip_with (fun path (d : bool * Z) => Allow_calls rs path d.1 d.2) paths ds))
  = (4 * length paths)%nat.
Proof.
  revert ds. induction paths as [|path paths IH]; intros [|d ds] Hlen; try done.
  cbn [zip_with concat]. rewrite length_app, IH by (simpl in Hlen; lia).
  simpl. lia.
Qed.

Lemma allowed_length (rs : FSRuleset) (paths : list string) (ess : list (list entry)) :
  Forall2 (allowed rs) paths ess -> length (concat ess) = (4 * length paths)%nat.
Proof.
  induction 1 as [|path es paths ess (isDir & f & r1 & r2 & ec & ->) _ IH]; [done|].
  cbn [concat]. rewrite length_app, IH. simpl. lia.
Qed.

(** A run that replaced the image has made every call of the list. *)
Lemma Exec_complete (c : CmdSandboxed.t) (p : process W) :
  (Exec c p).2 = ImageReplaced ->
  exists fd ds,
    length ds = length (AllowedFSAccessPaths c)
    /\ map fst (calls_between p (Exec c p).1) = Exec_calls c fd ds.
Proof.
  intros Hr. destruct (Exec_trace c p) as (es & fd & ds & Ht & Hlen & Hpre & Hout).
  rewrite (calls_between_eq _ _ _ Ht). rewrite Hr in Hout.
  destruct Hout as (pre & (fd' & r2 & ess & r1' & r2' & Hall & ->) & ->).
  exists fd, ds. split; [done|]. apply prefix_length_eq; [done|].
  pose proof (allow_calls_length {| filedescriptor := fd |} _ _ Hlen) as Hl1.
  pose proof (allowed_length _ _ _ Hall) as Hl2.
  unfold Exec_calls. rewrite length_map.
  set (l1 := concat (zip_with _ _ _)) in *. set (l2 := concat ess) in *.
  clearbody l1 l2. simpl. rewrite !length_app. simpl. lia.
Qed.

End ExecComplete.

(** C3.  [Exec] performs its steps in this order: create the rule set,
    for each allowed path in list order test it, open it, add its rule and
    close it, set no-new-privileges, restrict the process, change to the
    working directory, replace the process image.  The calls it makes are an
    initial part of that list.  It replaces the image exactly when none of
    its calls failed, and then it has made every call of the list, the
    replacement of the image last.  Otherwise it returns an error: its calls
    stop at the first one that failed (only the deferred close of [Allow]
    may follow), the error returned is the error of that call or wraps it,
    and unless the failing step was the replacement of the image itself the
    command was never executed. *)
Theorem Exec_installs_sandbox_before_exec {W : Type} `{OS W} (c : CmdSandboxed.t)
    (p : process W) :
  trace (Exec c p).1 = trace p ++ calls_between p (Exec c p).1
  /\ (exists fd ds,
        length ds = length (AllowedFSAccessPaths c)
        /\ map fst (calls_between p (Exec c p).1) `prefix_of` Exec_calls c fd ds)
  /\ match (Exec c p).2 with
     | ImageReplaced =>
         exists pre, sandbox_installed c pre
           /\ calls_between p (Exec c p).1 =
              pre ++ [(ExecImage (Name c) (Args c) (Env c), RErr None)]
     | Returned err =>
         is_Some err
         /\ (Forall (fun e => ~ is_exec e) (calls_between p (Exec c p).1)
             \/ exists pre e, sandbox_installed c pre
                  /\ calls_between p (Exec c p).1 =
                     pre ++ [(ExecImage (Name c) (Args c) (Env c), RErr (Some e))]
                  /\ err = Some (fmt_Errorf "exec failed: %w" [] e))
     | Panicked => False
     end
  /\ ((Exec c p).2 = ImageReplaced <->
      Forall (fun e => failure e = None) (calls_between p (Exec c p).1))
  /\ ((Exec c p).2 = ImageReplaced ->
      exists fd ds,
        length ds = length (AllowedFSAccessPaths c)
        /\ map fst (calls_between p (Exec c p).1) = Exec_calls c fd ds)
  /\ (forall err,
        (Exec c p).2 = Returned err ->
        exists err' cause,
          err = Some err' /\ wraps err' cause
          /\ stopped_at (calls_between p (Exec c p).1) cause).
Proof.
  destruct (Exec_trace c p) as (es & fd & ds & Ht & Hlen & Hpre & Hout).
  pose proof (Exec_steps c p) as Hsteps. pose proof (Exec_complete c p) as Hall.
  rewrite (calls_between_eq _ _ _ Ht) in *.
  split; [done|]. split; [by exists fd, ds|]. split; [done|].
  split; [|split; [done|]].
  - destruct (Exec c p).2 as [|err|]; [done| |done].
    destruct Hsteps as (err' & cause & _ & _ & Hstop).
    split; [done|]. intros Hok. by apply stopped_at_failed in Hstop.
  - intros err Hr. by rewrite Hr in Hsteps.
Qed.

(** A run on which every call succeeds replaces the image; one whose second
    allowed path does not exist stops at the test of that path. *)
Lemma Exec_installs_sandbox_before_exec_witness :
  let c := {| Name := "/bin/make"; Args := ["make"; "all"]; Dir := "/repo/app";
              Env := ["PATH=/bin"];
              AllowedFSAccessPaths := ["/repo/app"; "/repo/app/main.c"] |} in
  let c' := {| Name := "/bin/make"; Args := ["make"]; Dir := "/repo/app"; Env := [];
               AllowedFSAccessPaths := ["/repo/app"; "/nowhere"; "/usr/lib"] |} in
  (Exec c (Process [] Linux_example)).2 = ImageReplaced
  /\ exists err' cause,
       Some (fmt_Errorf "adding landlock rule to permit fs access to %q failed: %w"
               ["/nowhere"] (PathError "stat" "/nowhere" 2)) = Some err'
       /\ wraps err' cause
       /\ stopped_at (calls_between (Process [] Linux_example)
                        (Exec c' (Process [] Linux_example)).1) cause.
Proof.
  split.
  - refine (proj2 (proj1 (proj2 (proj2 (proj2
              (Exec_installs_sandbox_before_exec
                 {| Name := "/bin/make"; Args := ["make"; "all"]; Dir := "/repo/app";
                    Env := ["PATH=/bin"];
                    AllowedFSAccessPaths := ["/repo/app"; "/repo/app/main.c"] |}
                 (Process [] Linux_example)))))) _).
    vm_compute. repeat constructor.
  - refine (proj2 (proj2 (proj2 (proj2 (proj2
              (Exec_installs_sandbox_before_exec
                 {| Name := "/bin/make"; Args := ["make"]; Dir := "/repo/app"; Env := [];
                    AllowedFSAccessPaths := ["/repo/app"; "/nowhere"; "/usr/lib"] |}
                 (Process [] Linux_example)))))) _ _).
    vm_compute. reflexivity.
Defined.

(** A run in which every step succeeds, and one whose second allowed path
    does not exist. *)
Example Exec_example :
  let c := {| Name := "/bin/make"; Args := ["make"; "all"]; Dir := "/repo/app";
              Env := ["PATH=/bin"];
              AllowedFSAccessPaths := ["/repo/app"; "/repo/app/main.c"] |} in
  (Exec c (Process [] Linux_example)).2 = ImageReplaced
  /\ map fst (trace (Exec c (Process [] Linux_example)).1) = Exec_calls c 3 [(true, 4); (false, 5)].
Proof. split; vm_compute; reflexivity. Qed.

Example Exec_example_missing_path :
  let c := {| Name := "/bin/make"; Args := ["make"]; Dir := "/repo/app"; Env := [];
              AllowedFSAccessPaths := ["/repo/app"; "/nowhere"; "/usr/lib"] |} in
  (Exec c (Process [] Linux_example)).2 =
    Returned (Some (fmt_Errorf "adding landlock rule to permit fs access to %q failed: %w"
                      ["/nowhere"] (PathError "stat" "/nowhere" 2)))
  /\ map fst (trace (Exec c (Process [] Linux_example)).1) =
     take 6 (Exec_calls c 3 [(true, 4); (false, 5); (true, 5)]).
Proof. split; vm_compute; reflexivity. Qed.

(** ** What [Allow], [Restrict] and the loop of [Exec] leave behind *)

Section SandboxSteps.
Context {W : Type} `{OS W}.

Local Ltac in_list H :=
  repeat (apply elem_of_cons in H as [H|H]; [try discriminate H|]);
  try (by apply elem_of_nil in H).

(** X8.  [Allow] leaks no descriptor: when it opened the path, its last
    call closes the descriptor that [open] returned, also when adding the
    rule failed, and it closes nothing before that; and it closes nothing
    that it has not opened. *)
Theorem Allow_closes_what_it_opens (rs : FSRuleset) (path : string) (p : process W) :
  let es := calls_between p (Allow rs path p).1 in
  (forall path' mode perm f,
     (Open path' mode perm, ROpen f None) ∈ es ->
     exists pre errClose,
       es = pre ++ [(Close f, RErr errClose)]
       /\ Forall (fun e => forall f', e.1 <> Close f') pre)
  /\ (forall f r,
        (Close f, r) ∈ es ->
        (Open path (Z.lor O_PATH O_CLOEXEC) 0, ROpen f None) ∈ es).
Proof.
  intros es. subst es.
  destruct (Allow_trace rs path p) as [_ Hcases].
  destruct Hcases as [(isDir & e & -> & _) | [(isDir & f0 & e & -> & _)
    | (isDir & f0 & r1 & r2 & errno & errClose & -> & _)]].
  - split; [intros path' mode perm f Hin|intros f r Hin]; in_list Hin.
  - split; [intros path' mode perm f Hin|intros f r Hin]; in_list Hin.
  - split; [intros path' mode perm f Hin|intros f r Hin]; in_list Hin.
    + injection Hin as -> -> -> ->.
      eexists [_; _; _], errClose. split; [done|].
      repeat constructor; simpl; discriminate.
    + injection Hin as -> ->. apply list_elem_of_further, list_elem_of_here.
Qed.

(** X9.  [Allow] returns nil exactly when the path could be examined and
    opened and the kernel accepted the rule: a failed test for a
    directory, a failed [open] and an errno of the system call that is not
    zero each give an error. *)
Theorem Allow_succeeds_iff (rs : FSRuleset) (path : string) (p : process W) :
  (Allow rs path p).2 = None <-> allowed rs path (calls_between p (Allow rs path p).1).
Proof.
  destruct (Allow_trace rs path p) as [_ Hcases].
  destruct Hcases as [(isDir & e & -> & ->) | [(isDir & f0 & e & -> & ->)
    | (isDir & f0 & r1 & r2 & errno & errClose & -> & ->)]].
  - split; [done|]. intros (? & ? & ? & ? & ? & Heq). discriminate Heq.
  - split; [done|]. intros (? & ? & ? & ? & ? & Heq). discriminate Heq.
  - split.
    + intros ->%errnoToError_None. by exists isDir, f0, r1, r2, errClose.
    + intros (? & ? & ? & ? & ? & Heq). injection Heq; intros; by subst.
Qed.

(** X10.  [Restrict] returns nil exactly when [prctl] succeeded and the
    system call that restricts the process answered errno zero. *)
Theorem Restrict_succeeds_iff (rs : FSRuleset) (p : process W) :
  (Restrict rs p).2 = None <->
  exists r1 r2,
    calls_between p (Restrict rs p).1 =
      [(Prctl PR_SET_NO_NEW_PRIVS 1 0 0 0, RErr None);
       (Syscall SYS_LANDLOCK_RESTRICT_SELF (Word (filedescriptor rs)) (Word 0) (Word 0),
        RSyscall r1 r2 0)].
Proof.
  unfold Restrict, unix_Prctl, unix_Syscall, record.
  destruct (os_Prctl _ _ _ _ _ _) as [w1 [e|]]; simpl.
  - rewrite calls_between_app. split; [done|]. intros (? & ? & Heq). discriminate Heq.
  - destruct (os_Syscall _ _ _ _ _) as [w2 [[r1 r2] errno]]; simpl.
    rewrite <- app_assoc, calls_between_app. split.
    + intros ->%errnoToError_None. by exists r1, r2.
    + intros (? & ? & Heq). injection Heq; intros; by subst.
Qed.

Lemma Allow_None_allowed (rs : FSRuleset) (path : string) (p : process W) :
  (Allow rs path p).2 = None -> allowed rs path (calls_between p (Allow rs path p).1).
Proof.
  destruct (Allow_outcome rs path p) as (es & isDir & f & Ht & _ & _ & Hok).
  intros Hnone. by rewrite (calls_between_eq _ _ _ Ht); auto.
Qed.

(** X11.  When the loop over the allowed paths in [Exec] fails, the error
    names the first path whose rule could not be added and wraps the error
    of [Allow] for it; the rules of all paths before it were added, one
    after the other; and the loop ended with that [Allow]: the paths after
    it were not touched. *)
Theorem Exec_range_stops_at_first_failure (rs : FSRuleset) (paths : list string)
    (p p' : process W) (err : error) :
  Exec_range rs paths p = (p', Some err) ->
  exists pre path post ess p1 e,
    paths = pre ++ path :: post
    /\ Forall2 (allowed rs) pre ess
    /\ trace p1 = trace p ++ concat ess
    /\ Allow rs path p1 = (p', Some e)
    /\ err = fmt_Errorf "adding landlock rule to permit fs access to %q failed: %w" [path] e.
Proof.
  revert p. induction paths as [|path paths IH]; intros p; simpl; [done|].
  pose proof (proj1 (Allow_trace rs path p)) as Hext.
  pose proof (Allow_None_allowed rs path p) as Hok.
  destruct (Allow rs path p) as [p1 [e|]] eqn:Hallow; simpl in *.
  - intros [= <- <-]. exists [], path, paths, [], p, e.
    repeat split; try done. simpl. by rewrite app_nil_r.
  - intros Hrest.
    destruct (IH p1 Hrest) as (pre & path' & post & ess & p2 & e & -> & Hall & Ht & Hfail & ->).
    exists (path :: pre), path', post, (calls_between p p1 :: ess), p2, e.
    repeat split; try done.
    + constructor; [by apply Hok|done].
    + simpl. by rewrite Ht, Hext, app_assoc.
Qed.

End SandboxSteps.

Lemma Allow_closes_what_it_opens_witness :
  exists pre errClose,
    calls_between (Process [] Linux_example)
      (Allow {| filedescriptor := 3 |} "/repo/app" (Process [] Linux_example)).1
    = pre ++ [(Close 3, RErr errClose)]
    /\ Forall (fun e => forall f', e.1 <> Close f') pre.
Proof.
  refine (proj1 (Allow_closes_what_it_opens {| filedescriptor := 3 |} "/repo/app"
                   (Process [] Linux_example)) "/repo/app" (Z.lor O_PATH O_CLOEXEC) 0 3 _).
  vm_compute. apply list_elem_of_further, list_elem_of_here.
Defined.

Lemma Allow_succeeds_iff_witness :
  allowed {| filedescriptor := 3 |} "/repo/app/main.c"
    (calls_between (Process [] Linux_example)
       (Allow {| filedescriptor := 3 |} "/repo/app/main.c" (Process [] Linux_example)).1).
Proof.
  refine (proj1 (Allow_succeeds_iff {| filedescriptor := 3 |} "/repo/app/main.c"
                   (Process [] Linux_example)) _).
  reflexivity.
Defined.

Lemma Restrict_succeeds_iff_witness :
  exists r1 r2,
    calls_between (Process [] Linux_example)
      (Restrict {| filedescriptor := 3 |} (Process [] Linux_example)).1 =
      [(Prctl PR_SET_NO_NEW_PRIVS 1 0 0 0, RErr None);
       (Syscall SYS_LANDLOCK_RESTRICT_SELF (Word 3) (Word 0) (Word 0), RSyscall r1 r2 0)].
Proof.
  refine (proj1 (Restrict_succeeds_iff {| filedescriptor := 3 |} (Process [] Linux_example)) _).
  reflexivity.
Defined.

Lemma Exec_range_stops_at_first_failure_witness :
  exists pre path post ess p1 e,
    ["/repo/app"; "/nowhere"; "/usr/lib"] = pre ++ path :: post
    /\ Forall2 (allowed {| filedescriptor := 3 |}) pre ess
    /\ trace p1 = trace (Process [] Linux_example) ++ concat ess
    /\ Allow {| filedescriptor := 3 |} path p1
       = ((Exec_range {| filedescriptor := 3 |} ["/repo/app"; "/nowhere"; "/usr/lib"]
             (Process [] Linux_example)).1, Some e)
    /\ fmt_Errorf "adding landlock rule to permit fs access to %q failed: %w"
         ["/nowhere"] (PathError "stat" "/nowhere" 2)
       = fmt_Errorf "adding landlock rule to permit fs access to %q failed: %w" [path] e.
Proof.
  refine (Exec_range_stops_at_first_failure {| filedescriptor := 3 |}
            ["/repo/app"; "/nowhere"; "/usr/lib"] (Process [] Linux_example) _ _ _).
  vm_compute. reflexivity.
Defined.

(** ** The task runner *)

Import Gob Baur.

(** Against C4 as it stands: with skipping after an error switched on and
    a run that failed before, [RunSandboxed] does not ask for untracked
    files; for a work tree that has one it returns the error for a skipped
    run. *)
Lemma RunSandboxed_skips_before_untracked_check :
  let t := {| skipAfterError := true; skipEnabled := true;
              GitUntrackedFilesFn := Some untracked_junk |} in
  untracked_junk tt (RepositoryRoot Task_example) = (tt, (["junk.txt"], None))
  /\ RunSandboxed (fun inputs : list string => inputs) t Task_example [] (Process [] tt)
     = (Process [] tt, Returned None (Some ErrTaskRunSkipped))
  /\ (RunSandboxed (fun inputs : list string => inputs) t Task_example [] (Process [] tt)).2
     <> Returned None (Some (ErrUntrackedGitFilesExist ["junk.txt"])).
Proof. split; [reflexivity|]. split; [reflexivity|]. discriminate. Qed.

(** C4 (amended).  When the runner is not skipping runs after an earlier
    error, the check for untracked files is configured and the version
    control system reports a list of untracked files that is not empty,
    [RunSandboxed] returns the error for untracked files with exactly that
    list, and the question to the version control system is the only call
    it made: no temporary task info file was written, no child was started.
    When the runner is skipping runs, it returns the error for a skipped
    run and makes no call at all. *)
Theorem RunSandboxed_untracked_files_gate {W : Type} `{Host W} {Input : Type}
    (InputsToFSPaths : list Input -> list string) (t : TaskRunner W) (task : Task)
    (inputs : list Input) (p : process W) :
  (skipAfterError t && SkipRunsIsEnabled t = true ->
     RunSandboxed InputsToFSPaths t task inputs p
     = (p, Returned None (Some ErrTaskRunSkipped)))
  /\ (forall fn w untracked,
        skipAfterError t && SkipRunsIsEnabled t = false ->
        GitUntrackedFilesFn t = Some fn ->
        fn (world p) (RepositoryRoot task) = (w, (untracked, None)) ->
        untracked <> [] ->
        RunSandboxed InputsToFSPaths t task inputs p
        = (Process (trace p ++ [(GitUntrackedFiles (RepositoryRoot task),
                                 RFiles untracked None)]) w,
           Returned None (Some (ErrUntrackedGitFilesExist untracked)))
        /\ Forall (fun e => ~ is_side_effect e.1)
             (calls_between p (RunSandboxed InputsToFSPaths t task inputs p).1)).
Proof.
  split.
  - intros Hskip. unfold RunSandboxed. by rewrite Hskip.
  - intros fn w untracked Hskip Hfn Hvcs Hne.
    assert (RunSandboxed InputsToFSPaths t task inputs p
            = (Process (trace p ++ [(GitUntrackedFiles (RepositoryRoot task),
                                     RFiles untracked None)]) w,
               Returned None (Some (ErrUntrackedGitFilesExist untracked)))) as Hrun.
    { unfold RunSandboxed. rewrite Hskip, Hfn, Hvcs. unfold record.
      destruct untracked as [|f files]; [done|]. reflexivity. }
    split; [exact Hrun|]. rewrite Hrun. unfold calls_between. simpl.
    rewrite drop_app_length. constructor; [|constructor]. simpl. tauto.
Qed.

Lemma RunSandboxed_untracked_files_gate_witness :
  RunSandboxed (fun inputs : list string => inputs)
    {| skipAfterError := true; skipEnabled := false;
       GitUntrackedFilesFn := Some untracked_junk |} Task_example ["/repo/app"]
    (Process [] tt)
  = (Process [(GitUntrackedFiles "/repo", RFiles ["junk.txt"] None)] tt,
     Returned None (Some (ErrUntrackedGitFilesExist ["junk.txt"]))).
Proof.
  refine (proj1 (proj2 (RunSandboxed_untracked_files_gate
            (fun inputs : list string => inputs)
            {| skipAfterError := true; skipEnabled := false;
               GitUntrackedFilesFn := Some untracked_junk |} Task_example ["/repo/app"]
            (Process [] tt)) untracked_junk tt ["junk.txt"] _ _ _ _));
    [reflexivity | reflexivity | reflexivity | discriminate].
Defined.

(** A clean work tree: the task info files are written, the child is run
    with the encoded command on its standard input, the files are deleted. *)
Example RunSandboxed_example :
  let r := RunSandboxed (fun inputs : list string => inputs)
             {| skipAfterError := false; skipEnabled := false;
                GitUntrackedFilesFn := Some (fun w _ => (w, ([], None))) |}
             Task_example ["/repo/app"] (Process [] tt) in
  map fst (trace r.1)
  = [GitUntrackedFiles "/repo"; CreateTaskInfoEnv Task_example; Environ; Now; Environ;
     RunCommand "/proc/self/exe" ["__run_sandboxed"] "/repo/app"
       ["PATH=/bin"; "BAUR_TASK=demo.build"]
       (gob_Encode (CmdSandboxed.Build "/bin/make" ["all"] "/repo/app"
                      ["PATH=/bin"; "BAUR_TASK=demo.build"] ["/repo/app"]));
     Now; DeleteTempTaskInfoFiles]
  /\ r.2 = Returned (Some {| Result_ := Some {| ExitCode := 0; Output := [] |};
                             StartTime := 1700000000; StopTime := 1700000000 |}) None.
Proof. split; vm_compute; reflexivity. Qed.

(** ** The gob transport *)

Section GobNumbers.

Lemma N_of_ascii_of_N (n : N) : (n < 256)%N -> N_of_ascii (ascii_of_N n) = n.
Proof. apply N_ascii_embedding. Qed.

Lemma be_bytes_length (n : nat) (x : N) : (length (be_bytes n x) <= n)%nat.
Proof.
  revert x. induction n as [|n IH]; intros x; simpl; [lia|].
  destruct (x =? 0)%N; simpl; [lia|]. rewrite length_app. simpl.
  specialize (IH (x / 256)%N). lia.
Qed.

Lemma be_bytes_nonempty (n : nat) (x : N) : (0 < x)%N -> be_bytes (S n) x <> [].
Proof.
  intros Hx. simpl. destruct (x =? 0)%N eqn:E; [apply N.eqb_eq in E; lia|].
  by destruct (be_bytes n (x / 256)%N).
Qed.

Lemma be_bytes_value (n : nat) (x : N) :
  (x < 256 ^ N.of_nat n)%N ->
  fold_left (fun a b => (a * 256 + N_of_ascii b)%N) (be_bytes n x) 0%N = x.
Proof.
  revert x. induction n as [|n IH]; intros x Hx.
  - simpl in *. lia.
  - simpl. destruct (x =? 0)%N eqn:E; [apply N.eqb_eq in E; by subst|].
    rewrite fold_left_app. simpl. rewrite IH.
    + rewrite N_of_ascii_of_N by (apply N.mod_lt; lia).
      pose proof (N.div_mod x 256). lia.
    + rewrite Nat2N.inj_succ, N.pow_succ_r' in Hx.
      apply N.Div0.div_lt_upper_bound. lia.
Qed.

Lemma decodeUint_encodeUint (x : N) (rest : list ascii) :
  (x < 2 ^ 64)%N -> decodeUint (encodeUint x ++ rest) = Some (x, rest).
Proof.
  intros Hx. unfold encodeUint. destruct (x <=? 127)%N eqn:Hsmall.
  - apply N.leb_le in Hsmall. simpl.
    rewrite N_of_ascii_of_N by lia. apply N.leb_le in Hsmall. by rewrite Hsmall.
  - apply N.leb_gt in Hsmall.
    pose proof (be_bytes_length 8 x) as Hlen.
    pose proof (be_bytes_nonempty 7 x ltac:(lia)) as Hne.
    assert (1 <= length (be_bytes 8 x))%nat as Hlen1.
    { destruct (be_bytes 8 x); [done|simpl; lia]. }
    set (bs := be_bytes 8 x) in *.
    cbn [app decodeUint].
    rewrite N_of_ascii_of_N by lia.
    replace (256 - (256 - N.of_nat (length bs)))%N with (N.of_nat (length bs)) by lia.
    destruct (256 - N.of_nat (length bs) <=? 127)%N eqn:E1; [apply N.leb_le in E1; lia|].
    unfold uint64Size.
    destruct (8 <? N.of_nat (length bs))%N eqn:E2; [apply N.ltb_lt in E2; lia|].
    destruct (N.of_nat (length (bs ++ rest)) <? N.of_nat (length bs))%N eqn:E3.
    { apply N.ltb_lt in E3. rewrite length_app in E3. lia. }
    rewrite Nat2N.id, take_app_length, drop_app_length.
    subst bs. rewrite be_bytes_value; [done|]. simpl. lia.
Qed.

Lemma decodeInt_encodeInt (i : Z) (rest : list ascii) :
  - 2 ^ 62 < i < 2 ^ 62 -> decodeInt (encodeInt i ++ rest) = Some (i, rest).
Proof.
  intros Hi. unfold decodeInt, encodeInt.
  destruct (i <? 0) eqn:Hneg.
  - apply Z.ltb_lt in Hneg.
    assert (Z.lor (Z.shiftl (Z.lnot i) 1) 1 = 2 * (- i - 1) + 1) as ->.
    { rewrite Z.shiftl_mul_pow2 by lia. unfold Z.lnot.
      replace (Z.pred (- i) * 2 ^ 1) with (2 * (- i - 1)) by lia.
      rewrite <- Z.add_nocarry_lor; [done|].
      apply Z.bits_inj'. intros n Hn. rewrite Z.land_spec, Z.bits_0.
      destruct n as [|q|q]; [by rewrite Z.testbit_even_0| |lia].
      replace (Z.testbit 1 (Z.pos q)) with false by reflexivity. apply andb_false_r. }
    rewrite decodeUint_encodeUint by lia. cbn [mbind option_bind].
    rewrite Z2N.id by lia. rewrite Z.testbit_odd_0.
    rewrite Z.shiftr_div_pow2 by lia.
    replace ((2 * (- i - 1) + 1) / 2 ^ 1) with (- i - 1).
    + unfold Z.lnot. f_equal. f_equal. lia.
    + change (2 ^ 1) with 2. apply Z.div_unique with 1; lia.
  - apply Z.ltb_ge in Hneg.
    rewrite Z.shiftl_mul_pow2 by lia.
    rewrite decodeUint_encodeUint by lia. cbn [mbind option_bind].
    rewrite Z2N.id by lia.
    replace (i * 2 ^ 1) with (2 * i) by lia.
    rewrite Z.testbit_even_0, Z.shiftr_div_pow2 by lia.
    change (2 ^ 1) with 2. rewrite Z.mul_comm, Z.div_mul by lia. done.
Qed.

End GobNumbers.

Section GobValues.

Lemma length_list_ascii_of_string (s : string) :
  length (list_ascii_of_string s) = String.length s.
Proof. induction s as [|a s IH]; simpl; [done|]. by rewrite IH. Qed.

Lemma encodeUint_nonempty (x : N) : (1 <= length (encodeUint x))%nat.
Proof. unfold encodeUint. destruct (x <=? 127)%N; simpl; lia. Qed.

Lemma encodeString_nonempty (s : string) : (1 <= length (encodeString s))%nat.
Proof.
  unfold encodeString. rewrite length_app. pose proof (encodeUint_nonempty
    (N.of_nat (String.length s))). lia.
Qed.

Lemma decodeString_encodeString (s : string) (rest : list ascii) :
  string_fits s -> decodeString (encodeString s ++ rest) = Some (s, rest).
Proof.
  intros Hs. unfold decodeString, encodeString.
  rewrite <- app_assoc, decodeUint_encodeUint by exact Hs. cbn [mbind option_bind].
  destruct (N.of_nat (length (list_ascii_of_string s ++ rest))
            <? N.of_nat (String.length s))%N eqn:E.
  { apply N.ltb_lt in E. rewrite length_app, length_list_ascii_of_string in E. lia. }
  rewrite Nat2N.id, <- length_list_ascii_of_string.
  by rewrite take_app_length, drop_app_length, string_of_list_ascii_of_string.
Qed.

Lemma decodeElements_encode (l : list string) (rest : list ascii) :
  Forall string_fits l ->
  decodeElements (length l) (concat (map encodeString l) ++ rest) = Some (l, rest).
Proof.
  induction 1 as [|s l Hs Hl IH]; [done|].
  cbn [length map concat decodeElements].
  rewrite <- app_assoc, decodeString_encodeString by done. cbn [mbind option_bind].
  by rewrite IH.
Qed.

Lemma length_concat_encodeString (l : list string) :
  (length l <= length (concat (map encodeString l)))%nat.
Proof.
  induction l as [|s l IH]; simpl; [lia|]. rewrite length_app.
  pose proof (encodeString_nonempty s). lia.
Qed.

Lemma decodeSlice_encodeSlice (l : list string) (rest : list ascii) :
  slice_fits l -> decodeSlice (encodeSlice l ++ rest) = Some (l, rest).
Proof.
  intros [Hlen Hall]. unfold decodeSlice, encodeSlice.
  rewrite <- app_assoc, decodeUint_encodeUint by exact Hlen. cbn [mbind option_bind].
  destruct (N.of_nat (length (concat (map encodeString l) ++ rest))
            <? N.of_nat (length l))%N eqn:E.
  { apply N.ltb_lt in E. rewrite length_app in E.
    pose proof (length_concat_encodeString l). lia. }
  rewrite Nat2N.id. by apply decodeElements_encode.
Qed.

End GobValues.

Section GobStruct.

Lemma encodeUint_small (d : Z) :
  0 <= d <= 127 -> encodeUint (Z.to_N d) = [ascii_of_N (Z.to_N d)].
Proof.
  intros Hd. unfold encodeUint. destruct (_ <=? _)%N eqn:E; [done|].
  apply N.leb_gt in E. lia.
Qed.

Lemma decodeUint_small (d : Z) (buf : list ascii) :
  0 <= d <= 127 -> decodeUint (ascii_of_N (Z.to_N d) :: buf) = Some (Z.to_N d, buf).
Proof.
  intros Hd. unfold decodeUint. rewrite N_of_ascii_of_N by lia.
  destruct (_ <=? _)%N eqn:E; [done|]. apply N.leb_gt in E. lia.
Qed.

(** One round of the struct decoder on a field that was sent. *)
Local Ltac round i f :=
  rewrite (encodeUint_small (i - f)) by lia;
  cbn [app decodeStruct_loop];
  rewrite (decodeUint_small (i - f)) by lia;
  cbn [mbind option_bind];
  rewrite Z2N.id by lia;
  destruct (i - f =? 0) eqn:?; [lia|];
  destruct (5 - (i - f) <=? f) eqn:?; [lia|];
  replace (f + (i - f)) with i by lia;
  cbn [Z.eqb Pos.eqb];
  first [ rewrite decodeString_encodeString by assumption
        | rewrite decodeSlice_encodeSlice by assumption ];
  cbn [mbind option_bind]; reflexivity.

Lemma round_Name (k : nat) (f : Z) (c : CmdSandboxed.t) (v : string) (rest : list ascii) :
  f < 0 -> -1 <= f -> string_fits v ->
  decodeStruct_loop (S k) f c (encodeUint (Z.to_N (0 - f)) ++ encodeString v ++ rest)
  = decodeStruct_loop k 0
      (CmdSandboxed.Build v (CmdSandboxed.Args c) (CmdSandboxed.Dir c)
         (CmdSandboxed.Env c) (CmdSandboxed.AllowedFSAccessPaths c)) rest.
Proof. intros Hf Hf' Hv. round 0 f. Qed.

Lemma round_Args (k : nat) (f : Z) (c : CmdSandboxed.t) (v : list string)
    (rest : list ascii) :
  f < 1 -> -1 <= f -> slice_fits v ->
  decodeStruct_loop (S k) f c (encodeUint (Z.to_N (1 - f)) ++ encodeSlice v ++ rest)
  = decodeStruct_loop k 1
      (CmdSandboxed.Build (CmdSandboxed.Name c) v (CmdSandboxed.Dir c)
         (CmdSandboxed.Env c) (CmdSandboxed.AllowedFSAccessPaths c)) rest.
Proof. intros Hf Hf' Hv. round 1 f. Qed.

Lemma round_Dir (k : nat) (f : Z) (c : CmdSandboxed.t) (v : string) (rest : list ascii) :
  f < 2 -> -1 <= f -> string_fits v ->
  decodeStruct_loop (S k) f c (encodeUint (Z.to_N (2 - f)) ++ encodeString v ++ rest)
  = decodeStruct_loop k 2
      (CmdSandboxed.Build (CmdSandboxed.Name c) (CmdSandboxed.Args c) v
         (CmdSandboxed.Env c) (CmdSandboxed.AllowedFSAccessPaths c)) rest.
Proof. intros Hf Hf' Hv. round 2 f. Qed.

Lemma round_Env (k : nat) (f : Z) (c : CmdSandboxed.t) (v : list string)
    (rest : list ascii) :
  f < 3 -> -1 <= f -> slice_fits v ->
  decodeStruct_loop (S k) f c (encodeUint (Z.to_N (3 - f)) ++ encodeSlice v ++ rest)
  = decodeStruct_loop k 3
      (CmdSandboxed.Build (CmdSandboxed.Name c) (CmdSandboxed.Args c)
         (CmdSandboxed.Dir c) v (CmdSandboxed.AllowedFSAccessPaths c)) rest.
Proof. intros Hf Hf' Hv. round 3 f. Qed.

Lemma round_AllowedFSAccessPaths (k : nat) (f : Z) (c : CmdSandboxed.t)
    (v : list string) (rest : list ascii) :
  f < 4 -> -1 <= f -> slice_fits v ->
  decodeStruct_loop (S k) f c (encodeUint (Z.to_N (4 - f)) ++ encodeSlice v ++ rest)
  = decodeStruct_loop k 4
      (CmdSandboxed.Build (CmdSandboxed.Name c) (CmdSandboxed.Args c)
         (CmdSandboxed.Dir c) (CmdSandboxed.Env c) v) rest.
Proof. intros Hf Hf' Hv. round 4 f. Qed.

(** The end mark. *)
Lemma round_end (k : nat) (f : Z) (c : CmdSandboxed.t) (rest : list ascii) :
  decodeStruct_loop (S k) f c (encodeUint 0 ++ rest) = Some c.
Proof. reflexivity. Qed.

Lemma decodeStruct_encodeStruct (c : CmdSandboxed.t) (rest : list ascii) :
  string_fits (CmdSandboxed.Name c) ->
  slice_fits (CmdSandboxed.Args c) ->
  string_fits (CmdSandboxed.Dir c) ->
  slice_fits (CmdSandboxed.Env c) ->
  slice_fits (CmdSandboxed.AllowedFSAccessPaths c) ->
  decodeStruct (encodeStruct c ++ rest) = Some c.
Proof.
  destruct c as [name args dir env paths].
  cbn [CmdSandboxed.Name CmdSandboxed.Args CmdSandboxed.Dir CmdSandboxed.Env
       CmdSandboxed.AllowedFSAccessPaths].
  intros Hname Hargs Hdir Henv Hpaths.
  unfold decodeStruct, encodeStruct, encString, encSlice.
  destruct name as [|a0 name], args as [|a1 args], dir as [|a2 dir], env as [|a3 env],
    paths as [|a4 paths];
    cbn [String.length length Nat.eqb fst snd CmdSandboxed.Name CmdSandboxed.Args
         CmdSandboxed.Dir CmdSandboxed.Env CmdSandboxed.AllowedFSAccessPaths];
    rewrite <- ?app_assoc; cbn [app];
    repeat first
      [ rewrite round_Name by first [lia | assumption]
      | rewrite round_Args by first [lia | assumption]
      | rewrite round_Dir by first [lia | assumption]
      | rewrite round_Env by first [lia | assumption]
      | rewrite round_AllowedFSAccessPaths by first [lia | assumption] ];
    rewrite round_end; reflexivity.
Qed.

End GobStruct.

Section GobStream.

Lemma writeMessage_nonempty (contents : list ascii) :
  (1 <= length (writeMessage contents))%nat.
Proof.
  unfold writeMessage. rewrite length_app.
  pose proof (encodeUint_nonempty (N.of_nat (length contents))). lia.
Qed.

(** One round of the message loop. *)
Lemma gob_Decode_round (k : nat) (defined : list Z) (id : Z) (body rest : list ascii) :
  - 2 ^ 62 < id < 2 ^ 62 ->
  fits_uint64 (length (encodeInt id ++ body)) ->
  gob_Decode_loop (S k) defined (writeMessage (encodeInt id ++ body) ++ rest)
  = if id <? 0 then
      if bool_decide (- id ∈ defined) then None
      else gob_Decode_loop k (- id :: defined) rest
    else if bool_decide (id ∈ defined) then decodeStruct body else None.
Proof.
  intros Hid Hfits. unfold writeMessage. cbn [gob_Decode_loop].
  rewrite <- app_assoc, decodeUint_encodeUint by exact Hfits. cbn [mbind option_bind].
  destruct (N.of_nat (length ((encodeInt id ++ body) ++ rest))
            <? N.of_nat (length (encodeInt id ++ body)))%N eqn:E.
  { apply N.ltb_lt in E. rewrite (length_app _ rest) in E. lia. }
  rewrite Nat2N.id, take_app_length, drop_app_length.
  rewrite decodeInt_encodeInt by exact Hid. cbn [mbind option_bind]. reflexivity.
Qed.

Lemma gob_Decode_gob_Encode (c : CmdSandboxed.t) :
  CmdSandboxed_fits c -> gob_Decode (gob_Encode c) = Some c.
Proof.
  intros (Hname & Hargs & Hdir & Henv & Hpaths & Hmsg).
  unfold gob_Decode.
  assert (exists k, length (gob_Encode c) = S (S (S k))) as [k ->].
  { assert (3 <= length (gob_Encode c))%nat as Hlen;
      [|destruct (length (gob_Encode c)) as [|[|[|k]]]; try lia; by exists k].
    unfold gob_Encode, CmdSandboxed_typeDefinitions, sendType. rewrite !length_app.
    pose proof (writeMessage_nonempty (encodeInt idCmdSandboxed ++ encodeStruct c)).
    pose proof (writeMessage_nonempty (encodeInt (- idCmdSandboxed) ++
      encodeStructType "CmdSandboxed" idCmdSandboxed
        [("Name", tString); ("Args", idStringSlice); ("Dir", tString);
         ("Env", idStringSlice); ("AllowedFSAccessPaths", idStringSlice)])).
    pose proof (writeMessage_nonempty (encodeInt (- idStringSlice) ++
      encodeSliceType "[]string" idStringSlice tString)).
    lia. }
  unfold gob_Encode, CmdSandboxed_typeDefinitions, sendType.
  rewrite <- !app_assoc.
  rewrite gob_Decode_round; [|by vm_compute|by vm_compute].
  replace (- idCmdSandboxed <? 0) with true by reflexivity.
  replace (bool_decide (- - idCmdSandboxed ∈ [])) with false by reflexivity.
  rewrite gob_Decode_round; [|by vm_compute|by vm_compute].
  replace (- idStringSlice <? 0) with true by reflexivity.
  replace (bool_decide (- - idStringSlice ∈ [- - idCmdSandboxed])) with false
    by reflexivity.
  rewrite <- (app_nil_r (writeMessage _)).
  rewrite gob_Decode_round; [|by vm_compute|exact Hmsg].
  replace (idCmdSandboxed <? 0) with false by reflexivity.
  replace (bool_decide (idCmdSandboxed ∈ [- - idStringSlice; - - idCmdSandboxed]))
    with true by reflexivity.
  rewrite <- (app_nil_r (encodeStruct c)). by apply decodeStruct_encodeStruct.
Qed.

End GobStream.

(** C9.  Decoding what [encodeCmdSb] wrote gives the command back, field by
    field: [Name], [Args], [Dir], [Env] and [AllowedFSAccessPaths].  (A Go
    slice that is empty and one that is nil are the same list here; gob
    sends neither.) *)
Theorem decodeCmdSb_encodeCmdSb (c : CmdSandboxed.t) :
  CmdSandboxed_fits c ->
  exists buf, encodeCmdSb c = inr buf /\ decodeCmdSb buf = inr c.
Proof.
  intros Hfits. exists (gob_Encode c). split; [reflexivity|].
  unfold decodeCmdSb. by rewrite gob_Decode_gob_Encode.
Qed.

Lemma decodeCmdSb_encodeCmdSb_witness :
  exists buf,
    encodeCmdSb (CmdSandboxed.Build "/bin/make" ["make"; ""; "all"] "/repo/app"
                   ["PATH=/bin"] []) = inr buf
    /\ decodeCmdSb buf = inr (CmdSandboxed.Build "/bin/make" ["make"; ""; "all"] "/repo/app"
                                ["PATH=/bin"] []).
Proof.
  apply decodeCmdSb_encodeCmdSb.
  unfold CmdSandboxed_fits, slice_fits, string_fits, fits_uint64.
  repeat split; repeat constructor.
Defined.

(** The bytes of a small command: the two type definitions (88 and 22 bytes
    after their length), then the value. *)
Example gob_Encode_example :
  map N_of_ascii
    (drop 112 (gob_Encode (CmdSandboxed.Build "sh" ["-c"] "" [] ["/"])))
  = [16; 255; 130; 1; 2; 115; 104; 1; 1; 2; 45; 99; 3; 1; 1; 47; 0]%N.
Proof. vm_compute. reflexivity. Qed.

(** ** What a run of [RunSandboxed] leaves behind *)

Section RunnerPaths.
Context {W : Type} `{Host W} {Input : Type} (InputsToFSPaths : list Input -> list string).

(** Every way through [RunSandboxed], with the calls it makes. *)
Lemma RunSandboxed_paths (t : TaskRunner W) (task : Task) (inputs : list Input)
    (p : process W) :
  let r := RunSandboxed InputsToFSPaths t task inputs p in
  let es := calls_between p r.1 in
  let g := (untracked_files_gate t task p).1 in
  trace r.1 = trace p ++ es
  /\ if skipAfterError t && SkipRunsIsEnabled t
     then es = [] /\ r.2 = Returned None (Some ErrTaskRunSkipped)
     else match (untracked_files_gate t task p).2 with
     | Some e => es = g /\ r.2 = Returned None (Some e)
     | None =>
       exists env cerr,
       match cerr with
       | Some e =>
           es = g ++ [(CreateTaskInfoEnv task, REnv env (Some e))]
           /\ r.2 = Returned None (Some e)
       | None =>
         match Command task with
         | [] =>
             es = g ++ [(CreateTaskInfoEnv task, REnv env None);
                        (DeleteTempTaskInfoFiles, RDone)]
             /\ r.2 = Panicked
         | name :: args =>
           exists environ start environ' res rerr,
           let run :=
             (RunCommand "/proc/self/exe" [baurRunSandboxedSubCmd] (Directory task)
                (environ' ++ env)
                (gob_Encode (sandboxed_command InputsToFSPaths task inputs name args
                               environ env)),
              RResult res rerr) in
           match rerr with
           | Some e =>
               es = g ++ [(CreateTaskInfoEnv task, REnv env None);
                          (Environ, REnv environ None); (Now, RTime start);
                          (Environ, REnv environ' None); run;
                          (DeleteTempTaskInfoFiles, RDone)]
               /\ r.2 = Returned None (Some e)
           | None =>
               exists stop,
               es = g ++ [(CreateTaskInfoEnv task, REnv env None);
                          (Environ, REnv environ None); (Now, RTime start);
                          (Environ, REnv environ' None); run; (Now, RTime stop);
                          (DeleteTempTaskInfoFiles, RDone)]
               /\ r.2 = Returned (Some {| Result_ := res; StartTime := start;
                                          StopTime := stop |}) None
           end
         end
       end
     end.
Proof.
  cbv zeta. unfold RunSandboxed, untracked_files_gate, calls_between.
  destruct (skipAfterError t && SkipRunsIsEnabled t).
  { simpl. by rewrite drop_all, app_nil_r. }
  destruct (GitUntrackedFilesFn t) as [fn|];
    [destruct (fn _ _) as [w0 [untracked [e|]]]; [|destruct untracked as [|file files]]|];
    unfold record; cbn [fst snd trace world length Nat.eqb negb app].
  1, 3: by rewrite drop_app_length.
  all: destruct (host_createTaskInfoEnv _ task) as [w1 [env [e|]]];
    cbn [fst snd trace world].
  1, 3: rewrite <- ?app_assoc, drop_app_length; split; [done|]; by exists env, (Some e).
  all: destruct (Command task) as [|name args]; cbn [fst snd trace world].
  1, 3: rewrite <- ?app_assoc, drop_app_length; split; [done|]; by exists env, None.
  all: unfold encodeCmdSb; cbn [fst snd trace world].
  all: destruct (host_Now w1) as [w2 start]; cbn [fst snd trace world].
  all: destruct (host_Run _ _ _ _ _ _) as [w3 [res [e|]]]; cbn [fst snd trace world].
  1, 3: rewrite <- ?app_assoc, drop_app_length; split; [done|]; exists env, None;
        by exists (host_Environ w1), start, (host_Environ w2), res, (Some e).
  all: destruct (host_Now w3) as [w4 stop]; cbn [fst snd trace world].
  all: rewrite <- ?app_assoc, drop_app_length; split; [done|]; exists env, None;
       exists (host_Environ w1), start, (host_Environ w2), res, None; by exists stop.
Qed.

Lemma untracked_files_gate_calls (t : TaskRunner W) (task : Task) (p : process W)
    (e : call * reply) :
  e ∈ (untracked_files_gate t task p).1 ->
  exists files err, e = (GitUntrackedFiles (RepositoryRoot task), RFiles files err).
Proof.
  unfold untracked_files_gate. destruct (GitUntrackedFilesFn t) as [fn|]; simpl.
  - destruct (fn _ _) as [w [untracked err]]. simpl.
    intros ->%list_elem_of_singleton. by eexists _, _.
  - by intros ?%elem_of_nil.
Qed.

Lemma untracked_files_gate_passes (t : TaskRunner W) (task : Task) (p : process W) :
  (untracked_files_gate t task p).2 = None <->
  (GitUntrackedFilesFn t = None
   \/ exists fn w, GitUntrackedFilesFn t = Some fn
        /\ fn (world p) (RepositoryRoot task) = (w, ([], None))).
Proof.
  unfold untracked_files_gate. destruct (GitUntrackedFilesFn t) as [fn|]; simpl.
  - destruct (fn _ _) as [w [untracked [e|]]] eqn:Hfn; simpl.
    + split; [done|]. intros [?|(fn' & w' & [= <-] & Hfn')]; [done|]. congruence.
    + destruct untracked as [|file files]; simpl.
      * split; [|done]. intros _. right. by exists fn, w.
      * split; [done|]. intros [?|(fn' & w' & [= <-] & Hfn')]; [done|]. congruence.
  - split; [|done]. by left.
Qed.

Lemma gate_no_delete (t : TaskRunner W) (task : Task) (p : process W) :
  Forall (fun e => e.1 <> DeleteTempTaskInfoFiles) (untracked_files_gate t task p).1.
Proof.
  apply Forall_forall. intros e (files & err & ->)%untracked_files_gate_calls. done.
Qed.

Local Ltac in_gate H :=
  apply untracked_files_gate_calls in H as (? & ? & H); discriminate H.

Local Ltac in_list H :=
  repeat (apply elem_of_cons in H as [H|H]; [try discriminate H|]);
  try (by apply elem_of_nil in H).

Local Ltac in_calls H :=
  apply elem_of_app in H as [H|H]; [in_gate H|in_list H].

(** X12.  The temporary task info files are deleted on every way out of
    [RunSandboxed] that comes after they were created: when
    [createTaskInfoEnv] succeeded, the last call of the run deletes them,
    whether the child ran, failed to start, or the function panicked, and
    they are deleted once; and nothing is deleted in a run that has not
    created them. *)
Theorem RunSandboxed_deletes_temp_files (t : TaskRunner W) (task : Task)
    (inputs : list Input) (p : process W) :
  let es := calls_between p (RunSandboxed InputsToFSPaths t task inputs p).1 in
  (forall env,
     (CreateTaskInfoEnv task, REnv env None) ∈ es ->
     exists pre,
       es = pre ++ [(DeleteTempTaskInfoFiles, RDone)]
       /\ Forall (fun e => e.1 <> DeleteTempTaskInfoFiles) pre)
  /\ (forall r,
        (DeleteTempTaskInfoFiles, r) ∈ es ->
        exists env, (CreateTaskInfoEnv task, REnv env None) ∈ es).
Proof.
  destruct (RunSandboxed_paths t task inputs p) as [_ Hpaths]. cbv zeta in *.
  pose proof (gate_no_delete t task p) as Hgate.
  destruct (skipAfterError t && SkipRunsIsEnabled t).
  { destruct Hpaths as [-> _]. split; [intros env Hin|intros r Hin]; by apply elem_of_nil in Hin. }
  destruct (untracked_files_gate t task p).2 as [e|].
  { destruct Hpaths as [-> _]. split; [intros env Hin|intros r Hin]; in_gate Hin. }
  destruct Hpaths as (env & [e|] & Hpaths).
  { destruct Hpaths as [-> _]. split; [intros env' Hin|intros r Hin]; in_calls Hin. }
  destruct (Command task) as [|name args].
  { destruct Hpaths as [-> _]. split; [intros env' _|intros r _].
    - eexists (_ ++ [_]). rewrite <- app_assoc. split; [done|].
      apply Forall_app. split; [done|]. by repeat constructor.
    - exists env. apply elem_of_app. right. apply list_elem_of_here. }
  destruct Hpaths as (environ & start & environ' & res & [e|] & Hpaths).
  - destruct Hpaths as [-> _]. split; [intros env' _|intros r _].
    + eexists (_ ++ [_; _; _; _; _]). rewrite <- app_assoc. split; [done|].
      apply Forall_app. split; [done|]. by repeat constructor.
    + exists env. apply elem_of_app. right. apply list_elem_of_here.
  - destruct Hpaths as (stop & -> & _). split; [intros env' _|intros r _].
    + eexists (_ ++ [_; _; _; _; _; _]). rewrite <- app_assoc. split; [done|].
      apply Forall_app. split; [done|]. by repeat constructor.
    + exists env. apply elem_of_app. right. apply list_elem_of_here.
Qed.

(** X13.  Whenever [RunSandboxed] starts a child, the child is
    [/proc/self/exe __run_sandboxed] in the directory of the task, and the
    data on its standard input is the encoding of the command of the task:
    its first word as the name, the other words as the arguments, the
    directory of the task, the process environment followed by the task
    info environment, and the paths of the inputs; decoding the data gives
    that command back. *)
Theorem RunSandboxed_child_gets_the_command (t : TaskRunner W) (task : Task)
    (inputs : list Input) (p : process W) (name : string) (args : list string)
    (dir : string) (env' : list string) (extraData : list ascii) (r : reply) :
  let es := calls_between p (RunSandboxed InputsToFSPaths t task inputs p).1 in
  (RunCommand name args dir env' extraData, r) ∈ es ->
  name = "/proc/self/exe" /\ args = [baurRunSandboxedSubCmd] /\ dir = Directory task
  /\ exists cmdName cmdArgs environ env,
       Command task = cmdName :: cmdArgs
       /\ (CreateTaskInfoEnv task, REnv env None) ∈ es
       /\ (Environ, REnv environ None) ∈ es
       /\ let cmd := sandboxed_command InputsToFSPaths task inputs cmdName cmdArgs
                       environ env in
          extraData = gob_Encode cmd
          /\ (CmdSandboxed_fits cmd -> decodeCmdSb extraData = inr cmd).
Proof.
  destruct (RunSandboxed_paths t task inputs p) as [_ Hpaths]. cbv zeta in *.
  destruct (skipAfterError t && SkipRunsIsEnabled t).
  { destruct Hpaths as [-> _]. by intros Hin%elem_of_nil. }
  destruct (untracked_files_gate t task p).2 as [e|].
  { destruct Hpaths as [-> _]. intros Hin. in_gate Hin. }
  destruct Hpaths as (env & [e|] & Hpaths).
  { destruct Hpaths as [-> _]. intros Hin. in_calls Hin. }
  destruct (Command task) as [|cmdName cmdArgs].
  { destruct Hpaths as [-> _]. intros Hin. in_calls Hin. }
  assert (forall c : CmdSandboxed.t,
            CmdSandboxed_fits c -> decodeCmdSb (gob_Encode c) = inr c) as Hround.
  { intros c Hfits. unfold decodeCmdSb. by rewrite gob_Decode_gob_Encode. }
  destruct Hpaths as (environ & start & environ' & res & [e|] & Hpaths).
  - destruct Hpaths as [-> _]. intros Hin. in_calls Hin.
    injection Hin as -> -> -> -> -> _. repeat split.
    exists cmdName, cmdArgs, environ, env. split; [done|].
    split; [apply elem_of_app; right; apply list_elem_of_here|].
    split; [apply elem_of_app; right; apply list_elem_of_further, list_elem_of_here|].
    split; [done|apply Hround].
  - destruct Hpaths as (stop & -> & _). intros Hin. in_calls Hin.
    injection Hin as -> -> -> -> -> _. repeat split.
    exists cmdName, cmdArgs, environ, env. split; [done|].
    split; [apply elem_of_app; right; apply list_elem_of_here|].
    split; [apply elem_of_app; right; apply list_elem_of_further, list_elem_of_here|].
    split; [done|apply Hround].
Qed.

(** X14.  [RunSandboxed] gets as far as creating the task info files
    exactly when it is not skipping runs and the check for untracked files
    lets the task through: no check is configured, or the version control
    system answers with an empty list and no error. *)
Theorem RunSandboxed_creates_task_info_iff_gate_passes (t : TaskRunner W) (task : Task)
    (inputs : list Input) (p : process W) :
  let es := calls_between p (RunSandboxed InputsToFSPaths t task inputs p).1 in
  (exists r, (CreateTaskInfoEnv task, r) ∈ es) <->
  skipAfterError t && SkipRunsIsEnabled t = false
  /\ (GitUntrackedFilesFn t = None
      \/ exists fn w, GitUntrackedFilesFn t = Some fn
           /\ fn (world p) (RepositoryRoot task) = (w, ([], None))).
Proof.
  destruct (RunSandboxed_paths t task inputs p) as [_ Hpaths]. cbv zeta in *.
  rewrite <- untracked_files_gate_passes.
  destruct (skipAfterError t && SkipRunsIsEnabled t).
  { destruct Hpaths as [-> _]. split; [|by intros [? _]]. by intros [r Hin%elem_of_nil]. }
  destruct (untracked_files_gate t task p).2 as [e|].
  { destruct Hpaths as [-> _]. split; [|by intros [_ ?]]. intros [r Hin]. in_gate Hin. }
  split; [done|]. intros _.
  destruct Hpaths as (env & [e|] & Hpaths).
  { destruct Hpaths as [-> _]. eexists. apply elem_of_app. right. apply list_elem_of_here. }
  destruct (Command task) as [|name args].
  { destruct Hpaths as [-> _]. eexists. apply elem_of_app. right. apply list_elem_of_here. }
  destruct Hpaths as (environ & start & environ' & res & [e|] & Hpaths).
  - destruct Hpaths as [-> _]. eexists. apply elem_of_app. right. apply list_elem_of_here.
  - destruct Hpaths as (stop & -> & _). eexists. apply elem_of_app. right.
    apply list_elem_of_here.
Qed.

(** X15.  [RunSandboxed] panics exactly when the command of the task is
    empty and the run got as far as creating the task info files: taking
    the first word of the command is what fails, after the files were
    written. *)
Theorem RunSandboxed_panics_iff_empty_command (t : TaskRunner W) (task : Task)
    (inputs : list Input) (p : process W) :
  let r := RunSandboxed InputsToFSPaths t task inputs p in
  r.2 = Panicked <->
  Command task = []
  /\ exists env, (CreateTaskInfoEnv task, REnv env None) ∈ calls_between p r.1.
Proof.
  destruct (RunSandboxed_paths t task inputs p) as [_ Hpaths]. cbv zeta in *.
  destruct (skipAfterError t && SkipRunsIsEnabled t).
  { destruct Hpaths as [-> ->]. split; [done|]. by intros [_ [env Hin%elem_of_nil]]. }
  destruct (untracked_files_gate t task p).2 as [e|].
  { destruct Hpaths as [-> ->]. split; [done|]. intros [_ [env Hin]]. in_gate Hin. }
  destruct Hpaths as (env & [e|] & Hpaths).
  { destruct Hpaths as [-> ->]. split; [done|]. intros [_ [env' Hin]]. in_calls Hin. }
  destruct (Command task) as [|name args].
  { destruct Hpaths as [-> ->]. split; [|done]. intros _. split; [done|].
    exists env. apply elem_of_app. right. apply list_elem_of_here. }
  destruct Hpaths as (environ & start & environ' & res & [e|] & Hpaths).
  - destruct Hpaths as [_ ->]. split; [done|]. by intros [? _].
  - destruct Hpaths as (stop & _ & ->). split; [done|]. by intros [? _].
Qed.

(** X16.  [RunSandboxed] returns a result exactly when it returns no
    error.  The result carries what the child returned; its start time was
    read from the clock before the child was started and its stop time
    after the child had returned, and the task info files were deleted
    after that. *)
Theorem RunSandboxed_result_times_the_child (t : TaskRunner W) (task : Task)
    (inputs : list Input) (p : process W) :
  let r := RunSandboxed InputsToFSPaths t task inputs p in
  (forall res err, r.2 = Returned res err -> (is_Some res <-> err = None))
  /\ (forall result,
        r.2 = Returned (Some result) None ->
        exists pre environ env extraData,
          calls_between p r.1
          = pre ++ [(Now, RTime (StartTime result));
                    (Environ, REnv environ None);
                    (RunCommand "/proc/self/exe" [baurRunSandboxedSubCmd] (Directory task)
                       (environ ++ env) extraData,
                     RResult (Result_ result) None);
                    (Now, RTime (StopTime result));
                    (DeleteTempTaskInfoFiles, RDone)]).
Proof.
  destruct (RunSandboxed_paths t task inputs p) as [_ Hpaths]. cbv zeta in *.
  assert (forall (e : error) res err,
            Returned None (Some e) = Returned res err -> is_Some res <-> err = None) as Hfail.
  { intros e res err [= <- <-]. split; [by intros [? ?]|done]. }
  destruct (skipAfterError t && SkipRunsIsEnabled t).
  { destruct Hpaths as [_ ->]. split; [apply Hfail|done]. }
  destruct (untracked_files_gate t task p).2 as [e|].
  { destruct Hpaths as [_ ->]. split; [apply Hfail|done]. }
  destruct Hpaths as (env & [e|] & Hpaths).
  { destruct Hpaths as [_ ->]. split; [apply Hfail|done]. }
  destruct (Command task) as [|name args].
  { destruct Hpaths as [_ ->]. split; done. }
  destruct Hpaths as (environ & start & environ' & res & [e|] & Hpaths).
  - destruct Hpaths as [_ ->]. split; [apply Hfail|done].
  - destruct Hpaths as (stop & -> & ->). split.
    + intros res' err [= <- <-]. split; [done|]. by eexists.
    + intros result [= <-]. simpl.
      eexists (_ ++ [_; _]), environ', env, _. by rewrite <- app_assoc.
Qed.

End RunnerPaths.

Lemma RunSandboxed_deletes_temp_files_witness :
  let p := Process [] tt in
  let t := {| skipAfterError := false; skipEnabled := false; GitUntrackedFilesFn := None |} in
  exists pre,
    calls_between p (RunSandboxed (fun inputs : list string => inputs) t Task_example
                       ["/repo/app"] p).1
    = pre ++ [(DeleteTempTaskInfoFiles, RDone)]
    /\ Forall (fun e => e.1 <> DeleteTempTaskInfoFiles) pre.
Proof.
  refine (proj1 (RunSandboxed_deletes_temp_files (fun inputs : list string => inputs)
                   {| skipAfterError := false; skipEnabled := false;
                      GitUntrackedFilesFn := None |}
                   Task_example ["/repo/app"] (Process [] tt))
            ["BAUR_TASK=demo.build"] _).
  vm_compute. apply list_elem_of_here.
Defined.

Lemma RunSandboxed_child_gets_the_command_witness :
  let p := Process [] tt in
  let t := {| skipAfterError := false; skipEnabled := false; GitUntrackedFilesFn := None |} in
  let cmd := CmdSandboxed.Build "/bin/make" ["all"] "/repo/app"
               ["PATH=/bin"; "BAUR_TASK=demo.build"] ["/repo/app"] in
  exists cmdName cmdArgs environ env,
    Command Task_example = cmdName :: cmdArgs
    /\ (CreateTaskInfoEnv Task_example, REnv env None)
         ∈ calls_between p (RunSandboxed (fun inputs : list string => inputs) t Task_example
                              ["/repo/app"] p).1
    /\ (Environ, REnv environ None)
         ∈ calls_between p (RunSandboxed (fun inputs : list string => inputs) t Task_example
                              ["/repo/app"] p).1
    /\ gob_Encode cmd
       = gob_Encode (sandboxed_command (fun inputs : list string => inputs) Task_example
                       ["/repo/app"] cmdName cmdArgs environ env)
    /\ (CmdSandboxed_fits
          (sandboxed_command (fun inputs : list string => inputs) Task_example
             ["/repo/app"] cmdName cmdArgs environ env) ->
        decodeCmdSb (gob_Encode cmd)
        = inr (sandboxed_command (fun inputs : list string => inputs) Task_example
                 ["/repo/app"] cmdName cmdArgs environ env)).
Proof.
  refine (proj2 (proj2 (proj2
    (RunSandboxed_child_gets_the_command (fun inputs : list string => inputs)
       {| skipAfterError := false; skipEnabled := false; GitUntrackedFilesFn := None |}
       Task_example ["/repo/app"] (Process [] tt)
       "/proc/self/exe" ["__run_sandboxed"] "/repo/app"
       ["PATH=/bin"; "BAUR_TASK=demo.build"]
       (gob_Encode (CmdSandboxed.Build "/bin/make" ["all"] "/repo/app"
                      ["PATH=/bin"; "BAUR_TASK=demo.build"] ["/repo/app"]))
       (RResult (Some {| ExitCode := 0; Output := [] |}) None) _)))).
  vm_compute. do 4 apply list_elem_of_further. apply list_elem_of_here.
Defined.

Lemma RunSandboxed_creates_task_info_iff_gate_passes_witness :
  let p := Process [] tt in
  let t := {| skipAfterError := true; skipEnabled := false;
              GitUntrackedFilesFn := Some (fun w _ => (w, ([], None))) |} in
  exists r,
    (CreateTaskInfoEnv Task_example, r)
      ∈ calls_between p (RunSandboxed (fun inputs : list string => inputs) t Task_example
                           ["/repo/app"] p).1.
Proof.
  refine (proj2 (RunSandboxed_creates_task_info_iff_gate_passes
                   (fun inputs : list string => inputs)
                   {| skipAfterError := true; skipEnabled := false;
                      GitUntrackedFilesFn := Some (fun w _ => (w, ([], None))) |}
                   Task_example ["/repo/app"] (Process [] tt)) _).
  split; [reflexivity|]. right. by eexists _, tt.
Defined.

Lemma RunSandboxed_panics_iff_empty_command_witness :
  let task := {| ID := "demo.build"; RepositoryRoot := "/repo"; Directory := "/repo/app";
                 Command := [] |} in
  (RunSandboxed (fun inputs : list string => inputs)
     {| skipAfterError := false; skipEnabled := false; GitUntrackedFilesFn := None |}
     task ["/repo/app"] (Process [] tt)).2 = Panicked.
Proof.
  refine (proj2 (RunSandboxed_panics_iff_empty_command (fun inputs : list string => inputs)
                   {| skipAfterError := false; skipEnabled := false;
                      GitUntrackedFilesFn := None |}
                   {| ID := "demo.build"; RepositoryRoot := "/repo";
                      Directory := "/repo/app"; Command := [] |}
                   ["/repo/app"] (Process [] tt)) _).
  split; [reflexivity|]. exists ["BAUR_TASK=demo.build"]. vm_compute. apply list_elem_of_here.
Defined.

Lemma RunSandboxed_result_times_the_child_witness :
  let p := Process [] tt in
  let t := {| skipAfterError := false; skipEnabled := false; GitUntrackedFilesFn := None |} in
  exists pre environ env extraData,
    calls_between p (RunSandboxed (fun inputs : list string => inputs) t Task_example
                       ["/repo/app"] p).1
    = pre ++ [(Now, RTime 1700000000);
              (Environ, REnv environ None);
              (RunCommand "/proc/self/exe" [baurRunSandboxedSubCmd] "/repo/app"
                 (environ ++ env) extraData,
               RResult (Some {| ExitCode := 0; Output := [] |}) None);
              (Now, RTime 1700000000);
              (DeleteTempTaskInfoFiles, RDone)].
Proof.
  refine (proj2 (RunSandboxed_result_times_the_child (fun inputs : list string => inputs)
                   {| skipAfterError := false; skipEnabled := false;
                      GitUntrackedFilesFn := None |}
                   Task_example ["/repo/app"] (Process [] tt))
            {| Result_ := Some {| ExitCode := 0; Output := [] |};
               StartTime := 1700000000; StopTime := 1700000000 |} _).
  vm_compute. reflexivity.
Defined.

(** A task without a command: the files are written and deleted, no child
    is started. *)
Example RunSandboxed_empty_command :
  let task := {| ID := "demo.build"; RepositoryRoot := "/repo"; Directory := "/repo/app";
                 Command := [] |} in
  RunSandboxed (fun inputs : list string => inputs)
    {| skipAfterError := false; skipEnabled := false; GitUntrackedFilesFn := None |}
    task [] (Process [] tt)
  = (Process [(CreateTaskInfoEnv task, REnv ["BAUR_TASK=demo.build"] None);
              (DeleteTempTaskInfoFiles, RDone)] tt,
     Panicked).
Proof. reflexivity. Qed.

(** ** The shell command *)

Import Landlock CmdSandboxed.

Section ShellFacts.
Context {W : Type} `{OS W}.
Context {Repository RepoState Inputs Input Err : Type}.
Context (Repository_Path : Repository -> string)
  (mustFindRepository : W -> option Repository)
  (mustGetRepoState : W -> string -> option RepoState)
  (mustArgToTask : W -> Repository -> RepoState -> string -> option Baur.Task)
  (Resolve : W -> RepoState -> string -> Baur.Task -> Err + Inputs)
  (Inputs_Inputs : Inputs -> list Input)
  (InputsToFSPaths : list Input -> list string)
  (os_Environ : W -> list string).

Local Abbreviation run :=
  (ShellCmd.run Repository_Path mustFindRepository mustGetRepoState mustArgToTask Resolve
     Inputs_Inputs InputsToFSPaths os_Environ).

(** X17.  When [baur shell] replaces the process image, the image is
    [/bin/bash], started without arguments in the environment of the
    process, whatever shell the flag names: the flag only reaches the
    resolver of the inputs.  By then the sandbox is in place: the rule set
    was created, a rule was added for every path of the inputs of the
    task, for the twelve paths of the host and for the directory of the
    task, in this order, the process restricted itself and changed to the
    directory of the task. *)
Theorem shell_runs_bash_in_the_sandbox (c : ShellCmd.t) (args : list string)
    (p : process W) :
  (run c args p).2 = ShellCmd.ImageReplaced ->
  exists repo vcsState arg0 args' task inputs pre,
    mustFindRepository (world p) = Some repo
    /\ mustGetRepoState (world p) (Repository_Path repo) = Some vcsState
    /\ args = arg0 :: args'
    /\ mustArgToTask (world p) repo vcsState arg0 = Some task
    /\ Resolve (world p) vcsState (Repository_Path repo)
         {| Baur.ID := Baur.ID task;
            Baur.RepositoryRoot := Baur.RepositoryRoot task;
            Baur.Directory := Baur.Directory task;
            Baur.Command := [ShellCmd.shellCmd c] |} = inr inputs
    /\ sandbox_installed
         {| Name := "/bin/bash"; Args := []; Dir := Baur.Directory task;
            Env := os_Environ (world p);
            AllowedFSAccessPaths :=
              InputsToFSPaths (Inputs_Inputs inputs) ++ ShellCmd.hostPaths
              ++ [Baur.Directory task] |} pre
    /\ calls_between p (run c args p).1
       = pre ++ [(ExecImage "/bin/bash" [] (os_Environ (world p)), RErr None)].
Proof.
  unfold ShellCmd.run.
  destruct (mustFindRepository (world p)) as [repo|] eqn:Hrepo; [|done].
  destruct (mustGetRepoState (world p) (Repository_Path repo)) as [vcsState|] eqn:Hstate;
    [|done].
  destruct args as [|arg0 args']; [done|].
  destruct (mustArgToTask (world p) repo vcsState arg0) as [task|] eqn:Htask; [|done].
  cbn [Baur.Directory].
  destruct (Resolve _ _ _ _) as [e|inputs] eqn:Hinputs; [done|].
  match goal with
  | |- context [Exec ?c p] =>
      destruct (Exec_trace c p) as (es & fd & ds & Ht & _ & _ & Hout);
      destruct (Exec c p) as [p' [|[e|]|]]
  end; try done.
  simpl in *. intros _. destruct Hout as (pre & Hinst & ->).
  exists repo, vcsState, arg0, args', task, inputs, pre.
  repeat split; try done. by apply calls_between_eq.
Qed.

(** X18.  [baur shell] panics exactly when it is called without an
    argument in a repository that was found and whose state could be
    read: the first argument is taken without a check.  And [run] does not
    return: it exits, panics, or becomes the shell. *)
Theorem shell_panics_iff_no_argument (c : ShellCmd.t) (args : list string) (p : process W) :
  (run c args p).2 <> ShellCmd.Returned
  /\ ((run c args p).2 = ShellCmd.Panicked <->
      args = []
      /\ exists repo, mustFindRepository (world p) = Some repo
           /\ is_Some (mustGetRepoState (world p) (Repository_Path repo))).
Proof.
  unfold ShellCmd.run.
  destruct (mustFindRepository (world p)) as [repo|].
  2:{ split; [done|]. split; [done|]. by intros [_ (? & ? & _)]. }
  destruct (mustGetRepoState (world p) (Repository_Path repo)) as [vcsState|] eqn:Hstate.
  2:{ split; [done|]. split; [done|]. intros [_ (repo' & [= <-] & Hs)].
      rewrite Hstate in Hs. by destruct Hs. }
  destruct args as [|arg0 args'].
  { split; [done|]. split; [|done]. intros _. split; [done|]. exists repo.
    split; [done|]. rewrite Hstate. by eexists. }
  destruct (mustArgToTask (world p) repo vcsState arg0) as [task|].
  2:{ split; [done|]. split; [done|]. by intros [? _]. }
  cbn [Baur.Directory].
  destruct (Resolve _ _ _ _) as [e|inputs].
  { split; [done|]. split; [done|]. by intros [? _]. }
  match goal with
  | |- context [Exec ?c p] =>
      destruct (Exec_trace c p) as (es & fd & ds & _ & _ & _ & Hout);
      destruct (Exec c p) as [p' [|[e|]|]]
  end; simpl in *.
  - split; [done|]. split; [done|]. by intros [? _].
  - split; [done|]. split; [done|]. by intros [? _].
  - destruct Hout as [[? ?] _]. done.
  - done.
Qed.

End ShellFacts.

Lemma shell_runs_bash_in_the_sandbox_witness :
  let p := Process [] ShellCmd.Linux_shell_example in
  exists pre,
    calls_between p (ShellCmd.run_example {| ShellCmd.shellCmd := "zsh" |} ["app.build"] p).1
    = pre ++ [(ExecImage "/bin/bash" [] ["PATH=/bin"], RErr None)].
Proof.
  destruct (shell_runs_bash_in_the_sandbox (fun repo : string => repo)
              (fun _ => Some "/repo") (fun _ _ => Some tt)
              ShellCmd.mustArgToTask_example ShellCmd.Resolve_example
              (fun inputs : list string => inputs) (fun inputs : list string => inputs)
              (fun _ => ["PATH=/bin"]) {| ShellCmd.shellCmd := "zsh" |} ["app.build"]
              (Process [] ShellCmd.Linux_shell_example))
    as (repo & vcsState & arg0 & args' & task & inputs & pre & _ & _ & _ & _ & _ & _ & Hcalls).
  - vm_compute. reflexivity.
  - exists pre. exact Hcalls.
Defined.

Lemma shell_panics_iff_no_argument_witness :
  (ShellCmd.run_example {| ShellCmd.shellCmd := "bash" |} []
     (Process [] ShellCmd.Linux_shell_example)).2 = ShellCmd.Panicked.
Proof.
  refine (proj2 (proj2 (shell_panics_iff_no_argument (fun repo : string => repo)
              (fun _ => Some "/repo") (fun _ _ => Some tt)
              ShellCmd.mustArgToTask_example ShellCmd.Resolve_example
              (fun inputs : list string => inputs) (fun inputs : list string => inputs)
              (fun _ => ["PATH=/bin"]) {| ShellCmd.shellCmd := "bash" |} []
              (Process [] ShellCmd.Linux_shell_example))) _).
  split; [reflexivity|]. exists "/repo". split; [reflexivity|]. by eexists.
Defined.

(** The calls of a shell for a task with one input file: the rule set, a
    rule for the input, for each of the twelve paths of the host and for
    the directory of the task, and then the shell. *)
Example shell_example :
  let r := ShellCmd.run_example {| ShellCmd.shellCmd := "zsh" |} ["app.build"]
             (Process [] ShellCmd.Linux_shell_example) in
  r.2 = ShellCmd.ImageReplaced
  /\ length (trace r.1) = (1 + 4 * 14 + 4)%nat
  /\ last (map fst (trace r.1)) = Some (ExecImage "/bin/bash" [] ["PATH=/bin"]).
Proof. repeat split; vm_compute; reflexivity. Qed.

(** ** Docker images *)

Section DockerImages.

Lemma chars_append (a b : string) :
  RemoteDockerImg.chars (a +:+ b) = RemoteDockerImg.chars a ++ RemoteDockerImg.chars b.
Proof.
  unfold RemoteDockerImg.chars. induction a as [|c a IH]; [done|].
  change (String c a +:+ b) with (String c (a +:+ b)). simpl. by rewrite IH.
Qed.

Lemma chars_inj (a b : string) : RemoteDockerImg.chars a = RemoteDockerImg.chars b -> a = b.
Proof.
  unfold RemoteDockerImg.chars. intros Heq.
  rewrite <- (String.string_of_list_ascii_of_string a),
          <- (String.string_of_list_ascii_of_string b).
  by rewrite Heq.
Qed.

Lemma split_at_last (sep : ascii) (l l' m m' : list ascii) :
  sep ∉ m -> sep ∉ m' -> l ++ sep :: m = l' ++ sep :: m' -> l = l' /\ m = m'.
Proof.
  intros Hm Hm'. revert l'. induction l as [|c l IH]; intros [|c' l']; simpl.
  - by intros [= ->].
  - intros [= <- ->]. exfalso. apply Hm. apply elem_of_app. right. apply list_elem_of_here.
  - intros [= -> <-]. exfalso. apply Hm'. apply elem_of_app. right. apply list_elem_of_here.
  - intros [= <- Heq]. destruct (IH l' Heq) as [-> ->]. done.
Qed.

(** X19.  The URL of a docker image tells the image: two images whose
    digests hold no [@] and whose URLs are the same have the same
    repository and the same digest. *)
Theorem URL_determines_image (repository digest repository' digest' : string) :
  "@"%char ∉ RemoteDockerImg.chars digest ->
  "@"%char ∉ RemoteDockerImg.chars digest' ->
  RemoteDockerImg.URL (RemoteDockerImg.NewRemoteDockerImg repository digest)
  = RemoteDockerImg.URL (RemoteDockerImg.NewRemoteDockerImg repository' digest') ->
  RemoteDockerImg.NewRemoteDockerImg repository digest
  = RemoteDockerImg.NewRemoteDockerImg repository' digest'.
Proof.
  intros Hd Hd' Hurl.
  unfold RemoteDockerImg.URL, RemoteDockerImg.NewRemoteDockerImg in Hurl.
  cbn [RemoteDockerImg.path] in Hurl.
  apply (f_equal RemoteDockerImg.chars) in Hurl. rewrite !chars_append in Hurl.
  apply app_inv_head in Hurl.
  change (RemoteDockerImg.chars "@") with ["@"%char] in Hurl. cbn [app] in Hurl.
  apply split_at_last in Hurl as [Hr Hdig]; [|done..].
  apply chars_inj in Hr as ->. by apply chars_inj in Hdig as ->.
Qed.

End DockerImages.

Lemma URL_determines_image_witness :
  RemoteDockerImg.NewRemoteDockerImg "registry.io/shop" "sha256:0a1b"
  = RemoteDockerImg.NewRemoteDockerImg "registry.io/shop" "sha256:0a1b".
Proof.
  refine (URL_determines_image "registry.io/shop" "sha256:0a1b"
            "registry.io/shop" "sha256:0a1b" _ _ _).
  - vm_compute. intros Hin.
    repeat (apply elem_of_cons in Hin as [Hin|Hin]; [discriminate Hin|]).
    by apply elem_of_nil in Hin.
  - vm_compute. intros Hin.
    repeat (apply elem_of_cons in Hin as [Hin|Hin]; [discriminate Hin|]).
    by apply elem_of_nil in Hin.
  - reflexivity.
Defined.

(** Without the condition on the digests the URL does not tell the images
    apart. *)
Example URL_ambiguous :
  RemoteDockerImg.URL (RemoteDockerImg.NewRemoteDockerImg "a@b" "c")
  = RemoteDockerImg.URL (RemoteDockerImg.NewRemoteDockerImg "a" "b@c")
  /\ RemoteDockerImg.NewRemoteDockerImg "a@b" "c"
     <> RemoteDockerImg.NewRemoteDockerImg "a" "b@c".
Proof. split; [reflexivity|discriminate]. Qed.

(** ** The status command *)

Import StatusCmd.

Local Abbreviation supported f := (bool_decide (f ∈ supported_fields)).

(** Decide the [switch] on a field: it is one of the six known values, or
    none of the cases applies. *)
Local Ltac switch_on f :=
  destruct (String.eqb_spec f statusAppNameParam) as [->|?];
  [|destruct (String.eqb_spec f statusTaskIDParam) as [->|?];
    [|destruct (String.eqb_spec f statusPathParam) as [->|?];
      [|destruct (String.eqb_spec f statusStatusParam) as [->|?];
        [|destruct (String.eqb_spec f statusRunIDParam) as [->|?];
          [|destruct (String.eqb_spec f statusGitCommitParam) as [->|?]]]]]].

Lemma supported_spec (f : string) :
  supported f =
  String.eqb f statusAppNameParam || String.eqb f statusTaskIDParam
  || String.eqb f statusPathParam || String.eqb f statusStatusParam
  || String.eqb f statusRunIDParam || String.eqb f statusGitCommitParam.
Proof.
  switch_on f; try reflexivity. simpl.
  apply bool_decide_eq_false. unfold supported_fields.
  rewrite !elem_of_cons, elem_of_nil. tauto.
Qed.

Lemma jsonFieldNames_length (fs : list string) (acc : list string) :
  length (fold_left (fun headers f =>
    if String.eqb f statusAppNameParam then headers ++ ["AppName"]
    else if String.eqb f statusTaskIDParam then headers ++ ["TaskID"]
    else if String.eqb f statusPathParam then headers ++ ["Path"]
    else if String.eqb f statusStatusParam then headers ++ ["Status"]
    else if String.eqb f statusRunIDParam then headers ++ ["RunID"]
    else if String.eqb f statusGitCommitParam then headers ++ ["GitCommit"]
    else headers) fs acc)
  = (length acc + length (filter (fun f => supported f = true) fs))%nat.
Proof.
  revert acc. induction fs as [|f fs IH]; intros acc; [simpl; lia|].
  cbn [fold_left]. rewrite IH, filter_cons, supported_spec.
  switch_on f; simpl; rewrite ?length_app; simpl; lia.
Qed.

Lemma statusCreateHeader_range_Some (fs : list string) (acc headers : list string) :
  statusCreateHeader_range fs acc = Some headers ->
  length headers = (length acc + length fs)%nat /\ Forall (fun f => f ∈ supported_fields) fs.
Proof.
  revert acc. induction fs as [|f fs IH]; intros acc.
  { simpl. intros [= <-]. split; [lia|constructor]. }
  cbn [statusCreateHeader_range].
  switch_on f; simpl; try done;
    intros [Hlen Hall]%IH; rewrite length_app in Hlen; simpl in Hlen;
    (split; [lia|constructor; [|done]]); unfold supported_fields;
    rewrite !elem_of_cons; tauto.
Qed.

Lemma statusCreateHeader_range_None (fs : list string) (acc : list string) :
  statusCreateHeader_range fs acc = None <-> exists f, f ∈ fs /\ f ∉ supported_fields.
Proof.
  revert acc. induction fs as [|f fs IH]; intros acc.
  { simpl. split; [done|]. by intros (f & Hin%elem_of_nil & _). }
  assert (forall g : string, g ∈ supported_fields ->
            (exists f', f' ∈ g :: fs /\ f' ∉ supported_fields)
            <-> exists f', f' ∈ fs /\ f' ∉ supported_fields) as Hskip.
  { intros g Hg. split; intros (f' & Hin & Hns); exists f'; (split; [|done]).
    - apply elem_of_cons in Hin as [->|Hin]; [done|done].
    - by apply list_elem_of_further. }
  cbn [statusCreateHeader_range].
  switch_on f; simpl.
  1-6: rewrite IH, Hskip; [done|]; unfold supported_fields; rewrite !elem_of_cons; tauto.
  split; [|done]. intros _. exists f. split; [apply list_elem_of_here|].
  unfold supported_fields. rewrite !elem_of_cons, elem_of_nil. tauto.
Qed.

Lemma filter_all {A : Type} (P : A -> Prop) `{forall x, Decision (P x)} (l : list A) :
  Forall P l -> filter P l = l.
Proof.
  induction 1 as [|x l Hx Hl IH]; [done|]. rewrite filter_cons, IH.
  by destruct (decide (P x)).
Qed.

Lemma storageQueryIsNeeded_range_false (fs : list string) :
  storageQueryIsNeeded_range fs = false ->
  Forall (fun f => f <> statusStatusParam /\ f <> statusRunIDParam
                   /\ f <> statusGitCommitParam) fs.
Proof.
  induction fs as [|f fs IH]; [constructor|]. cbn [storageQueryIsNeeded_range].
  destruct (String.eqb_spec f statusStatusParam); [done|].
  destruct (String.eqb_spec f statusRunIDParam); [done|].
  destruct (String.eqb_spec f statusGitCommitParam); [done|].
  intros Hfs. constructor; [done|by apply IH].
Qed.

Section StatusFacts.
Context {TaskStatus : Type} `{EqDecision TaskStatus}.
Context (TaskStatusRunExist : TaskStatus) (TaskStatus_String : TaskStatus -> string)
  (FormatJSON : string) (mustTaskRepoRelPath : string -> Task.t -> option string).

Lemma assembleRow_range_length (c : statusCmd TaskStatus) (repositoryDir : string)
    (task : Task.t) (taskRun : option TaskRunWithID.t) (buildStatus : TaskStatus)
    (fs : list string) (acc row : list any) :
  assembleRow_range TaskStatusRunExist TaskStatus_String mustTaskRepoRelPath
    c repositoryDir task taskRun buildStatus fs acc = Row row ->
  length row = (length acc + length (filter (fun f => supported f = true) fs))%nat.
Proof.
  revert acc. induction fs as [|f fs IH]; intros acc.
  { simpl. intros [= <-]. lia. }
  cbn [assembleRow_range]. rewrite filter_cons, supported_spec.
  switch_on f; simpl.
  - intros ->%IH. rewrite length_app. simpl. lia.
  - intros ->%IH. rewrite length_app. simpl. lia.
  - destruct (absPaths c); [|destruct (mustTaskRepoRelPath _ _); [|done]];
      intros ->%IH; rewrite length_app; simpl; lia.
  - intros ->%IH. rewrite length_app. simpl. lia.
  - destruct (bool_decide _); [destruct taskRun; [|done]|];
      intros ->%IH; rewrite length_app; simpl; lia.
  - destruct (bool_decide _); [destruct taskRun; [|done]|];
      intros ->%IH; rewrite length_app; simpl; lia.
  - intros ->%IH. lia.
Qed.

(** X20.  Whenever [baur status] prints a header (the JSON field names,
    or the column titles of the plain format when it is not quiet) and
    [assembleRow] produces a row, the row has as many values as the header
    has names: a field that is not known is left out of both in the JSON
    format, and makes [statusCreateHeader] panic before any row is built
    otherwise. *)
Theorem status_row_has_the_columns_of_the_header (c : statusCmd TaskStatus)
    (repositoryDir : string) (task : Task.t) (taskRun : option TaskRunWithID.t)
    (buildStatus : TaskStatus) (headers : list string) (row : list any) :
  statusCreateHeader FormatJSON c = Some headers ->
  String.eqb (format c) FormatJSON || negb (quiet c) = true ->
  assembleRow TaskStatusRunExist TaskStatus_String mustTaskRepoRelPath
    c repositoryDir task taskRun buildStatus = Row row ->
  length row = length headers.
Proof.
  unfold statusCreateHeader, assembleRow, jsonFieldNames.
  intros Hheader Hshown Hrow. apply assembleRow_range_length in Hrow.
  destruct (String.eqb (format c) FormatJSON).
  - injection Hheader as <-. by rewrite jsonFieldNames_length.
  - destruct (quiet c); [done|].
    apply statusCreateHeader_range_Some in Hheader as [-> Hall].
    rewrite Hrow. simpl. f_equal. f_equal. apply filter_all.
    eapply Forall_impl; [exact Hall|]. intros f Hf. by apply bool_decide_eq_true.
Qed.

Lemma assembleRow_range_without_storage (c : statusCmd TaskStatus) (repositoryDir : string)
    (task : Task.t) (taskRun taskRun' : option TaskRunWithID.t)
    (buildStatus buildStatus' : TaskStatus) (fs : list string) (acc : list any) :
  Forall (fun f => f <> statusStatusParam /\ f <> statusRunIDParam
                   /\ f <> statusGitCommitParam) fs ->
  assembleRow_range TaskStatusRunExist TaskStatus_String mustTaskRepoRelPath
    c repositoryDir task taskRun buildStatus fs acc
  = assembleRow_range TaskStatusRunExist TaskStatus_String mustTaskRepoRelPath
      c repositoryDir task taskRun' buildStatus' fs acc.
Proof.
  intros Hfs. revert acc. induction Hfs as [|f fs (Hs & Hr & Hg) Hfs IH]; intros acc; [done|].
  cbn [assembleRow_range].
  apply String.eqb_neq in Hs, Hr, Hg. rewrite Hs, Hr, Hg.
  destruct (String.eqb f statusAppNameParam); [apply IH|].
  destruct (String.eqb f statusTaskIDParam); [apply IH|].
  destruct (String.eqb f statusPathParam); [|apply IH].
  destruct (absPaths c); [apply IH|]. destruct (mustTaskRepoRelPath _ _); [apply IH|done].
Qed.

Lemma assembleRow_range_NilDereference (c : statusCmd TaskStatus) (repositoryDir : string)
    (task : Task.t) (taskRun : option TaskRunWithID.t) (buildStatus : TaskStatus)
    (fs : list string) (acc : list any) :
  assembleRow_range TaskStatusRunExist TaskStatus_String mustTaskRepoRelPath
    c repositoryDir task taskRun buildStatus fs acc = NilDereference ->
  taskRun = None /\ buildStatus = TaskStatusRunExist.
Proof.
  revert acc. induction fs as [|f fs IH]; intros acc; [done|].
  cbn [assembleRow_range].
  destruct (String.eqb f statusAppNameParam); [apply IH|].
  destruct (String.eqb f statusTaskIDParam); [apply IH|].
  destruct (String.eqb f statusPathParam).
  { destruct (absPaths c); [apply IH|]. destruct (mustTaskRepoRelPath _ _); [apply IH|done]. }
  destruct (String.eqb f statusStatusParam); [apply IH|].
  destruct (String.eqb f statusRunIDParam).
  { destruct (bool_decide_reflect (buildStatus = TaskStatusRunExist)); [|apply IH].
    destruct taskRun; [apply IH|done]. }
  destruct (String.eqb f statusGitCommitParam); [|apply IH].
  destruct (bool_decide_reflect (buildStatus = TaskStatusRunExist)); [|apply IH].
  destruct taskRun; [apply IH|done].
Qed.

(** X22.  When [storageQueryIsNeeded] says that the storage need not be
    asked, the row does not depend on the task run and the status that
    [run] then passes as nil and zero: [assembleRow] gives the same row
    for every task run and status.  And [assembleRow] dereferences a nil
    task run only when the status says that a run exists and none was
    passed, which needs a command for which the storage is asked. *)
Theorem status_row_needs_storage_only_when_asked (c : statusCmd TaskStatus)
    (repositoryDir : string) (task : Task.t) (taskRun : option TaskRunWithID.t)
    (buildStatus : TaskStatus) :
  (storageQueryIsNeeded c = false ->
   forall taskRun' buildStatus',
     assembleRow TaskStatusRunExist TaskStatus_String mustTaskRepoRelPath
       c repositoryDir task taskRun' buildStatus'
     = assembleRow TaskStatusRunExist TaskStatus_String mustTaskRepoRelPath
         c repositoryDir task taskRun buildStatus)
  /\ (assembleRow TaskStatusRunExist TaskStatus_String mustTaskRepoRelPath
        c repositoryDir task taskRun buildStatus = NilDereference ->
      taskRun = None /\ buildStatus = TaskStatusRunExist
      /\ storageQueryIsNeeded c = true).
Proof.
  assert (storageQueryIsNeeded c = false ->
          forall taskRun' buildStatus',
            assembleRow TaskStatusRunExist TaskStatus_String mustTaskRepoRelPath
              c repositoryDir task taskRun' buildStatus'
            = assembleRow TaskStatusRunExist TaskStatus_String mustTaskRepoRelPath
                c repositoryDir task taskRun buildStatus) as Hsame.
  { unfold storageQueryIsNeeded, assembleRow. destruct (IsSet (StatusCmd.buildStatus c)); [done|].
    intros Hfs%storageQueryIsNeeded_range_false taskRun' buildStatus'.
    by apply assembleRow_range_without_storage. }
  split; [exact Hsame|]. intros Hnil.
  destruct (assembleRow_range_NilDereference _ _ _ _ _ _ _ Hnil) as [-> ->].
  split; [done|]. split; [done|].
  destruct (storageQueryIsNeeded c) eqn:Hneeded; [done|].
  (* a task run at hand never gives a nil dereference *)
  specialize (Hsame eq_refl (Some {| TaskRunWithID.ID := 0; TaskRunWithID.VCSRevision := "" |})
                TaskStatusRunExist).
  rewrite Hnil in Hsame.
  by destruct (assembleRow_range_NilDereference _ _ _ _ _ _ _ Hsame) as [? _].
Qed.

End StatusFacts.

(** X21.  [statusCreateHeader] panics exactly when the format is not
    JSON, the command is not quiet and a value of the fields parameter is
    none of the six known ones; in the JSON format and in quiet mode an
    unknown value is passed over. *)
Theorem statusCreateHeader_panics_iff {TaskStatus : Type} (FormatJSON : string)
    (c : statusCmd TaskStatus) :
  statusCreateHeader FormatJSON c = None <->
  String.eqb (format c) FormatJSON = false
  /\ quiet c = false
  /\ exists f, f ∈ fields c /\ f ∉ supported_fields.
Proof.
  unfold statusCreateHeader.
  destruct (String.eqb (format c) FormatJSON); [split; [done|by intros [? _]]|].
  destruct (quiet c); [split; [done|by intros (_ & ? & _)]|].
  rewrite statusCreateHeader_range_None. tauto.
Qed.


Lemma status_row_has_the_columns_of_the_header_witness :
  length [Str "shop.build"; Str "/repo/shop"; Str "17"; Str "Exist"; Str "1a2b3c"]
  = length [statusTaskIDHeader; statusPathHeader; statusRunIDHeader; statusStatusHeader;
            statusGitCommitHeader].
Proof.
  refine (status_row_has_the_columns_of_the_header 2 TaskStatus_String_example "json"
            (fun _ task => Some (Task.Directory task)) statusCmd_example "/repo"
            Task_example
            (Some {| TaskRunWithID.ID := 17; TaskRunWithID.VCSRevision := "1a2b3c" |}) 2
            _ _ _ _ _); reflexivity.
Defined.

Lemma statusCreateHeader_panics_iff_witness :
  statusCreateHeader "json"
    {| quiet := false; absPaths := false;
       buildStatus := {| IsSet := false; Status := 0 |};
       fields := [statusAppNameParam; "branch"]; format := "plain" |} = None.
Proof.
  refine (proj2 (statusCreateHeader_panics_iff (TaskStatus := Z) "json" _) _).
  split; [reflexivity|]. split; [reflexivity|]. exists "branch".
  split; [apply list_elem_of_further, list_elem_of_here|].
  unfold supported_fields. intros Hin.
  repeat (apply elem_of_cons in Hin as [Hin|Hin]; [discriminate Hin|]).
  by apply elem_of_nil in Hin.
Defined.

Lemma status_row_needs_storage_only_when_asked_witness :
  let c := {| quiet := false; absPaths := true;
              buildStatus := {| IsSet := false; Status := 0 |};
              fields := [statusAppNameParam; statusTaskIDParam; statusPathParam];
              format := "plain" |} in
  assembleRow_example c None 0
  = assembleRow_example c
      (Some {| TaskRunWithID.ID := 17; TaskRunWithID.VCSRevision := "1a2b3c" |}) 2.
Proof.
  refine (proj1 (status_row_needs_storage_only_when_asked 2 TaskStatus_String_example
                   (fun _ task => Some (Task.Directory task))
                   {| quiet := false; absPaths := true;
                      buildStatus := {| IsSet := false; Status := 0 |};
                      fields := [statusAppNameParam; statusTaskIDParam; statusPathParam];
                      format := "plain" |} "/repo" Task_example
                   (Some {| TaskRunWithID.ID := 17; TaskRunWithID.VCSRevision := "1a2b3c" |})
                   2) _ None 0).
  reflexivity.
Defined.

(** The header and a row of the command with its default fields; and the
    row that asks for the id of a run when none was passed. *)
Example status_example :
  statusCreateHeader "json" statusCmd_example
  = Some ["Task ID"; "Path"; "Run ID"; "Status"; "Git Commit"]
  /\ assembleRow_example statusCmd_example
       (Some {| TaskRunWithID.ID := 17; TaskRunWithID.VCSRevision := "1a2b3c" |}) 2
     = Row [Str "shop.build"; Str "/repo/shop"; Str "17"; Str "Exist"; Str "1a2b3c"]
  /\ assembleRow_example statusCmd_example None 0
     = Row [Str "shop.build"; Str "/repo/shop"; Nil; Str "Pending"; Nil]
  /\ assembleRow_example statusCmd_example None 2 = NilDereference.
Proof. repeat split; vm_compute; reflexivity. Qed.

(** ** The listing of the inputs *)

Import LsInputsCmd.

Section LsFacts.
Context {W Input Inputs : Type} `{Host W Input Inputs}.
Context (Inputs_Inputs : Inputs -> list Input).

Lemma mustPrintTaskInputs_range_trace (c : t) (inputs : list Input)
    (p : process W Input Inputs) :
  exists es,
    trace (mustPrintTaskInputs_range c inputs p).1 = trace p ++ es
    /\ Forall (in_loop c) es.
Proof.
  assert (negb (showDigest c) || quiet c = true ->
          forall (input : Input) failed,
            in_loop c (WriteRow (Inputs := Inputs) [CInput input] failed))
    as Hone_ok.
  { intros Hone input failed. unfold in_loop, columns. by rewrite Hone. }
  assert (negb (showDigest c) || quiet c = false ->
          forall (input : Input) digest failed,
            in_loop c (WriteRow (Inputs := Inputs) [CInput input; CString digest] failed)
            /\ forall d, in_loop c (Digest (Inputs := Inputs) input d)) as Htwo_ok.
  { intros Hone input digest failed. unfold in_loop, columns. rewrite Hone.
    apply orb_false_iff in Hone as [Hshow%negb_false_iff Hquiet]. done. }
  revert p. induction inputs as [|input inputs IH]; intros p; cbn [mustPrintTaskInputs_range].
  { exists []. by rewrite app_nil_r. }
  unfold mustWriteRow, record.
  destruct (negb (showDigest c) || quiet c) eqn:Hone.
  - specialize (Hone_ok eq_refl).
    destruct (host_WriteRow (world p) _) as [w [|]]; cbn [fst].
    + eexists [_]. split; [done|]. constructor; [apply Hone_ok|constructor].
    + destruct (IH (Process (trace p ++ [WriteRow [CInput input] false]) w))
        as (es & -> & Hes). cbn [trace].
      eexists (_ :: es). rewrite <- app_assoc. split; [done|].
      constructor; [apply Hone_ok|done].
  - specialize (Htwo_ok eq_refl).
    destruct (host_Digest (world p) input) as [w [digest|]]; cbn [fst trace world].
    2:{ eexists [_]. split; [done|].
        constructor; [apply (Htwo_ok input "" false)|constructor]. }
    destruct (host_WriteRow w _) as [w' [|]]; cbn [fst].
    + eexists [_; _]. rewrite <- app_assoc. split; [done|].
      constructor; [apply (Htwo_ok input digest true)|].
      constructor; [apply (Htwo_ok input digest true)|constructor].
    + destruct (IH (Process ((trace p ++ [Digest input (Some digest)])
                               ++ [WriteRow [CInput input; CString digest] false]) w'))
        as (es & -> & Hes). cbn [trace].
      eexists (_ :: _ :: es). rewrite <- !app_assoc. split; [done|].
      constructor; [apply (Htwo_ok input digest false)|].
      constructor; [apply (Htwo_ok input digest false)|done].
Qed.

Local Ltac in_list H :=
  repeat (apply elem_of_cons in H as [H|H]; [try discriminate H|]);
  try (by apply elem_of_nil in H).

(** X23.  [mustPrintTaskInputs] first creates the formatter, once: for CSV
    or a table as the flag says, without headers when the command is quiet
    or writes CSV, and with as many headers as a row has values otherwise.
    Every row it writes has one value when digests are not shown or the
    command is quiet, and two otherwise.  It asks for the digest of an
    input only when digests are shown and the command is not quiet, and
    for the total digest only when, besides, the output is not CSV. *)
Theorem ls_inputs_rows_match_header (c : t) (inputs : Inputs) (p : process W Input Inputs) :
  let es := calls_between p (mustPrintTaskInputs Inputs_Inputs c inputs p).1 in
  (exists headers rest,
     es = NewFormatter (csv c) headers :: rest
     /\ (headers = [] <-> quiet c || csv c = true)
     /\ (headers <> [] -> length headers = columns c)
     /\ Forall (fun e => forall k h, e <> NewFormatter k h) rest)
  /\ (forall row failed, WriteRow row failed ∈ es -> length row = columns c)
  /\ (forall input digest,
        Digest input digest ∈ es -> showDigest c = true /\ quiet c = false)
  /\ (forall ins digest,
        TotalDigest ins digest ∈ es ->
        showDigest c = true /\ quiet c = false /\ csv c = false).
Proof.
  cbv zeta. unfold mustPrintTaskInputs, calls_between.
  set (headers := if negb (quiet c) && negb (csv c) then _ else _).
  assert ((headers = [] <-> quiet c || csv c = true)
          /\ (headers <> [] -> length headers = columns c)) as [Hnil Hlen].
  { subst headers. unfold columns.
    destruct (quiet c), (csv c), (showDigest c); simpl; split; try done;
      (split; [done|discriminate]). }
  clearbody headers.
  destruct (mustPrintTaskInputs_range_trace c (Inputs_Inputs inputs)
              (record p (NewFormatter (csv c) headers) (world p))) as (es & Ht & Hloop).
  assert (exists tail,
    let r := match mustPrintTaskInputs_range c (Inputs_Inputs inputs)
                     (record p (NewFormatter (csv c) headers) (world p)) with
             | (p, Exited) => (p, Exited)
             | (p, Returned) =>
                 let '(w, failed) := host_Flush (world p) in
                 let p := record p (Flush failed) w in
                 if failed then (p, Exited)
                 else if showDigest c && negb (quiet c) && negb (csv c) then
                   let '(w, totalDigest) := host_TotalDigest (world p) inputs in
                   let p := record p (TotalDigest inputs totalDigest) w in
                   match totalDigest with
                   | None => (p, Exited)
                   | Some totalDigest =>
                       (record p (PrintTotalDigest totalDigest) (world p), Returned)
                   end
                 else (p, Returned)
             end in
    trace r.1 = trace p ++ NewFormatter (csv c) headers :: es ++ tail
    /\ Forall (fun e => match e with
                        | Flush _ | PrintTotalDigest _ => True
                        | TotalDigest _ _ =>
                            showDigest c = true /\ quiet c = false /\ csv c = false
                        | _ => False
                        end) tail) as (tail & Htrace & Htail).
  { cbv zeta.
    destruct (mustPrintTaskInputs_range _ _ _) as [p1 [|]]; cbn [fst] in Ht |- *.
    2:{ exists []. rewrite Ht. cbn [record trace]. rewrite app_nil_r, <- app_assoc.
        split; [done|constructor]. }
    unfold record in *. cbn [trace] in Ht.
    destruct (host_Flush (world p1)) as [w [|]]; cbn [fst trace world].
    { exists [Flush true]. rewrite Ht, <- !app_assoc. split; [done|]. by repeat constructor. }
    destruct (showDigest c && negb (quiet c) && negb (csv c)) eqn:Htotal; cbn [fst trace].
    2:{ exists [Flush false]. rewrite Ht, <- !app_assoc. split; [done|].
        by repeat constructor. }
    apply andb_true_iff in Htotal as [[Hs Hq%negb_true_iff]%andb_true_iff Hc%negb_true_iff].
    destruct (host_TotalDigest w inputs) as [w' [total|]]; cbn [fst trace world].
    - exists [Flush false; TotalDigest inputs (Some total); PrintTotalDigest total].
      rewrite Ht, <- !app_assoc. split; [done|]. by repeat constructor.
    - exists [Flush false; TotalDigest inputs None].
      rewrite Ht, <- !app_assoc. split; [done|]. by repeat constructor. }
  cbv zeta in Htrace. rewrite Htrace, drop_app_length.
  rewrite Forall_forall in Hloop, Htail.
  split; [|split; [|split]].
  - exists headers, (es ++ tail). split; [done|]. split; [done|]. split; [done|].
    apply Forall_forall. intros e [Hin|Hin]%elem_of_app k h ->.
    + by apply Hloop in Hin.
    + by apply Htail in Hin.
  - intros row failed Hin. apply elem_of_cons in Hin as [Hin|Hin]; [discriminate Hin|].
    apply elem_of_app in Hin as [Hin|Hin].
    + by apply Hloop in Hin.
    + by apply Htail in Hin.
  - intros input digest Hin. apply elem_of_cons in Hin as [Hin|Hin]; [discriminate Hin|].
    apply elem_of_app in Hin as [Hin|Hin].
    + by apply Hloop in Hin.
    + by apply Htail in Hin.
  - intros ins digest Hin. apply elem_of_cons in Hin as [Hin|Hin]; [discriminate Hin|].
    apply elem_of_app in Hin as [Hin|Hin].
    + by apply Hloop in Hin.
    + by apply Htail in Hin.
Qed.

(** The loop hands the inputs to the formatter in list order, and all of
    them when it runs to its end. *)
Lemma mustPrintTaskInputs_range_rows (c : t) (inputs : list Input)
    (p : process W Input Inputs) :
  exists es,
    trace (mustPrintTaskInputs_range c inputs p).1 = trace p ++ es
    /\ row_inputs es `prefix_of` inputs
    /\ ((mustPrintTaskInputs_range c inputs p).2 = Returned -> row_inputs es = inputs).
Proof.
  revert p. induction inputs as [|input inputs IH]; intros p; cbn [mustPrintTaskInputs_range].
  { exists []. by rewrite app_nil_r. }
  unfold mustWriteRow, record.
  destruct (negb (showDigest c) || quiet c).
  - destruct (host_WriteRow (world p) _) as [w [|]]; cbn [fst snd].
    + eexists [_]. split; [done|]. split; [|done].
      apply prefix_cons, prefix_nil.
    + destruct (IH (Process (trace p ++ [WriteRow [CInput input] false]) w))
        as (es & Ht & Hpre & Hall). cbn [trace] in Ht.
      eexists (_ :: es). split; [by rewrite Ht, <- app_assoc|].
      split; [by apply prefix_cons|]. intros Hr. cbn. f_equal. by apply Hall.
  - destruct (host_Digest (world p) input) as [w [digest|]]; cbn [fst snd trace world].
    2:{ eexists [_]. split; [done|]. split; [apply prefix_nil|done]. }
    destruct (host_WriteRow w _) as [w' [|]]; cbn [fst snd].
    + eexists [_; _]. rewrite <- app_assoc. split; [done|]. split; [|done].
      apply prefix_cons, prefix_nil.
    + destruct (IH (Process ((trace p ++ [Digest input (Some digest)])
                               ++ [WriteRow [CInput input; CString digest] false]) w'))
        as (es & Ht & Hpre & Hall). cbn [trace] in Ht.
      eexists (_ :: _ :: es). split; [by rewrite Ht, <- !app_assoc|].
      change (row_inputs (Digest input (Some digest)
                          :: WriteRow [CInput input; CString digest] false :: es))
        with (input :: row_inputs es).
      split; [by apply prefix_cons|]. intros Hr. f_equal. by apply Hall.
Qed.

Lemma row_inputs_app (es1 es2 : list (call Input Inputs)) :
  row_inputs (es1 ++ es2) = row_inputs es1 ++ row_inputs es2.
Proof. apply omap_app. Qed.

(** [mustPrintTaskInputs] creates the formatter first, hands it the inputs
    in their order, and all of them when it returns. *)
Lemma mustPrintTaskInputs_rows (c : t) (inputs : Inputs) (p : process W Input Inputs) :
  exists headers es,
    trace (mustPrintTaskInputs Inputs_Inputs c inputs p).1
    = trace p ++ NewFormatter (csv c) headers :: es
    /\ row_inputs es `prefix_of` Inputs_Inputs inputs
    /\ ((mustPrintTaskInputs Inputs_Inputs c inputs p).2 = Returned ->
        row_inputs es = Inputs_Inputs inputs).
Proof.
  unfold mustPrintTaskInputs. cbv zeta.
  set (headers := if negb (quiet c) && negb (csv c) then _ else _). clearbody headers.
  exists headers.
  destruct (mustPrintTaskInputs_range_rows c (Inputs_Inputs inputs)
              (record p (NewFormatter (csv c) headers) (world p)))
    as (es & Ht & Hpre & Hall).
  destruct (mustPrintTaskInputs_range _ _ _) as [p1 [|]]; cbn [fst snd] in Ht, Hall |- *.
  2:{ exists es. rewrite Ht. cbn [record trace]. rewrite <- app_assoc. done. }
  specialize (Hall eq_refl). unfold record in *. cbn [trace] in Ht.
  assert (forall tail, row_inputs tail = [] ->
            row_inputs (es ++ tail) = Inputs_Inputs inputs) as Htail.
  { intros tail Hnil. by rewrite row_inputs_app, Hnil, app_nil_r. }
  destruct (host_Flush (world p1)) as [w [|]]; cbn [fst snd trace world].
  { exists (es ++ [Flush true]). rewrite Ht, <- !app_assoc. split; [done|].
    rewrite Htail by done. done. }
  destruct (showDigest c && negb (quiet c) && negb (csv c)); cbn [fst snd trace].
  2:{ exists (es ++ [Flush false]). rewrite Ht, <- !app_assoc. split; [done|].
      rewrite Htail by done. done. }
  destruct (host_TotalDigest w inputs) as [w' [total|]]; cbn [fst snd trace world].
  - exists (es ++ [Flush false; TotalDigest inputs (Some total); PrintTotalDigest total]).
    rewrite Ht, <- !app_assoc. split; [done|]. rewrite Htail by done. done.
  - exists (es ++ [Flush false; TotalDigest inputs None]).
    rewrite Ht, <- !app_assoc. split; [done|]. rewrite Htail by done. done.
Qed.

(** [mustPrintTaskInputs] never ends without a trace. *)
Lemma mustPrintTaskInputs_not_silent (c : t) (inputs : Inputs) (p : process W Input Inputs)
    (o : outcome) :
  mustPrintTaskInputs Inputs_Inputs c inputs p <> (p, o).
Proof.
  destruct (mustPrintTaskInputs_rows c inputs p) as (headers & es & Ht & _).
  intros Heq. rewrite Heq in Ht. cbn [fst] in Ht.
  apply (f_equal length) in Ht. rewrite length_app in Ht. simpl in Ht. lia.
Qed.

End LsFacts.

Section LsRun.
Context {W Input Inputs : Type} `{Host W Input Inputs}.
Context {Repository RepoState Storage StorageInput Task Err : Type}.
Context (Input_String : Input -> string)
  (NewInputs : list Input -> Inputs) (Inputs_Inputs : Inputs -> list Input)
  (AsInputStrings : list string -> list Input)
  (strconv_Atoi : string -> option Z)
  (Repository_Path : Repository -> string)
  (mustFindRepository : W -> option Repository)
  (mustNewCompatibleStorage : W -> Repository -> option Storage)
  (storage_Inputs : W -> Storage -> Z -> Err + list StorageInput)
  (toBaurInputs : list StorageInput -> list Input)
  (mustGetRepoState : W -> string -> option RepoState)
  (mustArgToTask : W -> Repository -> RepoState -> string -> option Task)
  (Resolve : W -> RepoState -> string -> Task -> Err + list Input).

Local Abbreviation less :=
  (fun a b : Input => string_lt (Input_String a) (Input_String b)).

Lemma string_lt_asym (x y : string) : string_lt x y = true -> string_lt y x = false.
Proof.
  unfold string_lt, String.ltb. rewrite (String.compare_antisym x y).
  by destruct (String.compare y x).
Qed.

Lemma not_after_by_String (a b : Input) :
  not_after less a b <-> by_String Input_String a b.
Proof.
  unfold not_after, by_String, string_lt, String.ltb.
  rewrite (String.compare_antisym (Input_String a) (Input_String b)).
  by destruct (String.compare (Input_String b) (Input_String a)).
Qed.

Lemma by_String_trans (a b c : Input) :
  by_String Input_String a b -> by_String Input_String b c -> by_String Input_String a c.
Proof.
  unfold by_String. intros Hab Hbc.
  destruct (String.compare (Input_String a) (Input_String b)) eqn:E1; [| |done].
  - apply String.compare_eq_iff in E1. by rewrite E1.
  - destruct (String.compare (Input_String b) (Input_String c)) eqn:E2; [| |done].
    + apply String.compare_eq_iff in E2. rewrite <- E2, E1. done.
    + by rewrite (string_compare_lt_trans _ _ _ E1 E2).
Qed.

Lemma Sorted_by_String (l : list Input) :
  StronglySorted (by_String Input_String) (sort_Slice less l).
Proof.
  apply (StronglySorted_mono (not_after less)); [intros a b; apply not_after_by_String|].
  apply Sorted_StronglySorted.
  - intros a b c. rewrite !not_after_by_String. apply by_String_trans.
  - apply sort_Slice_Sorted. intros a b. apply string_lt_asym.
Qed.

Local Abbreviation run :=
  (LsInputsCmd.run Input_String NewInputs Inputs_Inputs AsInputStrings strconv_Atoi
     Repository_Path mustFindRepository mustNewCompatibleStorage storage_Inputs
     toBaurInputs mustGetRepoState mustArgToTask Resolve).

(** X24.  [run] of [baur ls inputs] exits before anything is fetched or
    printed exactly when its argument is the number of a task run and input
    strings were passed, or when fetching the inputs ends the process.
    Otherwise it prints the inputs of the task run, or the inputs of the
    task followed by the input strings, sorted ascending by their text:
    what it hands to [mustPrintTaskInputs] is a permutation of what it
    fetched, in ascending order; the formatter is created, the rows it is
    handed carry the inputs in that order, and all of them when [run]
    returns. *)
Theorem ls_inputs_sorts_before_printing (c : t) (arg0 : string)
    (p : process W Input Inputs) :
  (run c arg0 p = (p, Exited) <->
   match strconv_Atoi arg0 with
   | Some taskID =>
       inputStr c <> []
       \/ mustGetTaskRunInputs mustFindRepository mustNewCompatibleStorage
            storage_Inputs toBaurInputs taskID p = None
   | None =>
       mustGetTaskInputs Repository_Path mustFindRepository mustGetRepoState
         mustArgToTask Resolve arg0 p = None
   end)
  /\ (forall fetched,
        match strconv_Atoi arg0 with
        | Some taskID =>
            inputStr c = []
            /\ mustGetTaskRunInputs mustFindRepository mustNewCompatibleStorage
                 storage_Inputs toBaurInputs taskID p = Some fetched
        | None =>
            exists inputs,
              mustGetTaskInputs Repository_Path mustFindRepository mustGetRepoState
                mustArgToTask Resolve arg0 p = Some inputs
              /\ fetched = inputs ++ AsInputStrings (inputStr c)
        end ->
        exists sorted headers es,
          sorted ≡ₚ fetched
          /\ StronglySorted (by_String Input_String) sorted
          /\ run c arg0 p = mustPrintTaskInputs Inputs_Inputs c (NewInputs sorted) p
          /\ trace (run c arg0 p).1 = trace p ++ NewFormatter (csv c) headers :: es
          /\ row_inputs es `prefix_of` Inputs_Inputs (NewInputs sorted)
          /\ ((run c arg0 p).2 = Returned ->
              row_inputs es = Inputs_Inputs (NewInputs sorted))).
Proof.
  assert (forall fetched,
    exists sorted headers es,
      sorted ≡ₚ fetched
      /\ StronglySorted (by_String Input_String) sorted
      /\ mustPrintTaskInputs Inputs_Inputs c (NewInputs (sort_Slice less fetched)) p
         = mustPrintTaskInputs Inputs_Inputs c (NewInputs sorted) p
      /\ trace (mustPrintTaskInputs Inputs_Inputs c
                  (NewInputs (sort_Slice less fetched)) p).1
         = trace p ++ NewFormatter (csv c) headers :: es
      /\ row_inputs es `prefix_of` Inputs_Inputs (NewInputs sorted)
      /\ ((mustPrintTaskInputs Inputs_Inputs c
             (NewInputs (sort_Slice less fetched)) p).2 = Returned ->
          row_inputs es = Inputs_Inputs (NewInputs sorted))) as Hprint.
  { intros fetched.
    destruct (mustPrintTaskInputs_rows Inputs_Inputs c
                (NewInputs (sort_Slice less fetched)) p) as (headers & es & Ht & Hpre & Hall).
    exists (sort_Slice less fetched), headers, es.
    split; [apply sort_Slice_perm|]. split; [apply Sorted_by_String|done]. }
  unfold LsInputsCmd.run. split.
  - destruct (strconv_Atoi arg0) as [taskID|].
    + destruct (inputStr c) as [|str strs]; cbn [length Nat.eqb negb].
      2:{ split; [by left|done]. }
      destruct (mustGetTaskRunInputs _ _ _ _ _ _) as [fetched|].
      * split; [by intros ?%mustPrintTaskInputs_not_silent|]. by intros [?|?].
      * split; [by right|done].
    + destruct (mustGetTaskInputs _ _ _ _ _ _ _) as [inputs|].
      * split; [by intros ?%mustPrintTaskInputs_not_silent|done].
      * done.
  - intros fetched Hfetched. destruct (strconv_Atoi arg0) as [taskID|].
    + destruct Hfetched as [-> ->]. cbn [length Nat.eqb negb]. apply Hprint.
    + destruct Hfetched as (inputs & -> & ->). apply Hprint.
Qed.

End LsRun.

Lemma ls_inputs_rows_match_header_witness :
  length [CInput "a.go"; CString "<a.go>"]
  = columns {| csv := false; quiet := false; showDigest := true; inputStr := [] |}.
Proof.
  refine (proj1 (proj2 (ls_inputs_rows_match_header (fun inputs : list string => inputs)
                          {| csv := false; quiet := false; showDigest := true;
                             inputStr := [] |}
                          ["a.go"] (Process [] tt)))
            [CInput "a.go"; CString "<a.go>"] false _).
  vm_compute. apply list_elem_of_further, list_elem_of_further, list_elem_of_here.
Defined.

Lemma ls_inputs_sorts_before_printing_witness :
  let c := {| csv := false; quiet := false; showDigest := true; inputStr := ["a.txt"] |} in
  run_example c "17" (Process [] tt) = (Process [] tt, Exited)
  /\ exists sorted headers es,
       sorted ≡ₚ ["main.go"; "go.mod"; "a.txt"]
       /\ StronglySorted (by_String (fun input : string => input)) sorted
       /\ run_example c "shop.build" (Process [] tt)
          = mustPrintTaskInputs (fun inputs : list string => inputs) c sorted (Process [] tt)
       /\ trace (run_example c "shop.build" (Process [] tt)).1
          = [] ++ NewFormatter false headers :: es
       /\ row_inputs es `prefix_of` sorted
       /\ ((run_example c "shop.build" (Process [] tt)).2 = Returned ->
           row_inputs es = sorted).
Proof.
  split.
  - refine (proj2 (proj1 (ls_inputs_sorts_before_printing (fun input : string => input)
                     (fun inputs : list string => inputs)
                     (fun inputs : list string => inputs)
                     (fun strs : list string => strs) strconv_Atoi_example
                     (fun repo : string => repo) (fun _ => Some "/repo")
                     (fun _ _ => Some tt)
                     storage_Inputs_example (fun inputs : list string => inputs)
                     (fun _ _ => Some tt) (fun _ _ _ taskSpec => Some taskSpec)
                     Resolve_example
                     {| csv := false; quiet := false; showDigest := true;
                        inputStr := ["a.txt"] |}
                     "17" (Process [] tt))) _).
    left. discriminate.
  - refine (proj2 (ls_inputs_sorts_before_printing (fun input : string => input)
                     (fun inputs : list string => inputs)
                     (fun inputs : list string => inputs)
                     (fun strs : list string => strs) strconv_Atoi_example
                     (fun repo : string => repo) (fun _ => Some "/repo")
                     (fun _ _ => Some tt)
                     storage_Inputs_example (fun inputs : list string => inputs)
                     (fun _ _ => Some tt) (fun _ _ _ taskSpec => Some taskSpec)
                     Resolve_example
                     {| csv := false; quiet := false; showDigest := true;
                        inputStr := ["a.txt"] |}
                     "shop.build" (Process [] tt)) ["main.go"; "go.mod"; "a.txt"] _).
    exists ["main.go"; "go.mod"]. split; reflexivity.
Defined.

(** The listing of a task with an input string, with digests: the inputs
    in ascending order, each with its digest, and the total digest. *)
Example ls_inputs_example :
  let c := {| csv := false; quiet := false; showDigest := true; inputStr := ["a.txt"] |} in
  run_example c "shop.build" (Process [] tt)
  = (Process [NewFormatter false ["Input"; "Digest"];
              Digest "a.txt" (Some "<a.txt>");
              WriteRow [CInput "a.txt"; CString "<a.txt>"] false;
              Digest "go.mod" (Some "<go.mod>");
              WriteRow [CInput "go.mod"; CString "<go.mod>"] false;
              Digest "main.go" (Some "<main.go>");
              WriteRow [CInput "main.go"; CString "<main.go>"] false;
              Flush false;
              TotalDigest ["a.txt"; "go.mod"; "main.go"] (Some "<total>");
              PrintTotalDigest "<total>"] tt,
     Returned).
Proof. vm_compute. reflexivity. Qed.
